(** * Batch-Icon-Processor: the matting and edge-refinement pipeline

    A shallow embedding of [src/utils/backgroundRemoval.ts] (matting, the five
    edge filters and the orchestrator [removeBackground]), of the Gaussian
    alpha blur of [src/components/EdgeLab.tsx] and of the batch driver of the
    [BatchProcessor] component, with the properties the specification states
    about them.

    JavaScript numbers are IEEE-754 binary64 values: they are modelled by
    Rocq's primitive floats, whose operations are the same correctly rounded
    ones.  A [Uint8ClampedArray] is a list of integers in [0,255]; reading it
    yields a number, writing it applies the clamping conversion. *)

From Stdlib Require Import ZArith Floats Uint63 Lia String Ascii.
From stdpp Require Import list strings gmap.

Set Warnings "-inexact-float".
Local Open Scope Z_scope.

(** ** JavaScript numbers *)

Module JS.

Definition num := float.

(** The number denoted by an integer (array elements, loop counters). *)
Definition of_int (z : Z) : num :=
  if z <? 0 then (- of_uint63 (Uint63.of_Z (- z)))%float
  else of_uint63 (Uint63.of_Z z).

(** A finite number as an exact fraction [n / d], [d] a power of two. *)
Definition exact (x : num) : option (Z * Z) :=
  match Prim2SF x with
  | S754_zero _ => Some (0, 1)
  | S754_finite s m e =>
      let n := if s then Z.neg m else Z.pos m in
      match e with
      | Zneg p => Some (n, 2 ^ Z.pos p)
      | _ => Some (n * 2 ^ e, 1)
      end
  | _ => None
  end.

(** [Math.floor] *)
Definition floor (x : num) : num :=
  match exact x with
  | Some (n, d) => if d =? 1 then x else of_int (n / d)
  | None => x
  end.

(** [Math.round]: the nearest integer, halves towards plus infinity. *)
Definition round (x : num) : num :=
  match exact x with
  | Some (n, d) =>
      if d =? 1 then x
      else let r := (2 * n + d) / (2 * d) in
           if (r =? 0) && (n <? 0) then (-0)%float else of_int r
  | None => x
  end.

(** [Math.abs] *)
Definition abs (x : num) : num := PrimFloat.abs x.

Definition is_neg_zero (x : num) : bool :=
  match classify x with NZero => true | _ => false end.

(** [Math.max] and [Math.min] of two numbers: NaN when an argument is NaN,
    and [-0] counts as smaller than [+0]. *)
Definition max (a b : num) : num :=
  if is_nan a || is_nan b then nan
  else if (a <? b)%float then b
  else if (b <? a)%float then a
  else if is_neg_zero a then b else a.

Definition min (a b : num) : num :=
  if is_nan a || is_nan b then nan
  else if (a <? b)%float then a
  else if (b <? a)%float then b
  else if is_neg_zero a then a else b.

(** [Math.max(a, b, c)] *)
Definition max3 (a b c : num) : num := max (max a b) c.

(** The conversion a [Uint8ClampedArray] applies to a stored number: NaN
    becomes 0, the value is clamped to [0,255] and rounded to the nearest
    integer, halves to the even one. *)
Definition toUint8Clamp (x : num) : Z :=
  match exact x with
  | Some (n, d) =>
      if n <=? 0 then 0
      else if 255 * d <=? n then 255
      else let q := n / d in
           let r := n mod d in
           match (2 * r) ?= d with
           | Lt => q
           | Gt => q + 1
           | Eq => if Z.even q then q else q + 1
           end
  | None => if (0 <? x)%float then 255 else 0
  end.

End JS.

(** ** Typed arrays and image buffers *)

(** [a[i]] of an array: [None] is JavaScript's [undefined]. *)
Definition rd {A : Type} (a : list A) (i : Z) : option A :=
  if i <? 0 then None else a !! Z.to_nat i.

(** [a[i]] used as a number: [undefined] converts to NaN, so that every
    comparison with it is false, as in the source. *)
Definition get (a : list Z) (i : Z) : JS.num :=
  match rd a i with Some v => JS.of_int v | None => nan end.

(** [a[i] = v] for a value stored as it is; a write outside the array is
    ignored by a typed array (the only other arrays written by index,
    Gaussian kernels, are written inside their bounds). *)
Definition wr {A : Type} (a : list A) (i : Z) (v : A) : list A :=
  if i <? 0 then a else <[Z.to_nat i := v]> a.

(** [a[i] = x] on a [Uint8ClampedArray]. *)
Definition set (a : list Z) (i : Z) (x : JS.num) : list Z :=
  wr a i (JS.toUint8Clamp x).

(** [ImageData]: [data] holds four bytes (R, G, B, A) per pixel, row-major. *)
Record ImageData := mkImageData {
  width : Z;
  height : Z;
  data : list Z
}.

Definition len {A : Type} (a : list A) : Z := Z.of_nat (length a).

(** The values of [for (let v = lo; v < hi; v++)]. *)
Definition range (lo hi : Z) : list Z :=
  map (fun k => lo + Z.of_nat k) (seq 0 (Z.to_nat (hi - lo))).

(** The values of [for (let i = 0; i < n; i += 4)]. *)
Definition offsets4 (n : Z) : list Z :=
  map (fun k => 4 * k) (range 0 ((n + 3) / 4)).

(** A loop whose body updates a state, run over the listed values. *)
Definition for_each {S : Type} (l : list Z) (body : Z -> S -> S) (s : S) : S :=
  fold_left (fun s i => body i s) l s.

(** ** Matting *)

Local Open Scope float_scope.

(** The body of the loop of [subtractBackground] at offset [i]. *)
Definition subtractBackground_body (bgPixels : list Z) (workingThreshold : JS.num)
    (i : Z) (data : list Z) : list Z :=
  let bgAlpha := get bgPixels (i + 3) in
  if 0 <? bgAlpha then
    let bgR := get bgPixels i in
    let bgG := get bgPixels (i + 1) in
    let bgB := get bgPixels (i + 2) in
    let imgR := get data i in
    let imgG := get data (i + 1) in
    let imgB := get data (i + 2) in
    let rDiff := JS.abs (imgR - bgR) in
    let gDiff := JS.abs (imgG - bgG) in
    let bDiff := JS.abs (imgB - bgB) in
    let maxDiff := JS.max3 rDiff gDiff bDiff in
    let alphaFactor := bgAlpha / 255 in
    let effectiveThreshold := workingThreshold * alphaFactor in
    if maxDiff <? effectiveThreshold then
      set data (i + 3) 0
    else if maxDiff <? effectiveThreshold * 1.5 then
      let fadeout := (maxDiff - effectiveThreshold) / (effectiveThreshold * 0.5) in
      set data (i + 3) (JS.round (get data (i + 3) * fadeout))
    else data
  else data.

(** [subtractBackground(imageData, bgData, threshold)]: the new contents of
    [imageData.data]. *)
Definition subtractBackground (imageData bgData : ImageData) (threshold : JS.num)
    : list Z :=
  let bgPixels := data bgData in
  let data := data imageData in
  let workingThreshold := threshold * 2.55 in
  for_each (offsets4 (len data)) (subtractBackground_body bgPixels workingThreshold) data.

Record RGB := mkRGB { r : JS.num; g : JS.num; b : JS.num }.

(** The body of the loop of [removeByColor] at offset [i]. *)
Definition removeByColor_body (targetColor : RGB) (threshold : JS.num)
    (i : Z) (data : list Z) : list Z :=
  let '(mkRGB targetR targetG targetB) := targetColor in
  let r := get data i in
  let g := get data (i + 1) in
  let b := get data (i + 2) in
  let rDiff := JS.abs (r - targetR) in
  let gDiff := JS.abs (g - targetG) in
  let bDiff := JS.abs (b - targetB) in
  let totalDiff := (rDiff + gDiff + bDiff) / 3 in
  if totalDiff <? threshold then
    set data (i + 3) 0
  else
    let alpha := JS.min 255 ((totalDiff / threshold) * 255) in
    set data (i + 3) (JS.min (get data (i + 3)) alpha).

Definition removeByColor (imageData : ImageData) (targetColor : RGB)
    (threshold : JS.num) : list Z :=
  let data := data imageData in
  for_each (offsets4 (len data)) (removeByColor_body targetColor threshold) data.


(** [detectBackgroundColor]: the rounded mean of the four corner pixels. *)
Definition detectBackgroundColor (imageData : ImageData) : RGB :=
  let width := width imageData in
  let height := height imageData in
  let data := data imageData in
  let samples := [ 0;
                   (width - 1) * 4;
                   (height - 1) * width * 4;
                   ((height - 1) * width + (width - 1)) * 4 ]%Z in
  let '(r, g, b) :=
    for_each samples
      (fun idx '(r, g, b) =>
         (r + get data idx, g + get data (idx + 1), b + get data (idx + 2)))
      (0, 0, 0) in
  mkRGB (JS.round (r / JS.of_int (len samples)))
        (JS.round (g / JS.of_int (len samples)))
        (JS.round (b / JS.of_int (len samples))).

(** The value of a hexadecimal digit, of either case. *)
Definition hexDigit (c : ascii) : option Z :=
  let n := Z.of_nat (nat_of_ascii c) in
  if ((48 <=? n) && (n <=? 57))%Z then Some (n - 48)%Z
  else if ((97 <=? n) && (n <=? 102))%Z then Some (n - 87)%Z
  else if ((65 <=? n) && (n <=? 70))%Z then Some (n - 55)%Z
  else None.

(** [hexToRgb]: an optional [#] followed by exactly six hexadecimal digits;
    any other string yields black. *)
Definition hexToRgb (hex : string) : RGB :=
  let digits := match hex with
                | String "#"%char rest => rest
                | _ => hex
                end in
  match map hexDigit (list_ascii_of_string digits) with
  | [Some a1; Some a0; Some b1; Some b0; Some c1; Some c0] =>
      mkRGB (JS.of_int (16 * a1 + a0)) (JS.of_int (16 * b1 + b0))
            (JS.of_int (16 * c1 + c0))
  | _ => mkRGB 0 0 0
  end.

(** ** Edge filters *)

(** A zero-filled typed array of [n] elements. *)
Definition zeros (n : Z) : list Z := replicate (Z.to_nat n) 0%Z.

(** [smoothEdges]: every partially transparent pixel off the border takes
    the rounded mean alpha of its 3x3 neighbourhood in a copy of the
    buffer. *)
Definition smoothEdges (imageData : ImageData) : list Z :=
  let width := width imageData in
  let height := height imageData in
  let data := data imageData in
  let originalData := data in
  for_each (range 1 (height - 1)) (fun y data =>
    for_each (range 1 (width - 1)) (fun x data =>
      let idx := ((y * width + x) * 4)%Z in
      if (0 <? get originalData (idx + 3)) && (get originalData (idx + 3) <? 255) then
        let '(alphaSum, count) :=
          for_each (range (-1) 2) (fun dy acc =>
            for_each (range (-1) 2) (fun dx '(alphaSum, count) =>
              let neighborIdx := (((y + dy) * width + (x + dx)) * 4)%Z in
              (alphaSum + get originalData (neighborIdx + 3), (count + 1)%Z))
              acc)
            (0, 0%Z) in
        set data (idx + 3) (JS.round (alphaSum / JS.of_int count))
      else data) data) data.

(** The search, by two nested loops left at the first hit, for a fully
    transparent pixel among the eight neighbours of (x, y); [alphaIdx]
    gives the index of the alpha of a pixel number. *)
Definition hasTransparent (a : list Z) (alphaIdx : Z -> Z) (width x y : Z) : bool :=
  existsb (fun dy =>
    existsb (fun dx =>
      if ((dx =? 0) && (dy =? 0))%Z then false
      else get a (alphaIdx ((y + dy) * width + (x + dx))%Z) =? 0)
      (range (-1) 2))
    (range (-1) 2).

(** The first step of [removeLightEdgeArtifacts] and of
    [removeLiquidGlassOutline], which the source writes out twice: the mask
    of the pixels off the border with a nonzero alpha and a fully
    transparent neighbour. *)
Definition outerEdge (data : list Z) (width height : Z) : list Z :=
  for_each (range 1 (height - 1)) (fun y isOuterEdge =>
    for_each (range 1 (width - 1)) (fun x isOuterEdge =>
      let idx := (y * width + x)%Z in
      let pixelIdx := (idx * 4)%Z in
      if 0 <? get data (pixelIdx + 3) then
        if hasTransparent data (fun n => n * 4 + 3)%Z width x y
        then wr isOuterEdge idx 1%Z
        else isOuterEdge
      else isOuterEdge) isOuterEdge)
    (zeros (width * height)).

(** [removeLightEdgeArtifacts] *)
Definition removeLightEdgeArtifacts (imageData : ImageData) : list Z :=
  let width := width imageData in
  let height := height imageData in
  let data := data imageData in
  let isOuterEdge := outerEdge data width height in
  for_each (range 0 height) (fun y data =>
    for_each (range 0 width) (fun x data =>
      let idx := (y * width + x)%Z in
      if negb (get isOuterEdge idx =? 1) then data
      else
        let pixelIdx := (idx * 4)%Z in
        let alpha := get data (pixelIdx + 3) in
        if (0 <? alpha) && (alpha <? 200) then
          let r := get data pixelIdx in
          let g := get data (pixelIdx + 1) in
          let b := get data (pixelIdx + 2) in
          let brightness := (r + g + b) / 3 in
          if 180 <? brightness then
            set data (pixelIdx + 3) (JS.max 0 (alpha - (brightness - 128)))
          else data
        else data) data) data.

(** One pass of the erosion loop of [erodeEdges] over the alpha map. *)
Definition erodePass (width height : Z) (alphaMap : list Z) : list Z :=
  let tempAlpha := alphaMap in
  for_each (range 1 (height - 1)) (fun y alphaMap =>
    for_each (range 1 (width - 1)) (fun x alphaMap =>
      let idx := (y * width + x)%Z in
      if 0 <? get tempAlpha idx then
        if hasTransparent tempAlpha (fun n => n) width x y
        then set alphaMap idx 0
        else alphaMap
      else alphaMap) alphaMap) alphaMap.

(** [erodeEdges(imageData, pixels)] *)
Definition erodeEdges (imageData : ImageData) (pixels : Z) : list Z :=
  let width := width imageData in
  let height := height imageData in
  let data := data imageData in
  let alphaMap :=
    for_each (offsets4 (len data))
      (fun i alphaMap => set alphaMap (i / 4) (get data (i + 3)))
      (zeros (width * height)) in
  let alphaMap :=
    for_each (range 0 pixels) (fun pass alphaMap => erodePass width height alphaMap)
      alphaMap in
  for_each (offsets4 (len data))
    (fun i data => set data (i + 3) (get alphaMap (i / 4))) data.

(** [aggressiveEdgeCleanup]: the scan reads the neighbours in the buffer it
    is updating. *)
Definition aggressiveEdgeCleanup (imageData : ImageData) : list Z :=
  let width := width imageData in
  let height := height imageData in
  let data := data imageData in
  for_each (range 0 height) (fun y data =>
    for_each (range 0 width) (fun x data =>
      let idx := ((y * width + x) * 4)%Z in
      let alpha := get data (idx + 3) in
      if (0 <? alpha) && (alpha <? 128) then
        let r := get data idx in
        let g := get data (idx + 1) in
        let b := get data (idx + 2) in
        let '(hasOpaque, opaqueCount) :=
          for_each (range (-1) 2) (fun dy acc =>
            for_each (range (-1) 2) (fun dx '(hasOpaque, opaqueCount) =>
              if ((dx =? 0) && (dy =? 0))%Z then (hasOpaque, opaqueCount)
              else
                let ny := (y + dy)%Z in
                let nx := (x + dx)%Z in
                if ((0 <=? ny) && (ny <? height) && (0 <=? nx) && (nx <? width))%Z then
                  let nIdx := ((ny * width + nx) * 4)%Z in
                  if 200 <? get data (nIdx + 3)
                  then (true, (opaqueCount + 1)%Z)
                  else (hasOpaque, opaqueCount)
                else (hasOpaque, opaqueCount))
              acc)
            (false, 0%Z) in
        let brightness := (r + g + b) / 3 in
        if (negb hasOpaque || (opaqueCount <? 3)%Z) && (150 <? brightness) then
          set data (idx + 3) 0
        else data
      else data) data) data.

(** The second step of [removeLiquidGlassOutline]: the pixels within
    [outlineWidth] (in both directions) of an outer-edge pixel. *)
Definition processZoneOf (isOuterEdge : list Z) (width height outlineWidth : Z)
    : list Z :=
  for_each (range 0 height) (fun y processZone =>
    for_each (range 0 width) (fun x processZone =>
      let idx := (y * width + x)%Z in
      if existsb (fun dy =>
           existsb (fun dx =>
             let ny := (y + dy)%Z in
             let nx := (x + dx)%Z in
             ((0 <=? ny) && (ny <? height) && (0 <=? nx) && (nx <? width))%Z
             && (get isOuterEdge (ny * width + nx) =? 1))
             (range (- outlineWidth) (outlineWidth + 1)))
           (range (- outlineWidth) (outlineWidth + 1))
      then wr processZone idx 1%Z
      else processZone) processZone)
    (zeros (width * height)).

(** [removeLiquidGlassOutline(imageData, outlineWidth, brightThreshold)] *)
Definition removeLiquidGlassOutline (imageData : ImageData) (outlineWidth : Z)
    (brightThreshold : JS.num) : list Z :=
  let width := width imageData in
  let height := height imageData in
  let data := data imageData in
  let isOuterEdge := outerEdge data width height in
  let processZone := processZoneOf isOuterEdge width height outlineWidth in
  for_each (range 0 height) (fun y data =>
    for_each (range 0 width) (fun x data =>
      let idx := (y * width + x)%Z in
      if negb (get processZone idx =? 1) then data
      else
        let pixelIdx := (idx * 4)%Z in
        let r := get data pixelIdx in
        let g := get data (pixelIdx + 1) in
        let b := get data (pixelIdx + 2) in
        let a := get data (pixelIdx + 3) in
        if a =? 0 then data
        else
          let brightness := (r + g + b) / 3 in
          let data :=
            if brightThreshold <? brightness then
              let brightFactor := (brightness - brightThreshold) / (255 - brightThreshold) in
              let alphaReduction := brightFactor * a in
              set data (pixelIdx + 3) (JS.max 0 (a - alphaReduction))
            else data in
          if (0 <? a) && (a <? 180) && (brightThreshold - 20 <? brightness) then
            set data (pixelIdx + 3) (JS.max 0 (JS.floor (a * 0.3)))
          else data) data) data.

(** ** The orchestrator *)

(** [ProcessingOptions]: every field is optional.  The two counters are
    integers, as the sliders that set them produce. *)
Record ProcessingOptions := mkProcessingOptions {
  threshold : option JS.num;
  edgeSmoothing : option bool;
  targetBackgroundColor : option string;
  edgeCleanup : option bool;
  erodePixels : option Z;
  removeLightEdges : option bool;
  removeLiquidGlass : option bool;
  glassOutlineWidth : option Z;
  glassBrightness : option JS.num
}.

(** The image after a filter has rewritten its [data] in place. *)
Definition with_data (imageData : ImageData) (d : list Z) : ImageData :=
  mkImageData (width imageData) (height imageData) d.

(** The truth value of a string used as a condition: the empty string is
    false. *)
Definition truthy (s : option string) : bool :=
  match s with
  | Some EmptyString => false
  | Some _ => true
  | None => false
  end.

(** [removeBackground], between [getImageData] and [putImageData]: the
    decoded image, the decoded reference when a reference file is given,
    and the options.  A missing option takes its default value. *)
Definition removeBackground (imageData : ImageData)
    (referenceBackground : option ImageData) (options : ProcessingOptions)
    : ImageData :=
  let threshold := default 30 (threshold options) in
  let edgeSmoothing := default true (edgeSmoothing options) in
  let targetBackgroundColor := targetBackgroundColor options in
  let edgeCleanup := default false (edgeCleanup options) in
  let erodePixels := default 0%Z (erodePixels options) in
  let removeLightEdges := default false (removeLightEdges options) in
  let removeLiquidGlass := default false (removeLiquidGlass options) in
  let glassOutlineWidth := default 2%Z (glassOutlineWidth options) in
  let glassBrightness := default 200 (glassBrightness options) in
  let imageData :=
    match referenceBackground with
    | Some bgData =>
        with_data imageData (subtractBackground imageData bgData threshold)
    | None =>
        if truthy targetBackgroundColor then
          let rgb := hexToRgb (default EmptyString targetBackgroundColor) in
          with_data imageData (removeByColor imageData rgb threshold)
        else
          let bgColor := detectBackgroundColor imageData in
          with_data imageData (removeByColor imageData bgColor threshold)
    end in
  let imageData :=
    if edgeSmoothing then with_data imageData (smoothEdges imageData)
    else imageData in
  let imageData :=
    if removeLightEdges then with_data imageData (removeLightEdgeArtifacts imageData)
    else imageData in
  let imageData :=
    if (0 <? erodePixels)%Z then with_data imageData (erodeEdges imageData erodePixels)
    else imageData in
  let imageData :=
    if edgeCleanup then with_data imageData (aggressiveEdgeCleanup imageData)
    else imageData in
  let imageData :=
    if removeLiquidGlass then
      with_data imageData
        (removeLiquidGlassOutline imageData glassOutlineWidth glassBrightness)
    else imageData in
  imageData.

(** ** Gaussian alpha blur (EdgeLab) *)

Section Gaussian.

(** [Math.exp], which has no counterpart among the primitive operations. *)
Variable Math_exp : JS.num -> JS.num.

(** [kernel[i]] of an array of numbers: a hole or an index outside the
    array reads as [undefined], which is NaN in arithmetic. *)
Definition nget (a : list JS.num) (i : Z) : JS.num := default nan (rd a i).

(** [generateGaussianKernel(radius)] *)
Definition generateGaussianKernel (radius : Z) : list JS.num :=
  let size := (radius * 2 + 1)%Z in
  let kernel := replicate (Z.to_nat (size * size)) nan in
  let sigma := JS.of_int radius / 2 in
  let '(kernel, sum) :=
    for_each (range (- radius) (radius + 1)) (fun y acc =>
      for_each (range (- radius) (radius + 1)) (fun x '(kernel, sum) =>
        let value := Math_exp (- JS.of_int (x * x + y * y) / (2 * sigma * sigma)) in
        (wr kernel ((y + radius) * size + (x + radius)) value, sum + value))
        acc)
      (kernel, 0) in
  map (fun v => v / sum) kernel.

(** The weighted sum and the sum of the weights over the neighbours of
    (x, y) that lie inside the image. *)
Definition gaussianSums (kernel : list JS.num) (radius width height : Z)
    (tempAlpha : list Z) (x y : Z) : JS.num * JS.num :=
  let kernelSize := (radius * 2 + 1)%Z in
  for_each (range (- radius) (radius + 1)) (fun ky acc =>
    for_each (range (- radius) (radius + 1)) (fun kx '(sum, weightSum) =>
      let nx := (x + kx)%Z in
      let ny := (y + ky)%Z in
      if ((0 <=? nx) && (nx <? width) && (0 <=? ny) && (ny <? height))%Z then
        let nidx := (ny * width + nx)%Z in
        let weight := nget kernel ((ky + radius) * kernelSize + (kx + radius)) in
        (sum + get tempAlpha nidx * weight, weightSum + weight)
      else (sum, weightSum))
      acc)
    (0, 0).

(** One iteration of the loop over the passes of [gaussianMethod]. *)
Definition gaussianPass (kernel : list JS.num) (radius width height : Z)
    (data : list Z) : list Z :=
  let tempAlpha :=
    for_each (range 0 (width * height))
      (fun i tempAlpha => set tempAlpha i (get data (i * 4 + 3)))
      (zeros (width * height)) in
  for_each (range 0 height) (fun y data =>
    for_each (range 0 width) (fun x data =>
      let idx := (y * width + x)%Z in
      let alpha := get tempAlpha idx in
      if (10 <? alpha) && (alpha <? 245) then
        let '(sum, weightSum) :=
          gaussianSums kernel radius width height tempAlpha x y in
        set data (idx * 4 + 3) (JS.round (sum / weightSum))
      else data) data) data.

(** [gaussianMethod(img, radius, passes)], from the pixels drawn on the
    canvas to the returned [ImageData]. *)
Definition gaussianMethod (imageData : ImageData) (radius passes : Z) : ImageData :=
  let data := data imageData in
  let width := width imageData in
  let height := height imageData in
  let kernel := generateGaussianKernel radius in
  with_data imageData
    (for_each (range 0 passes)
       (fun pass data => gaussianPass kernel radius width height data) data).

End Gaussian.

Local Close Scope float_scope.

(** ** The batch driver (BatchProcessor) *)

(** A value thrown in JavaScript: an [Error] object with its message, or
    anything else. *)
Inductive Thrown :=
  | ErrorObject (message : string)
  | OtherValue.

(** What becomes of a promise that is awaited: it is resolved with a
    value, which [await] gives; it is rejected with a reason, which [await]
    throws; or it is never settled, and the function that awaits it never
    resumes. *)
Inductive Settled (A : Type) :=
  | Resolved (value : A)
  | Rejected (reason : Thrown)
  | Unsettled.

Arguments Resolved {A} value.
Arguments Rejected {A} reason.
Arguments Unsettled {A}.

(** ** The promise of [removeBackground] *)

Section RemoveBackgroundPromise.

Variables File Blob : Type.

(** The canvas side of [removeBackground] is the browser's.  [pixels_of]
    is what the steps from [loadImage] to [getImageData] give for a file:
    the pixels, or what is thrown on the way ([loadImage] rejects with the
    error event of the image, a missing context throws an [Error]).
    [toBlob] is the blob [canvas.toBlob] calls back with once the pixels
    are put back, [None] being [null]. *)
Variable pixels_of : File -> Settled ImageData.
Variable toBlob : ImageData -> option Blob.

(** The promise [removeBackground] returns at its end.  Its executor takes
    no [reject], and with [null] the callback throws after the executor
    has returned: nothing settles the promise then. *)
Definition toBlob_promise (blob : option Blob) : Settled Blob :=
  match blob with
  | Some blob => Resolved blob
  | None => Unsettled
  end.

(** [removeBackground(imageFile, referenceBackground, options)] as the
    batch driver awaits it. *)
Definition removeBackground_promise (imageFile : File)
    (referenceBackground : option File) (options : ProcessingOptions) : Settled Blob :=
  match pixels_of imageFile with
  | Resolved imageData =>
      match referenceBackground with
      | Some reference =>
          match pixels_of reference with
          | Resolved bgData =>
              toBlob_promise (toBlob (removeBackground imageData (Some bgData) options))
          | Rejected e => Rejected e
          | Unsettled => Unsettled
          end
      | None => toBlob_promise (toBlob (removeBackground imageData None options))
      end
  | Rejected e => Rejected e
  | Unsettled => Unsettled
  end.

End RemoveBackgroundPromise.

Arguments toBlob_promise {Blob} _.
Arguments removeBackground_promise {File Blob} _ _ _ _ _.

Inductive Status := Pending | Processing | Done | Error.

Section Batch.

(** Files and blobs are opaque here. *)
Variables File Blob : Type.

Record ProcessedFile := mkProcessedFile {
  original : File;
  processed : option Blob;
  preview : option string;
  status : Status;
  error : option string
}.

(** An asynchronous function of the component: it reads and updates the
    [files] state, and completes normally, throws, or never completes
    because it awaits a promise that is never settled.  State updates made
    before that stay made. *)
Definition Async (A : Type) : Type :=
  list ProcessedFile -> Settled A * list ProcessedFile.

Definition ret {A : Type} (a : A) : Async A := fun files => (Resolved a, files).

Definition bind {A B : Type} (m : Async A) (k : A -> Async B) : Async B :=
  fun files =>
    match m files with
    | (Resolved a, files') => k a files'
    | (Rejected e, files') => (Rejected e, files')
    | (Unsettled, files') => (Unsettled, files')
    end.

(** [await p] *)
Definition await {A : Type} (p : Settled A) : Async A := fun files => (p, files).

(** [setFiles(prev => ...)] *)
Definition setFiles (update : list ProcessedFile -> list ProcessedFile) : Async unit :=
  fun files => (Resolved tt, update files).

(** [try { body } catch (error) { handler }] *)
Definition try_catch {A : Type} (body : Async A) (handler : Thrown -> Async A)
    : Async A :=
  fun files =>
    match body files with
    | (Resolved a, files') => (Resolved a, files')
    | (Rejected e, files') => handler e files'
    | (Unsettled, files') => (Unsettled, files')
    end.

(** [try { body } finally { ... }], for a [finally] block that does not
    touch [files]; it is not reached when the body never completes. *)
Definition try_finally {A : Type} (body : Async A) : Async A := body.

(** [for (const i of l) { body }] *)
Fixpoint for_of {I : Type} (l : list I) (body : I -> Async unit) : Async unit :=
  match l with
  | [] => ret tt
  | i :: l' => bind (body i) (fun _ => for_of l' body)
  end.

(** [updated[index] = f(updated[index])] on a copy of the array; the
    driver only passes indices of existing entries. *)
Definition update_at (index : nat) (f : ProcessedFile -> ProcessedFile)
    (prev : list ProcessedFile) : list ProcessedFile :=
  alter f index prev.

(** The awaited calls: [removeBackground] with the component's current
    reference and options, and [createPreview]. *)
Variable removeBackground_of : File -> Settled Blob.
Variable createPreview : Blob -> Settled string.

(** [error instanceof Error ? error.message : 'Unknown error'] *)
Definition message_of (e : Thrown) : string :=
  match e with
  | ErrorObject message => message
  | OtherValue => "Unknown error"
  end.

Definition processFile (file : ProcessedFile) (index : nat) : Async unit :=
  try_catch
    (bind (setFiles (update_at index (fun f =>
             mkProcessedFile (original f) (processed f) (preview f) Processing (error f))))
       (fun _ =>
     bind (await (removeBackground_of (original file))) (fun processed =>
     bind (await (createPreview processed)) (fun preview =>
     setFiles (update_at index (fun f =>
       mkProcessedFile (original f) (Some processed) (Some preview) Done (error f)))))))
    (fun e =>
       setFiles (update_at index (fun f =>
         mkProcessedFile (original f) (processed f) (preview f) Error
                         (Some (message_of e))))).

(** [startBatchProcessing], called when the state is [files]: the loop
    walks the array the call captured, skipping entries that are neither
    pending nor in error. *)
Definition startBatchProcessing (files : list ProcessedFile) : Async unit :=
  try_finally
    (for_of (seq 0 (length files)) (fun i =>
       match files !! i with
       | Some file =>
           match status file with
           | Pending | Error =>
               bind (processFile file i) (fun _ => await (Resolved tt))
           | _ => ret tt
           end
       | None => ret tt
       end)).

End Batch.

Arguments original {File Blob} _.
Arguments processed {File Blob} _.
Arguments preview {File Blob} _.
Arguments status {File Blob} _.
Arguments error {File Blob} _.
Arguments mkProcessedFile {File Blob} _ _ _ _ _.

Local Open Scope float_scope.

Local Close Scope float_scope.

(** ** Definitions used to state the properties *)

(** A loop body that writes at most the alpha byte of the pixel at offset
    [i]: [f i d] is the byte to store, or [None] to leave the pixel alone. *)
Definition alpha_body (f : Z -> list Z -> option Z) (i : Z) (d : list Z) : list Z :=
  match f i d with Some v => wr d (i + 3) v | None => d end.

(** What such a loop, run over the first [m] pixels of [d], leaves at index
    [j]. *)
Definition alpha_at (f : Z -> list Z -> option Z) (d : list Z) (m : Z) (j : Z)
    : option Z :=
  if decide (0 <= j - 3 < 4 * m /\ (j - 3) mod 4 = 0) then
    match f (j - 3) d with
    | Some v => match rd d j with Some _ => Some v | None => None end
    | None => rd d j
    end
  else rd d j.

Local Open Scope float_scope.

(** The alpha byte [subtractBackground] stores for the pixel at offset [i]
    of [d] ([None]: the pixel is left alone). *)
Definition subtract_alpha (bgPixels : list Z) (workingThreshold : JS.num)
    (i : Z) (d : list Z) : option Z :=
  let bgAlpha := get bgPixels (i + 3) in
  if 0 <? bgAlpha then
    let maxDiff := JS.max3 (JS.abs (get d i - get bgPixels i))
                           (JS.abs (get d (i + 1) - get bgPixels (i + 1)))
                           (JS.abs (get d (i + 2) - get bgPixels (i + 2))) in
    let effectiveThreshold := workingThreshold * (bgAlpha / 255) in
    if maxDiff <? effectiveThreshold then Some (JS.toUint8Clamp 0)
    else if maxDiff <? effectiveThreshold * 1.5 then
      Some (JS.toUint8Clamp (JS.round (get d (i + 3) *
              ((maxDiff - effectiveThreshold) / (effectiveThreshold * 0.5)))))
    else None
  else None.

(** Every element of a [Uint8ClampedArray] lies in [0,255]. *)
Definition bytes (a : list Z) : bool :=
  forallb (fun v => (0 <=? v)%Z && (v <=? 255)%Z) a.

(** An [ImageData] holds four bytes for each of its [width * height] pixels. *)
Definition well_formed (img : ImageData) : bool :=
  (0 <=? width img)%Z && (0 <=? height img)%Z
  && (len (data img) =? 4 * (width img * height img))%Z
  && bytes (data img).

(** A pixel: its four bytes. *)
Record Pixel := mkPixel { pR : Z; pG : Z; pB : Z; pA : Z }.

(** The pixel number [k] (row-major) of a buffer. *)
Definition pixel_at (d : list Z) (k : Z) : option Pixel :=
  match rd d (4 * k), rd d (4 * k + 1), rd d (4 * k + 2), rd d (4 * k + 3) with
  | Some r, Some g, Some b, Some a => Some (mkPixel r g b a)
  | _, _, _, _ => None
  end.

Definition with_alpha (p : Pixel) (a : Z) : Pixel := mkPixel (pR p) (pG p) (pB p) a.

(** The flat index of the pixel at column [x] of row [y] in an image of
    width [w]. *)
Definition pixel_index (w x y : Z) : Z := (y * w + x)%Z.

(** Reference-mode matting of one pixel as section 4.1 of the specification
    words it: the alpha of image pixel [p] facing reference pixel [q]. *)
Definition maxDiff (p q : Pixel) : JS.num :=
  JS.max3 (JS.abs (JS.of_int (pR p) - JS.of_int (pR q)))
          (JS.abs (JS.of_int (pG p) - JS.of_int (pG q)))
          (JS.abs (JS.of_int (pB p) - JS.of_int (pB q))).

Definition effectiveThreshold (threshold : JS.num) (refAlpha : Z) : JS.num :=
  (threshold * 2.55) * (JS.of_int refAlpha / 255).

Definition fade (threshold : JS.num) (p q : Pixel) : JS.num :=
  (maxDiff p q - effectiveThreshold threshold (pA q))
  / (effectiveThreshold threshold (pA q) * 0.5).

Definition reference_alpha (threshold : JS.num) (p q : Pixel) : Z :=
  if (pA q =? 0)%Z then pA p
  else if maxDiff p q <? effectiveThreshold threshold (pA q) then 0%Z
  else if maxDiff p q <? effectiveThreshold threshold (pA q) * 1.5 then
    JS.toUint8Clamp (JS.round (JS.of_int (pA p) * fade threshold p q))
  else pA p.

(** The claim of the specification about buffers of different dimensions:
    a position absent from one of the two buffers is left unchanged. *)
Definition in_both (imageData bgData : ImageData) (x y : Z) : Prop :=
  (0 <= x < Z.min (width imageData) (width bgData)
   /\ 0 <= y < Z.min (height imageData) (height bgData))%Z.

Definition only_overlap_is_matted : Prop :=
  forall (imageData bgData : ImageData) (threshold : JS.num) (x y : Z),
    well_formed imageData = true -> well_formed bgData = true ->
    (0 <= x < width imageData)%Z -> (0 <= y < height imageData)%Z ->
    ~ in_both imageData bgData x y ->
    pixel_at (subtractBackground imageData bgData threshold)
             (pixel_index (width imageData) x y)
    = pixel_at (data imageData) (pixel_index (width imageData) x y).

Local Close Scope float_scope.

(** A loop body over indices of any kind that writes at most one element,
    the slot of its index. *)
Definition slot_body {I A : Type} (slot : I -> Z) (f : I -> list A -> option A)
    (i : I) (s : list A) : list A :=
  match f i s with Some v => wr s (slot i) v | None => s end.

(** The (row, column) pairs two nested loops visit, in order. *)
Definition grid (ys xs : list Z) : list (Z * Z) :=
  flat_map (fun y => map (pair y) xs) ys.

Local Open Scope float_scope.

Local Close Scope float_scope.

(** The alpha byte of pixel number [n], and the alpha channel of a buffer. *)
Definition alpha_of (d : list Z) (n : Z) : option Z := rd d (4 * n + 3).

Definition alphas (d : list Z) : list Z :=
  map (fun n => default 0 (alpha_of d n)) (range 0 (len d / 4)).

(** The erosion passes of [erodeEdges], on the alpha map alone. *)
Definition erodePasses (width height pixels : Z) (alphaMap : list Z) : list Z :=
  for_each (range 0 pixels) (fun pass alphaMap => erodePass width height alphaMap)
    alphaMap.

(** Scenario C of the specification, as it is worded: two erosion passes
    over a 5x5 buffer that is opaque everywhere leave only the centre pixel
    (number 12) opaque. *)
Definition scenario_C_as_stated : Prop :=
  forall d : list Z,
    well_formed (mkImageData 5 5 d) = true ->
    alphas d = replicate 25 255 ->
    alphas (erodeEdges (mkImageData 5 5 d) 2)
    = map (fun n => if n =? 12 then 255 else 0) (range 0 25).

(** A 7x7 alpha channel: an opaque 5x5 square inside a transparent ring,
    the opaque 3x3 square at its centre, and its centre pixel alone. *)
Definition square_in (n lo hi : Z) : list Z :=
  map (fun k => if (lo <=? k / n) && (k / n <? hi) && (lo <=? k mod n) && (k mod n <? hi)
                then 255 else 0) (range 0 (n * n)).

Local Open Scope float_scope.

Local Close Scope float_scope.

(** ** The invariants claimed of the edge filters *)

(** A filter never raises the alpha of a fully transparent pixel. *)
Definition never_raises_zero (F : ImageData -> list Z) : Prop :=
  forall (img : ImageData) (n : Z),
    well_formed img = true ->
    alpha_of (data img) n = Some 0 -> alpha_of (F img) n = Some 0.

(** The eight neighbours of (x, y) all have a nonzero alpha. *)
Definition opaque_around (d : list Z) (w x y : Z) : Prop :=
  forall dx dy, -1 <= dx <= 1 -> -1 <= dy <= 1 -> (dx, dy) <> (0, 0) ->
    exists a, alpha_of d (pixel_index w (x + dx) (y + dy)) = Some a /\ a <> 0.

(** A filter never modifies a pixel whose eight neighbours all have a
    nonzero alpha. *)
Definition protects_interior (F : ImageData -> list Z) : Prop :=
  forall (img : ImageData) (x y : Z),
    well_formed img = true ->
    1 <= x < width img - 1 -> 1 <= y < height img - 1 ->
    opaque_around (data img) (width img) x y ->
    pixel_at (F img) (pixel_index (width img) x y)
    = pixel_at (data img) (pixel_index (width img) x y).

(** The invariant the specification states of all five filters. *)
Definition edge_filters_invariant : Prop :=
  (never_raises_zero smoothEdges /\ protects_interior smoothEdges)
  /\ (never_raises_zero removeLightEdgeArtifacts
      /\ protects_interior removeLightEdgeArtifacts)
  /\ (forall pixels, never_raises_zero (fun img => erodeEdges img pixels)
                     /\ protects_interior (fun img => erodeEdges img pixels))
  /\ (never_raises_zero aggressiveEdgeCleanup
      /\ protects_interior aggressiveEdgeCleanup)
  /\ (forall outlineWidth brightThreshold,
        never_raises_zero
          (fun img => removeLiquidGlassOutline img outlineWidth brightThreshold)
        /\ protects_interior
          (fun img => removeLiquidGlassOutline img outlineWidth brightThreshold)).

(** A 3x3 image: the centre pixel [c] surrounded by eight pixels [p]. *)
Definition pixel_bytes (p : Pixel) : list Z := [pR p; pG p; pB p; pA p].

Definition centre_in (p c : Pixel) : ImageData :=
  mkImageData 3 3
    (concat (map pixel_bytes [p; p; p; p; c; p; p; p; p])).

Local Open Scope float_scope.

Local Close Scope float_scope.

(** ** The pipeline as the specification describes it *)

(** The two ways of matting. *)
Inductive Matting :=
  | ReferenceMode (bgData : ImageData)
  | ColorKey (targetColor : RGB).

(** Reference mode when a reference is supplied, otherwise colour-key on
    the explicit target colour, otherwise colour-key on the mean of the
    corners. *)
Definition matting_mode (imageData : ImageData)
    (referenceBackground : option ImageData) (options : ProcessingOptions)
    : Matting :=
  match referenceBackground with
  | Some bgData => ReferenceMode bgData
  | None =>
      match targetBackgroundColor options with
      | Some (String c s) => ColorKey (hexToRgb (String c s))
      | _ => ColorKey (detectBackgroundColor imageData)
      end
  end.

Definition matte (imageData : ImageData) (mode : Matting) (threshold : JS.num)
    : ImageData :=
  match mode with
  | ReferenceMode bgData =>
      with_data imageData (subtractBackground imageData bgData threshold)
  | ColorKey targetColor =>
      with_data imageData (removeByColor imageData targetColor threshold)
  end.

(** The five refinement filters in their fixed order, each with the
    condition under which it is active. *)
Definition refinement_steps (options : ProcessingOptions)
    : list (bool * (ImageData -> ImageData)) :=
  [ (default true (edgeSmoothing options),
     fun img => with_data img (smoothEdges img));
    (default false (removeLightEdges options),
     fun img => with_data img (removeLightEdgeArtifacts img));
    (0 <? default 0 (erodePixels options),
     fun img => with_data img (erodeEdges img (default 0 (erodePixels options))));
    (default false (edgeCleanup options),
     fun img => with_data img (aggressiveEdgeCleanup img));
    (default false (removeLiquidGlass options),
     fun img => with_data img
       (removeLiquidGlassOutline img (default 2 (glassOutlineWidth options))
          (default 200%float (glassBrightness options)))) ].

(** The active filters, in order. *)
Definition active_steps (options : ProcessingOptions) : list (ImageData -> ImageData) :=
  map snd (List.filter fst (refinement_steps options)).

(** Applying filters one after the other, each to the output of the one
    before. *)
Definition apply_in_order (steps : list (ImageData -> ImageData)) (img : ImageData)
    : ImageData :=
  fold_left (fun img step => step img) steps img.

Local Open Scope float_scope.

Local Close Scope float_scope.

(** ** The Gaussian blur as the specification describes it *)

(** The offsets (ky, kx) of the window of the given radius around (x, y)
    whose pixel lies inside the image, row by row. *)
Definition window_inside (radius width height x y : Z) : list (Z * Z) :=
  List.filter (fun kyx => (0 <=? x + kyx.2) && (x + kyx.2 <? width)
                          && (0 <=? y + kyx.1) && (y + kyx.1 <? height))
    (grid (range (- radius) (radius + 1)) (range (- radius) (radius + 1))).

(** The weighted average of the snapshot around (x, y), for the weight
    [weight kx ky] of the offset (kx, ky): the sum of the alphas times their
    weights over the sum of the weights, both taken over the neighbours that
    lie inside the image, which renormalises the weights at the borders. *)
Definition weighted_average (weight : Z -> Z -> JS.num) (radius width height : Z)
    (snapshot : list Z) (x y : Z) : JS.num :=
  let inside := window_inside radius width height x y in
  (fold_left (fun sum kyx =>
                sum + get snapshot ((y + kyx.1) * width + (x + kyx.2))
                      * weight kyx.2 kyx.1) inside 0
   / fold_left (fun sum kyx => sum + weight kyx.2 kyx.1) inside 0)%float.

(** The Gaussian weight of the offset (x, y) for [sigma = radius / 2], and
    the sum of the weights of the whole window. *)
Definition gaussian_weight (Math_exp : JS.num -> JS.num) (radius x y : Z) : JS.num :=
  let sigma := (JS.of_int radius / 2)%float in
  Math_exp (- JS.of_int (x * x + y * y) / (2 * sigma * sigma))%float.

Definition gaussian_total (Math_exp : JS.num -> JS.num) (radius : Z) : JS.num :=
  fold_left (fun sum yx => (sum + gaussian_weight Math_exp radius yx.2 yx.1)%float)
    (grid (range (- radius) (radius + 1)) (range (- radius) (radius + 1))) 0%float.

(** The weight of the offset (x, y) in the normalised Gaussian kernel. *)
Definition normalised_gaussian (Math_exp : JS.num -> JS.num) (radius x y : Z)
    : JS.num :=
  (gaussian_weight Math_exp radius x y / gaussian_total Math_exp radius)%float.

Local Open Scope float_scope.

Local Close Scope float_scope.

(** ** The batch as the specification describes it *)

(** What becomes of one entry of the batch, from that entry alone: an
    entry that is pending or in error is processed and ends up done, or in
    error with the message of what was thrown, or is left processing when a
    promise awaited for it is never settled; any other entry is left as it
    is. *)
Definition outcome_of {File Blob : Type} (removeBackground_of : File -> Settled Blob)
    (createPreview : Blob -> Settled string) (file : ProcessedFile File Blob)
    : ProcessedFile File Blob :=
  match status file with
  | Pending | Error =>
      match removeBackground_of (original file) with
      | Resolved blob =>
          match createPreview blob with
          | Resolved url =>
              mkProcessedFile (original file) (Some blob) (Some url) Done (error file)
          | Rejected e =>
              mkProcessedFile (original file) (processed file) (preview file) Error
                              (Some (message_of e))
          | Unsettled =>
              mkProcessedFile (original file) (processed file) (preview file)
                              Processing (error file)
          end
      | Rejected e =>
          mkProcessedFile (original file) (processed file) (preview file) Error
                          (Some (message_of e))
      | Unsettled =>
          mkProcessedFile (original file) (processed file) (preview file)
                          Processing (error file)
      end
  | _ => file
  end.

(** The entry is one the batch processes, and a promise awaited for it is
    never settled. *)
Definition stalls {File Blob : Type} (removeBackground_of : File -> Settled Blob)
    (createPreview : Blob -> Settled string) (file : ProcessedFile File Blob) : bool :=
  match status file with
  | Pending | Error =>
      match removeBackground_of (original file) with
      | Resolved blob =>
          match createPreview blob with
          | Unsettled => true
          | _ => false
          end
      | Rejected _ => false
      | Unsettled => true
      end
  | _ => false
  end.

(** The list a batch leaves: every entry gets its outcome, up to and
    including the first one that stalls; the entries after it are not
    reached. *)
Fixpoint batch_state {File Blob : Type} (removeBackground_of : File -> Settled Blob)
    (createPreview : Blob -> Settled string) (files : list (ProcessedFile File Blob))
    : list (ProcessedFile File Blob) :=
  match files with
  | [] => []
  | file :: rest =>
      outcome_of removeBackground_of createPreview file
      :: (if stalls removeBackground_of createPreview file then rest
          else batch_state removeBackground_of createPreview rest)
  end.

Local Open Scope float_scope.

(** ** Colour-key matting as the specification describes it *)

(** The mean absolute channel difference of a pixel from the target. *)
Definition totalDiff (p : Pixel) (target : RGB) : JS.num :=
  (JS.abs (JS.of_int (pR p) - r target)
   + JS.abs (JS.of_int (pG p) - g target)
   + JS.abs (JS.of_int (pB p) - b target)) / 3.

(** The byte [removeByColor] stores as the alpha of the pixel at offset
    [i]. *)
Definition colorKey_alpha (targetColor : RGB) (threshold : JS.num)
    (i : Z) (d : list Z) : option Z :=
  let total := (JS.abs (get d i - r targetColor)
                + JS.abs (get d (i + 1) - g targetColor)
                + JS.abs (get d (i + 2) - b targetColor)) / 3 in
  if total <? threshold then Some (JS.toUint8Clamp 0)
  else Some (JS.toUint8Clamp
               (JS.min (get d (i + 3)) (JS.min 255 ((total / threshold) * 255)))).

(** ** The threshold of reference-mode matting *)

(** The number of fully transparent pixels of a buffer. *)
Definition transparent_count (d : list Z) : nat :=
  length (List.filter (fun a => (a =? 0)%Z) (alphas d)).

(** The fade factor of a pixel of the transition band. *)
Definition fade_of (maxDiff effectiveThreshold : JS.num) : JS.num :=
  (maxDiff - effectiveThreshold) / (effectiveThreshold * 0.5).

(** A fade factor is zero or a normal number between [2^-100] and 1. *)
Definition fade_in_range (f : JS.num) : bool :=
  (f =? 0) || ((0x1p-100 <=? f) && (f <=? 1)).

(** A positive normal number with the exponent of an integer from 1 to
    255. *)
Definition positive_normal (x : JS.num) : bool :=
  match Prim2SF x with
  | S754_finite false m e =>
      ((Z.pos (digits2_pos m) =? 53) && (-52 <=? e) && (e <=? -45))%Z
  | _ => false
  end.

(** What one step of the threshold, from the effective threshold [e1] to
    [e2], does to a pixel at colour distance [M]: a removed pixel stays
    removed; a pixel of the band is removed, or stays in the band with a
    fade factor that does not grow; a pixel that enters the band has a fade
    factor in range. *)
Definition step_ok (e1 e2 M : JS.num) : bool :=
  if M <? e1 then M <? e2
  else if M <? e1 * 1.5 then
    (M <? e2)
    || ((M <? e2 * 1.5) && fade_in_range (fade_of M e1)
        && fade_in_range (fade_of M e2) && (fade_of M e2 <=? fade_of M e1))
  else (M <? e2) || negb (M <? e2 * 1.5) || fade_in_range (fade_of M e2).

(** [P x && P (x + 1) && ...], for [n] numbers from [x] on. *)
Fixpoint all_from (n : nat) (x : JS.num) (P : JS.num -> bool) : bool :=
  match n with
  | O => true
  | S n' => P x && all_from n' (x + 1) P
  end.

Local Close Scope float_scope.

(** ** Definitions for further properties of the code *)

(** ** What the pipeline keeps *)

(** Buffer [d'] has the size of [d] and the same bytes outside the alpha
    channel. *)
Definition keeps_colours (d d' : list Z) : Prop :=
  len d' = len d /\ forall j, j mod 4 <> 3 -> rd d' j = rd d j.

(** No pixel of the buffer is fully transparent. *)
Definition no_transparent_pixel (d : list Z) : bool :=
  forallb (fun a => negb (a =? 0)) (alphas d).

(** The alpha of the pixel at column [x] of row [y] (0 outside the
    buffer). *)
Definition alpha_xy (d : list Z) (w x y : Z) : Z :=
  default 0 (alpha_of d (pixel_index w x y)).

(** The sum of the alphas of the 3x3 block around (x, y). *)
Definition alpha_sum3x3 (d : list Z) (w x y : Z) : Z :=
  alpha_xy d w (x - 1) (y - 1) + alpha_xy d w x (y - 1) + alpha_xy d w (x + 1) (y - 1)
  + alpha_xy d w (x - 1) y + alpha_xy d w x y + alpha_xy d w (x + 1) y
  + alpha_xy d w (x - 1) (y + 1) + alpha_xy d w x (y + 1) + alpha_xy d w (x + 1) (y + 1).

(** A pixel off the border of a [w] x [h] image. *)
Definition interior (w h x y : Z) : bool :=
  (1 <=? x) && (x <? w - 1) && (1 <=? y) && (y <? h - 1).

(** The mean of four bytes, rounded half up. *)
Definition rounded_mean4 (a b c d : Z) : Z := (2 * (a + b + c + d) + 4) / 8.

(** The number [of_int a] is the positive normal number whose mantissa is
    [a] scaled to 53 binary digits. *)
Definition byte_mantissa (a : Z) : bool :=
  match Prim2SF (JS.of_int a) with
  | S754_finite false m e =>
      (Z.pos (digits2_pos m) =? 53) && (-52 <=? e) && (e <=? -45)
      && (Z.pos m =? a * 2 ^ (- e))
  | _ => false
  end.

(** In the transition band of an effective threshold [e], the fade factor
    of a pixel at colour distance [M] is in range. *)
Definition band_ok (e M : JS.num) : bool :=
  if (M <? e)%float then true
  else if (M <? e * 1.5)%float then fade_in_range (fade_of M e)
  else true.

(** No alpha of [d'] is above the alpha the pixel has in [d]. *)
Definition never_raises (d d' : list Z) : Prop :=
  forall n a, alpha_of d n = Some a ->
    exists a', alpha_of d' n = Some a' /\ 0 <= a' <= a.

Local Open Scope float_scope.

Local Close Scope float_scope.

(** ** Edge lab: morphology *)

Inductive MorphOp := Dilate | Erode.

Local Open Scope float_scope.

(** [morphOp(imageData, radius, op)] of [EdgeLab.tsx]: every alpha becomes
    the largest ([Dilate]) or smallest ([Erode]) alpha of the square window
    of the given radius around the pixel, clipped to the image.  It reads
    the image and writes a copy. *)
Definition morphOp (imageData : ImageData) (radius : Z) (op : MorphOp) : ImageData :=
  let data := data imageData in
  let width := width imageData in
  let height := height imageData in
  let result := data in
  let result :=
    for_each (range 0 height) (fun y result =>
      for_each (range 0 width) (fun x result =>
        let idx := ((y * width + x) * 4)%Z in
        let extremeAlpha := match op with Dilate => 0 | Erode => 255 end in
        let extremeAlpha :=
          for_each (range (- radius) (radius + 1)) (fun ky extremeAlpha =>
            for_each (range (- radius) (radius + 1)) (fun kx extremeAlpha =>
              let nx := (x + kx)%Z in
              let ny := (y + ky)%Z in
              if ((0 <=? nx) && (nx <? width) && (0 <=? ny) && (ny <? height))%Z then
                let nidx := ((ny * width + nx) * 4)%Z in
                let alpha := get data (nidx + 3) in
                match op with
                | Dilate => JS.max extremeAlpha alpha
                | Erode => JS.min extremeAlpha alpha
                end
              else extremeAlpha) extremeAlpha) extremeAlpha in
        set result (idx + 3) extremeAlpha) result) result in
  mkImageData width height result.

Local Close Scope float_scope.

(** [morphologicalMethod], after the image is read: a dilation, then an
    erosion, each skipped when its radius is not positive. *)
Definition morphologicalMethod (imageData : ImageData) (dilateR erodeR : Z)
    : ImageData :=
  let imageData := if 0 <? dilateR then morphOp imageData dilateR Dilate else imageData in
  let imageData := if 0 <? erodeR then morphOp imageData erodeR Erode else imageData in
  imageData.

(** The pixel (x', y') of a [w] x [h] image lies in the window of radius
    [r] around (x, y). *)
Definition in_window (w h r x y x' y' : Z) : Prop :=
  0 <= x' < w /\ 0 <= y' < h /\ x - r <= x' <= x + r /\ y - r <= y' <= y + r.

(** [e] is the extreme alpha of the window of radius [r] around (x, y). *)
Definition window_extreme (op : MorphOp) (d : list Z) (w h r x y e : Z) : Prop :=
  (forall x' y', in_window w h r x y x' y' ->
     match op with
     | Dilate => alpha_xy d w x' y' <= e
     | Erode => e <= alpha_xy d w x' y'
     end)
  /\ exists x' y', in_window w h r x y x' y' /\ alpha_xy d w x' y' = e.


(** ** Edge lab: supersampling *)

Local Open Scope float_scope.

(** The loop of [supersamplingMethod] over the enlarged image, between the
    canvas reads it from and the canvas it is written back to: it pushes
    every partial alpha away from the middle. *)
Definition supersamplingContrast_body (i : Z) (data : list Z) : list Z :=
  let threshold := 128 in
  let alpha := get data (i + 3) in
  if (0 <? alpha) && (alpha <? 255) then
    let newAlpha :=
      if alpha <? threshold then JS.floor (alpha * 0.5)
      else JS.floor (alpha + (255 - alpha) * 0.5) in
    set data (i + 3) newAlpha
  else data.

Definition supersamplingContrast (data : list Z) : list Z :=
  for_each (offsets4 (len data)) supersamplingContrast_body data.

(** The byte that loop stores for the pixel at offset [i], if any. *)
Definition contrast_alpha (i : Z) (d : list Z) : option Z :=
  let alpha := get d (i + 3) in
  if (0 <? alpha) && (alpha <? 255) then
    Some (JS.toUint8Clamp
            (if alpha <? 128 then JS.floor (alpha * 0.5)
             else JS.floor (alpha + (255 - alpha) * 0.5)))
  else None.

Local Close Scope float_scope.

(** The same in integers. *)
Definition contrast_of (a : Z) : Z :=
  if (0 <? a) && (a <? 128) then a / 2
  else if (128 <=? a) && (a <? 255) then (a + 255) / 2
  else a.

Local Open Scope float_scope.
Local Close Scope float_scope.


(** ** The batch driver: the file list *)

(** [s.startsWith(prefix)] *)
Definition startsWith (s prefix : string) : bool := String.prefix prefix s.

Section AddFiles.

Variables File Blob : Type.

(** [file.name] and [file.type] *)
Variables (name type : File -> string).

(** The entry made for a file that is added or added again. *)
Definition pending_entry (file : File) : ProcessedFile File Blob :=
  mkProcessedFile file None None Pending None.

(** The updater [addFiles] passes to [setFiles]: a file whose name is
    already listed replaces the entry of that name in place, any other file
    is appended; files that are not images are skipped. *)
Definition addFiles (newFiles : list File) (prev : list (ProcessedFile File Blob))
    : list (ProcessedFile File Blob) :=
  let existingByName : gmap string nat :=
    foldl (fun m '(idx, f) => <[name (original f) := idx]> m) ∅
          (imap (fun idx f => (idx, f)) prev) in
  let updated := prev in
  let '(updated, toAdd) :=
    foldl (fun '(updated, toAdd) file =>
             if negb (startsWith (type file) "image/") then (updated, toAdd)
             else
               match existingByName !! name file with
               | Some existingIdx =>
                   (<[existingIdx := pending_entry file]> updated, toAdd)
               | None => (updated, toAdd ++ [pending_entry file])
               end)
          (updated, []) newFiles in
  updated ++ toAdd.

(** The names listed, in order, and the names of the image files among the
    new ones. *)
Definition names (files : list (ProcessedFile File Blob)) : list string :=
  map (fun f => name (original f)) files.

Definition image_names (newFiles : list File) : list string :=
  map name (List.filter (fun file => startsWith (type file) "image/") newFiles).

End AddFiles.

Arguments pending_entry {File Blob} _.
Arguments addFiles {File Blob} _ _ _ _.
Arguments names {File Blob} _ _.
Arguments image_names {File} _ _ _.

(** ** The batch driver: counters and downloads *)

Section Counters.

Context {File Blob : Type}.

(** [f.status === s] *)
Definition status_is (s : Status) (f : ProcessedFile File Blob) : bool :=
  match status f, s with
  | Pending, Pending | Processing, Processing | Done, Done | Error, Error => true
  | _, _ => false
  end.

(** The counters the component shows. *)
Definition processedCount (files : list (ProcessedFile File Blob)) : nat :=
  length (List.filter (status_is Done) files).

Definition errorCount (files : list (ProcessedFile File Blob)) : nat :=
  length (List.filter (status_is Error) files).

Definition pendingCount (files : list (ProcessedFile File Blob)) : nat :=
  length (List.filter (status_is Pending) files).

(** An entry carries a result exactly when it is done. *)
Definition result_iff_done (f : ProcessedFile File Blob) : bool :=
  Bool.eqb (match processed f with Some _ => true | None => false end)
           (status_is Done f).

End Counters.

(** [s.split(sep)] for a separator of one character: the pieces between
    the separators, at least one. *)
Fixpoint split (s : string) (sep : ascii) : list string :=
  match s with
  | EmptyString => [EmptyString]
  | String c rest =>
      if Ascii.eqb c sep then EmptyString :: split rest sep
      else match split rest sep with
           | piece :: pieces => String c piece :: pieces
           | [] => [String c EmptyString]
           end
  end.

(** A string matches [[^/.]*]. *)
Fixpoint no_slash_no_dot (s : string) : bool :=
  match s with
  | EmptyString => true
  | String c rest =>
      negb (Ascii.eqb c "/") && negb (Ascii.eqb c ".") && no_slash_no_dot rest
  end.

(** [s.replace(/\.[^/.]+$/, '')]: the leftmost dot that is followed, up to
    the end of the string, by one or more characters other than a slash and a
    dot is cut off with what follows it; without such a dot the string is
    kept. *)
Fixpoint strip_extension (s : string) : string :=
  match s with
  | EmptyString => EmptyString
  | String c rest =>
      if Ascii.eqb c "." && negb (String.eqb rest EmptyString) && no_slash_no_dot rest
      then EmptyString
      else String c (strip_extension rest)
  end.

(** The name a result is saved under, by [downloadAllAsZip] and by
    [downloadSingle]. *)
Definition download_name (name : string) : string :=
  let ext := match last (split name ".") with
             | Some (String c e) => String c e
             | _ => "png"%string
             end in
  let baseName := strip_extension name in
  (baseName ++ "_no_bg." ++ ext)%string.

(** The loop of [downloadAllAsZip]: the calls of [zip.file], in order, and
    [count]. *)
Definition downloadAllAsZip_loop {File Blob : Type} (name : File -> string)
    (files : list (ProcessedFile File Blob)) : list (string * Blob) * nat :=
  foldl (fun '(zip, count) file =>
           match processed file with
           | Some blob => (zip ++ [(download_name (name (original file)), blob)], S count)
           | None => (zip, count)
           end)
        ([], 0%nat) files.

Local Open Scope float_scope.


(** ** Edge lab: subpixel smoothing *)

Local Open Scope float_scope.

(** [subpixelMethod], between [getImageData] and the returned [ImageData].
    The copy [alpha] of the alpha channel is a [Float32Array]: it holds
    bytes, which it stores exactly.  The first loop mixes every partial
    alpha off the border with the mean of its four neighbours in the copy;
    the second, run unless [sharpness] is 100, sharpens in place. *)
Definition subpixelMethod (imageData : ImageData) (smooth sharpness : JS.num)
    : ImageData :=
  let data := data imageData in
  let width := width imageData in
  let height := height imageData in
  let alpha :=
    for_each (range 0 (width * height))
      (fun i alpha => wr alpha i (get data (i * 4 + 3)))
      (replicate (Z.to_nat (width * height)) 0) in
  let data :=
    for_each (range 1 (height - 1)) (fun y data =>
      for_each (range 1 (width - 1)) (fun x data =>
        let idx := (y * width + x)%Z in
        let a := nget alpha idx in
        if (10 <? a) && (a <? 245) then
          let neighbors := [ nget alpha (idx - 1); nget alpha (idx + 1);
                             nget alpha (idx - width); nget alpha (idx + width) ] in
          let avg := fold_left (fun s v => s + v) neighbors 0 / 4 in
          let newAlpha := a * (1 - smooth) + avg * smooth in
          set data (idx * 4 + 3) (JS.round newAlpha)
        else data) data) data in
  let data :=
    if negb (sharpness =? 100) then
      let sharpenFactor := (sharpness - 100) / 100 in
      for_each (range 1 (height - 1)) (fun y data =>
        for_each (range 1 (width - 1)) (fun x data =>
          let idx := ((y * width + x) * 4)%Z in
          let a := get data (idx + 3) in
          if (10 <? a) && (a <? 245) then
            let '(sum, count) :=
              for_each (range (-1) 2) (fun dy acc =>
                for_each (range (-1) 2) (fun dx '(sum, count) =>
                  if ((dx =? 0) && (dy =? 0))%Z then (sum, count)
                  else
                    let nidx := (((y + dy) * width + (x + dx)) * 4)%Z in
                    (sum + get data (nidx + 3), (count + 1)%Z))
                  acc)
                (0, 0%Z) in
            let blurred := sum / JS.of_int count in
            let diff := a - blurred in
            let sharpened := a + diff * sharpenFactor in
            set data (idx + 3) (JS.max 0 (JS.min 255 (JS.round sharpened)))
          else data) data) data
    else data in
  with_data imageData data.

Local Close Scope float_scope.

(** The alpha bytes [subpixelMethod] may write: those of the pixels off the
    border whose alpha is strictly between 10 and 245. *)
Definition partial_alpha_slot (d : list Z) (w h : Z) (j : Z) : Prop :=
  exists x y, interior w h x y = true /\ j = (y * w + x) * 4 + 3
              /\ 10 < alpha_xy d w x y < 245.

(** What the loops of [subpixelMethod] keep of the buffer of [img]: its
    size, and every byte that is not the alpha of such a pixel. *)
Definition subpixel_kept (img : ImageData) (s : list Z) : Prop :=
  len s = len (data img)
  /\ forall j, rd s j = rd (data img) j
               \/ partial_alpha_slot (data img) (width img) (height img) j.

Local Open Scope float_scope.

(** ** Edge lab: blur and sharpen *)

Section BlurSharpen.

Variable Math_exp : JS.num -> JS.num.

Local Open Scope float_scope.

(** [gaussianKernel(radius)], which repeats [generateGaussianKernel]. *)
Definition gaussianKernel (radius : Z) : list JS.num :=
  let size := (radius * 2 + 1)%Z in
  let kernel := replicate (Z.to_nat (size * size)) nan in
  let sigma := JS.of_int radius / 2 in
  let '(kernel, sum) :=
    for_each (range (- radius) (radius + 1)) (fun y acc =>
      for_each (range (- radius) (radius + 1)) (fun x '(kernel, sum) =>
        let value := Math_exp (- JS.of_int (x * x + y * y) / (2 * sigma * sigma)) in
        (wr kernel ((y + radius) * size + (x + radius)) value, sum + value))
        acc)
      (kernel, 0) in
  map (fun v => v / sum) kernel.

(** [blurEdgesPass]: the mask [isEdge] is the one [outerEdge] computes (the
    source writes the same loops out again); the pixels of the mask that
    are [radius] away from the border take the rounded weighted mean of the
    alphas around them, and the new alphas are copied back. *)
Definition blurEdgesPass (imageData : ImageData) (radius : Z) : ImageData :=
  let data := data imageData in
  let width := width imageData in
  let height := height imageData in
  let isEdge := outerEdge data width height in
  let kernel := gaussianKernel radius in
  let kernelSize := (radius * 2 + 1)%Z in
  let newAlpha :=
    for_each (range 0 (width * height))
      (fun i newAlpha => set newAlpha i (get data (i * 4 + 3)))
      (zeros (width * height)) in
  let newAlpha :=
    for_each (range radius (height - radius)) (fun y newAlpha =>
      for_each (range radius (width - radius)) (fun x newAlpha =>
        let idx := (y * width + x)%Z in
        if get isEdge idx =? 1 then
          let '(sum, weightSum) :=
            for_each (range (- radius) (radius + 1)) (fun ky acc =>
              for_each (range (- radius) (radius + 1)) (fun kx '(sum, weightSum) =>
                let nidx := ((y + ky) * width + (x + kx))%Z in
                let weight := nget kernel ((ky + radius) * kernelSize + (kx + radius)) in
                (sum + get data (nidx * 4 + 3) * weight, weightSum + weight))
                acc)
              (0, 0) in
          set newAlpha idx (JS.round (sum / weightSum))
        else newAlpha) newAlpha) newAlpha in
  let data :=
    for_each (range 0 (width * height))
      (fun i data => set data (i * 4 + 3) (get newAlpha i)) data in
  with_data imageData data.

(** The mask of [sharpenEdgesPass]: the partial pixels off the border with
    a neighbour more than 20 below and a neighbour more than 20 above their
    alpha. *)
Definition sharpenMask (data : list Z) (width height : Z) : list Z :=
  for_each (range 1 (height - 1)) (fun y isEdge =>
    for_each (range 1 (width - 1)) (fun x isEdge =>
      let idx := (y * width + x)%Z in
      let pixelIdx := (idx * 4)%Z in
      let alpha := get data (pixelIdx + 3) in
      if (0 <? alpha) && (alpha <? 255) then
        let '(hasMoreTransparent, hasMoreOpaque) :=
          for_each (range (-1) 2) (fun dy acc =>
            for_each (range (-1) 2) (fun dx '(hasMoreTransparent, hasMoreOpaque) =>
              if ((dx =? 0) && (dy =? 0))%Z then (hasMoreTransparent, hasMoreOpaque)
              else
                let nidx := (((y + dy) * width + (x + dx)) * 4)%Z in
                let nalpha := get data (nidx + 3) in
                ((if nalpha <? alpha - 20 then true else hasMoreTransparent),
                 (if alpha + 20 <? nalpha then true else hasMoreOpaque)))
              acc)
            (false, false) in
        if hasMoreTransparent && hasMoreOpaque then wr isEdge idx 1%Z else isEdge
      else isEdge) isEdge)
    (zeros (width * height)).

(** [sharpenEdgesPass]: every pixel of the mask whose alpha differs from
    the mean of its eight neighbours by more than [threshold] is pushed away
    from that mean, in place. *)
Definition sharpenEdgesPass (imageData : ImageData) (strength threshold : JS.num)
    : ImageData :=
  let data := data imageData in
  let width := width imageData in
  let height := height imageData in
  let isEdge := sharpenMask data width height in
  let radius := 1%Z in
  let data :=
    for_each (range 1 (height - 1)) (fun y data =>
      for_each (range 1 (width - 1)) (fun x data =>
        let idx := (y * width + x)%Z in
        if negb (get isEdge idx =? 1) then data
        else
          let pixelIdx := (idx * 4)%Z in
          let origAlpha := get data (pixelIdx + 3) in
          let '(sum, count) :=
            for_each (range (- radius) (radius + 1)) (fun dy acc =>
              for_each (range (- radius) (radius + 1)) (fun dx '(sum, count) =>
                if ((dx =? 0) && (dy =? 0))%Z then (sum, count)
                else
                  let nidx := (((y + dy) * width + (x + dx)) * 4)%Z in
                  (sum + get data (nidx + 3), (count + 1)%Z))
                acc)
              (0, 0%Z) in
          let blurredAlpha := sum / JS.of_int count in
          let diff := origAlpha - blurredAlpha in
          if threshold <? JS.abs diff then
            let sharpened := origAlpha + diff * (strength / 100) in
            set data (pixelIdx + 3) (JS.max 0 (JS.min 255 sharpened))
          else data) data) data in
  with_data imageData data.

(** [blurSharpenMethod], after the image is read. *)
Definition blurSharpenMethod (imageData : ImageData) (blurRadius : Z)
    (sharpenStrength threshold : JS.num) : ImageData :=
  let imageData := blurEdgesPass imageData blurRadius in
  let imageData := sharpenEdgesPass imageData sharpenStrength threshold in
  imageData.

End BlurSharpen.

Local Close Scope float_scope.

(** One of the eight pixels around (x, y) is fully transparent. *)
Definition touches_transparency (d : list Z) (w x y : Z) : Prop :=
  exists dx dy, -1 <= dx <= 1 /\ -1 <= dy <= 1 /\ (dx, dy) <> (0, 0)
                /\ alpha_of d (pixel_index w (x + dx) (y + dy)) = Some 0.

(** What a pass leaves of a well-formed image: a well-formed image of the
    same size and colours, whose alphas are those of the image wherever
    [touched] does not hold. *)
Definition pass_keeps (touched : Z -> Z -> Prop) (img img' : ImageData) : Prop :=
  well_formed img' = true /\ width img' = width img /\ height img' = height img
  /\ keeps_colours (data img) (data img')
  /\ forall x y, 0 <= x < width img -> 0 <= y < height img ->
       alpha_xy (data img') (width img) x y = alpha_xy (data img) (width img) x y
       \/ touched x y.

Local Open Scope float_scope.
Local Close Scope float_scope.

(** ** Reading and writing typed arrays *)

Lemma rd_wr_eq {A : Type} (a : list A) (i : Z) (v : A) :
  0 <= i < len a -> rd (wr a i v) i = Some v.
Proof.
  unfold rd, wr, len. intros H.
  destruct (Z.ltb_spec i 0); [lia|].
  apply list_lookup_insert_eq. lia.
Qed.

Lemma rd_wr_ne {A : Type} (a : list A) (i j : Z) (v : A) :
  i <> j -> rd (wr a i v) j = rd a j.
Proof.
  unfold rd, wr. intros H.
  destruct (Z.ltb_spec j 0); [done|].
  destruct (Z.ltb_spec i 0); [done|].
  apply list_lookup_insert_ne. lia.
Qed.

Lemma len_wr {A : Type} (a : list A) (i : Z) (v : A) : len (wr a i v) = len a.
Proof.
  unfold wr, len. destruct (i <? 0); [done|]. by rewrite length_insert.
Qed.

Lemma rd_Some_lt {A : Type} (a : list A) (i : Z) (v : A) : rd a i = Some v -> 0 <= i < len a.
Proof.
  unfold rd, len. destruct (Z.ltb_spec i 0); [done|].
  intros H1%lookup_lt_Some. lia.
Qed.

Lemma rd_lt_Some {A : Type} (a : list A) (i : Z) : 0 <= i < len a -> is_Some (rd a i).
Proof.
  unfold rd, len. intros H. destruct (Z.ltb_spec i 0); [lia|].
  apply lookup_lt_is_Some. lia.
Qed.

Lemma rd_None_ge {A : Type} (a : list A) (i : Z) : rd a i = None -> i < 0 \/ len a <= i.
Proof.
  unfold rd, len. destruct (Z.ltb_spec i 0); [lia|].
  intros H1%lookup_ge_None. lia.
Qed.

Lemma wr_out {A : Type} (a : list A) (i : Z) (v : A) : rd a i = None -> wr a i v = a.
Proof.
  intros H. unfold wr. destruct (Z.ltb_spec i 0); [done|].
  apply list_insert_ge. apply rd_None_ge in H. unfold len in H. lia.
Qed.

Lemma rd_wr {A : Type} (a : list A) (i j : Z) (v : A) :
  rd (wr a i v) j = if decide (i = j) then (match rd a i with Some _ => Some v | None => None end) else rd a j.
Proof.
  case_decide as E.
  - subst j. destruct (rd a i) eqn:Hr.
    + apply rd_wr_eq. by eapply rd_Some_lt.
    + by rewrite wr_out.
  - by apply rd_wr_ne.
Qed.

Lemma get_ext (a a' : list Z) (i : Z) : rd a i = rd a' i -> get a i = get a' i.
Proof. unfold get. by intros ->. Qed.

Lemma list_eq_rd {A : Type} (a a' : list A) : (forall i, rd a i = rd a' i) -> a = a'.
Proof.
  intros H. apply list_eq. intros n. specialize (H (Z.of_nat n)).
  unfold rd in H. destruct (Z.ltb_spec (Z.of_nat n) 0); [lia|].
  by rewrite Nat2Z.id in H.
Qed.

(** ** Loops over pixel offsets *)

Lemma range_0_S (m : nat) :
  range 0 (Z.of_nat (S m)) = range 0 (Z.of_nat m) ++ [Z.of_nat m].
Proof.
  unfold range. rewrite !Z.sub_0_r, !Nat2Z.id, seq_S, map_app. done.
Qed.

Lemma elem_of_range (lo hi v : Z) : v ∈ range lo hi <-> lo <= v < hi.
Proof.
  unfold range. rewrite list_elem_of_fmap. split.
  - intros (k & -> & Hk). apply elem_of_seq in Hk. lia.
  - intros H. exists (Z.to_nat (v - lo)). split; [lia|].
    apply elem_of_seq. lia.
Qed.

Lemma for_each_app {S : Type} (l1 l2 : list Z) (body : Z -> S -> S) (s : S) :
  for_each (l1 ++ l2) body s = for_each l2 body (for_each l1 body s).
Proof. unfold for_each. apply fold_left_app. Qed.

(** A loop over pixel offsets whose body writes at most the alpha byte of
    its own pixel, computed from the four bytes of that pixel. *)
Section AlphaLoop.

Variable f : Z -> list Z -> option Z.

Hypothesis f_local : forall i d d',
  (forall j, i <= j <= i + 3 -> rd d j = rd d' j) -> f i d = f i d'.

Lemma alpha_loop_prefix (m : nat) (d : list Z) (j : Z) :
  rd (for_each (map (fun k => 4 * k) (range 0 (Z.of_nat m))) (alpha_body f) d) j
  = alpha_at f d (Z.of_nat m) j.
Proof.
  revert j. induction m as [|m IH]; intros j.
  - unfold alpha_at. simpl. case_decide; [lia|done].
  - rewrite range_0_S, map_app, for_each_app.
    set (d' := for_each _ _ d) in *.
    change (rd (alpha_body f (4 * Z.of_nat m) d') j = alpha_at f d (Z.of_nat (S m)) j).
    assert (Hf : f (4 * Z.of_nat m) d' = f (4 * Z.of_nat m) d).
    { apply f_local. intros j' Hj'. rewrite IH. unfold alpha_at.
      case_decide as Hc; [|done]. destruct Hc as [Hc1 Hc2].
      apply Z.mod_divide in Hc2; [|lia]. destruct Hc2 as [q Hq]. lia. }
    unfold alpha_body. rewrite Hf.
    unfold alpha_at.
    destruct (decide (j = 4 * Z.of_nat m + 3)) as [->|Hne].
    + replace (4 * Z.of_nat m + 3 - 3) with (4 * Z.of_nat m) by lia.
      assert (Hold : rd d' (4 * Z.of_nat m + 3) = rd d (4 * Z.of_nat m + 3)).
      { rewrite IH. unfold alpha_at. case_decide as Hc; [lia|done]. }
      rewrite decide_True.
      2:{ split; [lia|]. rewrite Z.mul_comm. apply Z_mod_mult. }
      destruct (f (4 * Z.of_nat m) d) as [v|]; [|done].
      rewrite rd_wr, decide_True by done. by rewrite Hold.
    + assert (Hstep : rd (match f (4 * Z.of_nat m) d with
                          | Some v => wr d' (4 * Z.of_nat m + 3) v
                          | None => d' end) j = rd d' j).
      { destruct (f (4 * Z.of_nat m) d); [|done]. apply rd_wr_ne. lia. }
      rewrite Hstep, IH. unfold alpha_at.
      case_decide as H1; case_decide as H2; try done.
      * exfalso. apply H2. split; [lia|tauto].
      * exfalso. destruct H2 as [H2 H3]. apply H1. split; [|done].
        apply Z.mod_divide in H3; [|lia]. destruct H3 as [q Hq]. lia.
Qed.

Lemma alpha_loop_spec (d : list Z) (j : Z) :
  rd (for_each (offsets4 (len d)) (alpha_body f) d) j
  = match f (j - 3) d with
    | Some v => if decide ((j - 3) mod 4 = 0) then
                  match rd d j with Some _ => Some v | None => None end
                else rd d j
    | None => rd d j
    end.
Proof.
  unfold offsets4.
  assert (Hm : 0 <= (len d + 3) / 4) by (apply Z.div_pos; unfold len; lia).
  rewrite <- (Z2Nat.id _ Hm), alpha_loop_prefix, Z2Nat.id by done.
  unfold alpha_at.
  assert (Hdiv : 4 * ((len d + 3) / 4) <= len d + 3 < 4 * ((len d + 3) / 4) + 4).
  { pose proof (Z.div_mod (len d + 3) 4 ltac:(lia)).
    pose proof (Z.mod_pos_bound (len d + 3) 4 ltac:(lia)). lia. }
  destruct (decide (0 <= j - 3 < 4 * ((len d + 3) / 4) /\ (j - 3) mod 4 = 0))
    as [Hc|Hc].
  - destruct Hc as [Hc1 Hc2]. destruct (f (j - 3) d) as [v|]; [|done].
    by rewrite decide_True.
  - destruct (f (j - 3) d) as [v|]; [|done].
    destruct (decide ((j - 3) mod 4 = 0)) as [Hmod|Hmod]; [|done].
    destruct (rd d j) as [w|] eqn:Hr; [|done].
    apply rd_Some_lt in Hr. exfalso. apply Hc. split; [|done].
    apply Z.mod_divide in Hmod; [|lia]. destruct Hmod as [q Hq]. lia.
Qed.

End AlphaLoop.

Lemma for_each_ext {S : Type} (l : list Z) (body body' : Z -> S -> S) (s : S) :
  (forall i s, body i s = body' i s) -> for_each l body s = for_each l body' s.
Proof.
  intros H. revert s. induction l as [|i l IH]; intros s; [done|].
  unfold for_each in *. simpl. rewrite H. apply IH.
Qed.

(** Checking a property of every integer of an interval by evaluation. *)
Lemma forallb_range (P : Z -> bool) (lo hi : Z) :
  forallb P (range lo hi) = true -> forall z, lo <= z < hi -> P z = true.
Proof.
  intros H z Hz. rewrite forallb_forall in H. apply H.
  apply list_elem_of_In, elem_of_range. done.
Qed.

(** ** Facts about numbers *)

Lemma of_int_byte_pos (z : Z) : 0 < z <= 255 -> (0 <? JS.of_int z)%float = true.
Proof.
  intros H.
  apply (forallb_range (fun z => (0 <? JS.of_int z)%float) 1 256); [|lia].
  vm_compute. reflexivity.
Qed.

Lemma of_int_byte_store (z : Z) : 0 <= z <= 255 -> JS.toUint8Clamp (JS.of_int z) = z.
Proof.
  intros H.
  apply Z.eqb_eq.
  apply (forallb_range (fun z => JS.toUint8Clamp (JS.of_int z) =? z) 0 256); [|lia].
  vm_compute. reflexivity.
Qed.

Lemma bytes_rd (a : list Z) (i v : Z) : bytes a = true -> rd a i = Some v -> 0 <= v <= 255.
Proof.
  unfold bytes, rd. intros H Hr. destruct (i <? 0); [done|].
  rewrite forallb_forall in H.
  apply list_elem_of_lookup_2, list_elem_of_In, H in Hr. lia.
Qed.

Lemma get_of_rd (a : list Z) (i v : Z) : rd a i = Some v -> get a i = JS.of_int v.
Proof. unfold get. by intros ->. Qed.

(** *** Comparisons *)

Lemma SFcompare_antisym (x y : spec_float) (c : comparison) :
  SFcompare x y = Some c -> SFcompare y x = Some (CompOpp c).
Proof.
  destruct x as [sx|sx| |sx mx ex], y as [sy|sy| |sy my ey]; simpl;
    try (intros [= <-]; try destruct sx; try destruct sy; reflexivity);
    try discriminate.
  intros [= <-]. f_equal.
  destruct sx, sy; try reflexivity.
  - rewrite (Z.compare_antisym ey ex).
    destruct (ey ?= ex)%Z eqn:E; simpl; try reflexivity.
    rewrite (Pos.compare_cont_antisym my mx Eq). simpl.
    by rewrite CompOpp_involutive.
  - rewrite (Z.compare_antisym ey ex).
    destruct (ey ?= ex)%Z eqn:E; simpl; try reflexivity.
    pose proof (Pos.compare_cont_antisym mx my Eq) as H. simpl in H.
    symmetry. exact H.
Qed.

Lemma SFcompare_None (x y : spec_float) :
  SFcompare x y = None -> x = S754_nan \/ y = S754_nan.
Proof.
  destruct x as [sx|sx| |sx mx ex], y as [sy|sy| |sy my ey]; simpl;
    intros H; try discriminate; auto.
Qed.

(** When [x < y * c] holds, [y] is a number; if moreover [x < y] fails,
    then [y <= x]. *)
Lemma ltb_false_leb (x y c : float) :
  (x <? y)%float = false -> (x <? y * c)%float = true ->
  (y <=? x)%float = true.
Proof.
  rewrite !FloatAxioms.ltb_spec, FloatAxioms.leb_spec, FloatAxioms.mul_spec.
  unfold SFltb, SFleb.
  intros Hxy Hxz.
  destruct (SFcompare (Prim2SF x) (Prim2SF y)) as [k|] eqn:E.
  - rewrite (SFcompare_antisym _ _ _ E). by destruct k.
  - apply SFcompare_None in E. destruct E as [E|E]; rewrite E in *.
    + discriminate.
    + simpl in Hxz. by destruct (Prim2SF x).
Qed.

(** ** Reference-mode matting, pixel by pixel *)

Lemma subtractBackground_body_alpha (bg : list Z) (wt : JS.num) (i : Z) (d : list Z) :
  subtractBackground_body bg wt i d = alpha_body (subtract_alpha bg wt) i d.
Proof.
  unfold subtractBackground_body, alpha_body, subtract_alpha, set.
  repeat match goal with |- context [if ?c then _ else _] => destruct c end; done.
Qed.

Lemma subtract_alpha_local (bg : list Z) (wt : JS.num) (i : Z) (d d' : list Z) :
  (forall j, i <= j <= i + 3 -> rd d j = rd d' j) ->
  subtract_alpha bg wt i d = subtract_alpha bg wt i d'.
Proof.
  intros H. unfold subtract_alpha.
  rewrite (get_ext d d' i), (get_ext d d' (i + 1)), (get_ext d d' (i + 2)),
    (get_ext d d' (i + 3)) by (apply H; lia).
  done.
Qed.

Lemma subtractBackground_rd (imageData bgData : ImageData) (threshold : JS.num) (j : Z) :
  rd (subtractBackground imageData bgData threshold) j
  = match subtract_alpha (data bgData) (threshold * 2.55)%float (j - 3) (data imageData) with
    | Some v => if decide ((j - 3) mod 4 = 0) then
                  match rd (data imageData) j with Some _ => Some v | None => None end
                else rd (data imageData) j
    | None => rd (data imageData) j
    end.
Proof.
  unfold subtractBackground.
  rewrite (for_each_ext _ _ (alpha_body (subtract_alpha (data bgData) (threshold * 2.55)%float)))
    by apply subtractBackground_body_alpha.
  apply alpha_loop_spec, subtract_alpha_local.
Qed.

Lemma subtractBackground_rd_alpha (imageData bgData : ImageData) (threshold : JS.num)
    (k : Z) :
  rd (subtractBackground imageData bgData threshold) (4 * k + 3)
  = match subtract_alpha (data bgData) (threshold * 2.55)%float (4 * k) (data imageData) with
    | Some v => match rd (data imageData) (4 * k + 3) with
                | Some _ => Some v
                | None => None
                end
    | None => rd (data imageData) (4 * k + 3)
    end.
Proof.
  rewrite subtractBackground_rd.
  replace (4 * k + 3 - 3) with (4 * k) by lia.
  destruct (subtract_alpha _ _ _ _); [|done].
  rewrite decide_True; [done|]. rewrite Z.mul_comm. apply Z_mod_mult.
Qed.

Lemma subtractBackground_rd_rgb (imageData bgData : ImageData) (threshold : JS.num)
    (k c : Z) :
  0 <= c < 3 ->
  rd (subtractBackground imageData bgData threshold) (4 * k + c)
  = rd (data imageData) (4 * k + c).
Proof.
  intros Hc. rewrite subtractBackground_rd.
  destruct (subtract_alpha _ _ _ _); [|done].
  rewrite decide_False; [done|].
  intros Hm. apply Z.mod_divide in Hm; [|lia]. destruct Hm as [m0 Hm0]. lia.
Qed.

Lemma toUint8Clamp_0 : JS.toUint8Clamp 0%float = 0.
Proof. reflexivity. Qed.

Lemma of_int_0_not_pos : (0 <? JS.of_int 0)%float = false.
Proof. reflexivity. Qed.

(** What the loop computes for a pixel is the specification's rule. *)
Lemma subtract_alpha_reference (bg d : list Z) (threshold : JS.num) (k : Z) (p q : Pixel) :
  bytes bg = true ->
  pixel_at d k = Some p -> pixel_at bg k = Some q ->
  match subtract_alpha bg (threshold * 2.55)%float (4 * k) d with
  | Some v => v
  | None => pA p
  end = reference_alpha threshold p q.
Proof.
  intros Hb Hp Hq. unfold pixel_at in Hp, Hq.
  destruct (rd d (4 * k)) as [r0|] eqn:E0; [|done].
  destruct (rd d (4 * k + 1)) as [g0|] eqn:E1; [|done].
  destruct (rd d (4 * k + 2)) as [b0|] eqn:E2; [|done].
  destruct (rd d (4 * k + 3)) as [a0|] eqn:E3; [|done].
  destruct (rd bg (4 * k)) as [r1|] eqn:F0; [|done].
  destruct (rd bg (4 * k + 1)) as [g1|] eqn:F1; [|done].
  destruct (rd bg (4 * k + 2)) as [b1|] eqn:F2; [|done].
  destruct (rd bg (4 * k + 3)) as [a1|] eqn:F3; [|done].
  injection Hp as <-. injection Hq as <-.
  unfold subtract_alpha, reference_alpha, fade, maxDiff, effectiveThreshold. simpl.
  rewrite (get_of_rd _ _ _ E0), (get_of_rd _ _ _ E1), (get_of_rd _ _ _ E2),
    (get_of_rd _ _ _ E3), (get_of_rd _ _ _ F0), (get_of_rd _ _ _ F1),
    (get_of_rd _ _ _ F2), (get_of_rd _ _ _ F3).
  destruct (Z.eqb_spec a1 0) as [->|Hne].
  - by rewrite of_int_0_not_pos.
  - rewrite of_int_byte_pos by (pose proof (bytes_rd _ _ _ Hb F3); lia).
    repeat match goal with |- context [if ?c then _ else _] => destruct c end; done.
Qed.

(** The whole of [subtractBackground], one pixel at a time: pixel [k] of
    the image faces pixel [k] of the reference, when the reference has one. *)
Lemma subtractBackground_pixel (imageData bgData : ImageData) (threshold : JS.num)
    (k : Z) (p : Pixel) :
  bytes (data bgData) = true ->
  pixel_at (data imageData) k = Some p ->
  pixel_at (subtractBackground imageData bgData threshold) k
  = Some match pixel_at (data bgData) k with
         | Some q => with_alpha p (reference_alpha threshold p q)
         | None => p
         end.
Proof.
  intros Hb Hp.
  assert (Hk : 0 <= 4 * k).
  { unfold pixel_at in Hp. destruct (rd (data imageData) (4 * k)) eqn:E; [|done].
    apply rd_Some_lt in E. lia. }
  unfold pixel_at at 1.
  rewrite <- (Z.add_0_r (4 * k)) at 1.
  rewrite !subtractBackground_rd_rgb by lia. rewrite Z.add_0_r.
  rewrite subtractBackground_rd_alpha.
  pose proof Hp as Hp'. unfold pixel_at in Hp'.
  destruct (rd (data imageData) (4 * k)) as [r0|] eqn:E0; [|done].
  destruct (rd (data imageData) (4 * k + 1)) as [g0|] eqn:E1; [|done].
  destruct (rd (data imageData) (4 * k + 2)) as [b0|] eqn:E2; [|done].
  destruct (rd (data imageData) (4 * k + 3)) as [a0|] eqn:E3; [|done].
  injection Hp' as <-.
  destruct (pixel_at (data bgData) k) as [q|] eqn:Hq.
  - pose proof (subtract_alpha_reference _ _ threshold _ _ _ Hb Hp Hq) as H.
    destruct (subtract_alpha _ _ _ _); simpl in H; by rewrite <- H.
  - assert (Hn : rd (data bgData) (4 * k + 3) = None).
    { unfold pixel_at in Hq.
      destruct (rd (data bgData) (4 * k + 3)) as [a1|] eqn:F3; [|done].
      apply rd_Some_lt in F3.
      destruct (rd_lt_Some (data bgData) (4 * k) ltac:(lia)) as [? F0].
      destruct (rd_lt_Some (data bgData) (4 * k + 1) ltac:(lia)) as [? F1].
      destruct (rd_lt_Some (data bgData) (4 * k + 2) ltac:(lia)) as [? F2].
      rewrite F0, F1, F2 in Hq. done. }
    unfold subtract_alpha. unfold get at 1. rewrite Hn. done.
Qed.

(** ** Loops that write one slot per index *)

Lemma for_each_ind {S : Type} (P : S -> Prop) (l : list Z) (body : Z -> S -> S) (s : S) :
  P s -> (forall i s, i ∈ l -> P s -> P (body i s)) -> P (for_each l body s).
Proof.
  revert s. induction l as [|i l IH]; intros s H0 Hstep; [done|].
  unfold for_each. simpl. apply IH.
  - apply Hstep; [left|done].
  - intros i' s' Hi'. apply Hstep. by right.
Qed.

Lemma for_each_grid {S : Type} (ys xs : list Z) (body : Z -> Z -> S -> S) (s : S) :
  for_each ys (fun y s => for_each xs (fun x s => body y x s) s) s
  = fold_left (fun s yx => body yx.1 yx.2 s) (grid ys xs) s.
Proof.
  revert s. induction ys as [|y ys IH]; intros s; [done|].
  unfold for_each, grid in *. simpl. rewrite fold_left_app, IH. f_equal.
  generalize s. clear. induction xs as [|x xs IHx]; intros s; [done|].
  simpl. apply IHx.
Qed.

Lemma elem_of_grid (ys xs : list Z) (y x : Z) :
  (y, x) ∈ grid ys xs <-> y ∈ ys /\ x ∈ xs.
Proof.
  unfold grid. rewrite !list_elem_of_In, in_flat_map. split.
  - intros (y' & Hy' & Hin). apply in_map_iff in Hin as (x' & [= <- <-] & Hx').
    done.
  - intros [Hy Hx]. exists y. split; [done|].
    apply in_map_iff. by exists x.
Qed.

Lemma fold_left_ind {S I : Type} (P : S -> Prop) (l : list I) (body : S -> I -> S) (s : S) :
  P s -> (forall i s, i ∈ l -> P s -> P (body s i)) -> P (fold_left body l s).
Proof.
  revert s. induction l as [|i l IH]; intros s H0 Hstep; [done|].
  simpl. apply IH.
  - apply Hstep; [left|done].
  - intros i' s' Hi'. apply Hstep. by right.
Qed.

Section OwnSlot.

Context {I A : Type}.
Variables (slot : I -> Z) (f : I -> list A -> option A).

Hypothesis f_stable : forall i i' s v,
  slot i' <> slot i -> f i (wr s (slot i') v) = f i s.

Lemma slot_loop_other (l : list I) (s : list A) (j : Z) :
  (forall i, i ∈ l -> slot i <> j) ->
  rd (fold_left (fun s i => slot_body slot f i s) l s) j = rd s j.
Proof.
  intros H. apply (fold_left_ind (fun s' => rd s' j = rd s j)); [done|].
  intros i s' Hi Hs'. unfold slot_body. destruct (f i s'); [|done].
  rewrite rd_wr_ne; [done|]. by apply H.
Qed.

Lemma slot_loop_own (l : list I) (s : list A) (i : I) :
  NoDup (map slot l) -> i ∈ l ->
  rd (fold_left (fun s i => slot_body slot f i s) l s) (slot i)
  = match f i s with
    | Some v => match rd s (slot i) with Some _ => Some v | None => None end
    | None => rd s (slot i)
    end.
Proof.
  revert s. induction l as [|i0 l IH]; intros s Hnd Hi.
  - by apply elem_of_nil in Hi.
  - simpl in Hnd. apply NoDup_cons in Hnd as [Hfresh Hnd]. simpl.
    apply elem_of_cons in Hi as [->|Hi].
    + rewrite slot_loop_other.
      * unfold slot_body. destruct (f i0 s) as [v|]; [|done].
        by rewrite rd_wr, decide_True.
      * intros i Hi Heq. apply Hfresh. rewrite <- Heq.
        apply list_elem_of_fmap. by exists i.
    + assert (Hne : slot i0 <> slot i).
      { intros Heq. apply Hfresh. rewrite Heq. apply list_elem_of_fmap. by exists i. }
      rewrite IH by done. unfold slot_body.
      destruct (f i0 s) as [v|]; [|done].
      by rewrite f_stable, rd_wr_ne.
Qed.

End OwnSlot.

(** The slots of a grid no wider than the image are all different. *)
Lemma pixel_index_inj (w x y x' y' : Z) :
  0 <= x < w -> 0 <= x' < w -> y * w + x = y' * w + x' -> y = y' /\ x = x'.
Proof. intros Hx Hx' Heq. assert (y = y') by nia. subst. lia. Qed.

Lemma NoDup_range (lo hi : Z) : NoDup (range lo hi).
Proof.
  unfold range. apply NoDup_fmap_2; [|apply NoDup_seq].
  intros a b' H. lia.
Qed.

Lemma NoDup_grid (ys xs : list Z) : NoDup ys -> NoDup xs -> NoDup (grid ys xs).
Proof.
  intros Hys Hxs. induction Hys as [|y ys Hy Hys IH]; [constructor|].
  unfold grid in *. simpl. apply NoDup_app. split; [|split; [|done]].
  - apply NoDup_fmap_2; [|done]. by intros a b' [= ->].
  - intros [y' x'] H1 H2. apply list_elem_of_fmap in H1 as (x0 & [= -> ->] & _).
    apply (elem_of_grid ys xs) in H2. by destruct H2.
Qed.

Lemma NoDup_grid_slots (w lo hi c0 c1 a b' : Z) :
  c1 - c0 <= w -> a <> 0 ->
  NoDup (map (fun yx : Z * Z => (yx.1 * w + yx.2) * a + b')
             (grid (range lo hi) (range c0 c1))).
Proof.
  intros H1 Ha. apply NoDup_fmap_2_strong.
  - intros [y x] [y' x'] Hin Hin' Heq. simpl in Heq.
    apply elem_of_grid in Hin as [_ Hx%elem_of_range].
    apply elem_of_grid in Hin' as [_ Hx'%elem_of_range].
    assert (Heq' : y * w + (x - c0) = y' * w + (x' - c0)) by nia.
    apply pixel_index_inj in Heq'; [|lia..]. destruct Heq'.
    f_equal; lia.
  - apply NoDup_grid; apply NoDup_range.
Qed.

Lemma fold_left_ext {S I : Type} (l : list I) (body body' : S -> I -> S) (s : S) :
  (forall s i, i ∈ l -> body s i = body' s i) ->
  fold_left body l s = fold_left body' l s.
Proof.
  revert s. induction l as [|i l IH]; intros s H; [done|].
  simpl. rewrite H by left. apply IH. intros s' i' Hi'. apply H. by right.
Qed.

Lemma fold_left_pair {S T I : Type} (l : list I) (F : S -> I -> S) (G : T -> I -> T)
    (s : S) (t : T) :
  fold_left (fun '(s, t) i => (F s i, G t i)) l (s, t)
  = (fold_left F l s, fold_left G l t).
Proof. revert s t. induction l as [|i l IH]; intros s t; [done|]. simpl. apply IH. Qed.

(** ** Stored bytes *)

Lemma exact_den_pos (x : JS.num) (n d : Z) : JS.exact x = Some (n, d) -> 0 < d.
Proof.
  unfold JS.exact. destruct (Prim2SF x) as [s|s| |s m e]; try done.
  - intros [= <- <-]. lia.
  - destruct e as [|p|p]; intros [= <- <-]; lia.
Qed.

Lemma toUint8Clamp_byte (x : JS.num) : 0 <= JS.toUint8Clamp x <= 255.
Proof.
  unfold JS.toUint8Clamp. destruct (JS.exact x) as [[n d]|] eqn:E.
  - apply exact_den_pos in E.
    destruct (Z.leb_spec n 0); [lia|].
    destruct (Z.leb_spec (255 * d) n); [lia|].
    assert (0 <= n / d) by (apply Z.div_pos; lia).
    assert (n / d < 255) by (apply Z.div_lt_upper_bound; lia).
    destruct (2 * (n mod d) ?= d); [destruct (Z.even (n / d))|..]; lia.
  - destruct (0 <? x)%float; lia.
Qed.

Lemma bytes_iff (a : list Z) :
  bytes a = true <-> forall i v, rd a i = Some v -> 0 <= v <= 255.
Proof.
  split.
  - intros H i v. by apply bytes_rd.
  - intros H. unfold bytes. apply forallb_forall. intros v Hv.
    apply list_elem_of_In, list_elem_of_lookup in Hv as [n Hn].
    specialize (H (Z.of_nat n) v). unfold rd in H.
    destruct (Z.ltb_spec (Z.of_nat n) 0); [lia|].
    rewrite Nat2Z.id in H. specialize (H Hn). lia.
Qed.

Lemma bytes_wr (a : list Z) (i v : Z) :
  bytes a = true -> 0 <= v <= 255 -> bytes (wr a i v) = true.
Proof.
  rewrite !bytes_iff. intros H Hv j u. rewrite rd_wr.
  case_decide; [|by apply H].
  destruct (rd a i); [|done]. by intros [= <-].
Qed.

Lemma bytes_set (a : list Z) (i : Z) (x : JS.num) :
  bytes a = true -> bytes (set a i x) = true.
Proof. intros H. apply bytes_wr; [done|]. apply toUint8Clamp_byte. Qed.

Lemma len_set (a : list Z) (i : Z) (x : JS.num) : len (set a i x) = len a.
Proof. apply len_wr. Qed.

Lemma rd_set (a : list Z) (i j : Z) (x : JS.num) :
  rd (set a i x) j
  = if decide (i = j)
    then match rd a i with Some _ => Some (JS.toUint8Clamp x) | None => None end
    else rd a j.
Proof. apply rd_wr. Qed.

Lemma rd_zeros (n i : Z) : rd (zeros n) i = if decide (0 <= i < n) then Some 0 else None.
Proof.
  unfold rd, zeros. destruct (Z.ltb_spec i 0).
  - by rewrite decide_False by lia.
  - case_decide.
    + apply lookup_replicate_2. lia.
    + apply lookup_ge_None. rewrite length_replicate. lia.
Qed.

Lemma len_zeros (n : Z) : 0 <= n -> len (zeros n) = n.
Proof. intros H. unfold len, zeros. rewrite length_replicate. lia. Qed.

Lemma bytes_zeros (n : Z) : bytes (zeros n) = true.
Proof.
  apply bytes_iff. intros i v. rewrite rd_zeros. case_decide; [|done].
  intros [= <-]. lia.
Qed.

(** A stored byte reads back as the number it is. *)
Lemma of_int_byte_eqb_0 (v : Z) :
  0 <= v <= 255 -> (JS.of_int v =? 0)%float = (v =? 0).
Proof.
  intros Hv. apply Bool.eqb_prop.
  apply (forallb_range (fun v => Bool.eqb (JS.of_int v =? 0)%float (v =? 0)) 0 256);
    [vm_compute; reflexivity | lia].
Qed.

Lemma get_byte_eq_0 (a : list Z) (i : Z) :
  bytes a = true -> (get a i =? 0)%float = true <-> rd a i = Some 0.
Proof.
  intros Hb. unfold get. destruct (rd a i) as [v|] eqn:E.
  - rewrite of_int_byte_eqb_0 by (by eapply bytes_rd).
    rewrite Z.eqb_eq. split; [by intros ->|by intros [= ->]].
  - split; [|done]. vm_compute. done.
Qed.

Lemma get_byte_pos (a : list Z) (i : Z) :
  bytes a = true ->
  (0 <? get a i)%float = true <-> exists v, rd a i = Some v /\ 0 < v.
Proof.
  intros Hb. unfold get. destruct (rd a i) as [v|] eqn:E.
  - pose proof (bytes_rd _ _ _ Hb E) as Hv. split.
    + intros H. exists v. split; [done|].
      destruct (decide (v = 0)) as [->|]; [|lia]. by vm_compute in H.
    + intros (? & [= <-] & Hpos). apply of_int_byte_pos. lia.
  - split; [by vm_compute|]. by intros (? & ? & _).
Qed.

(** ** Checking a property of every integer of an interval with a float
    counter *)

Lemma succ_of_int (k : Z) : 0 <= k < 4096 -> (JS.of_int k + 1)%float = JS.of_int (k + 1).
Proof.
  intros Hk. apply FloatAxioms.Leibniz.eqb_spec.
  apply (forallb_range
           (fun k => PrimFloat.Leibniz.eqb (JS.of_int k + 1)%float (JS.of_int (k + 1)))
           0 4096); [vm_compute; reflexivity | lia].
Qed.

Lemma all_from_spec (n : nat) (P : JS.num -> bool) (x : JS.num) (k : Z) :
  x = JS.of_int k -> 0 <= k -> k + Z.of_nat n <= 4096 ->
  all_from n x P = true ->
  forall j, k <= j < k + Z.of_nat n -> P (JS.of_int j) = true.
Proof.
  revert x k. induction n as [|n IH]; intros x k -> Hk Hn H j Hj; [lia|].
  cbn [all_from] in H. apply andb_prop in H. destruct H as [H0 H].
  destruct (Z.eq_dec j k) as [->|Hne]; [done|].
  apply (IH _ (k + 1) (succ_of_int k ltac:(lia))); [lia|lia|done|lia].
Qed.

(** Sums of a few bytes are exact. *)
Lemma add_ints_step :
  all_from 2041 0%float (fun x =>
    all_from 255 0%float (fun y =>
      PrimFloat.Leibniz.eqb (x + (y + 1))%float ((x + y) + 1)%float))
  = true.
Proof. vm_compute. reflexivity. Qed.

Lemma add_ints_zero :
  all_from 2041 0%float (fun x => PrimFloat.Leibniz.eqb (x + 0)%float x) = true.
Proof. vm_compute. reflexivity. Qed.

Lemma add_ints (x y : Z) :
  0 <= x <= 2040 -> 0 <= y <= 255 ->
  (JS.of_int x + JS.of_int y)%float = JS.of_int (x + y).
Proof.
  intros Hx Hy.
  assert (Hn : forall n : nat, Z.of_nat n <= 255 ->
                 (JS.of_int x + JS.of_int (Z.of_nat n))%float = JS.of_int (x + Z.of_nat n)).
  { induction n as [|n IH]; intros Hle.
    - rewrite Z.add_0_r. apply FloatAxioms.Leibniz.eqb_spec.
      exact (all_from_spec 2041 _ 0%float 0 eq_refl ltac:(lia) ltac:(lia)
               add_ints_zero x ltac:(lia)).
    - pose proof (all_from_spec 2041 _ 0%float 0 eq_refl ltac:(lia) ltac:(lia)
                    add_ints_step x ltac:(lia)) as H1.
      pose proof (all_from_spec 255 _ 0%float 0 eq_refl ltac:(lia) ltac:(lia)
                    H1 (Z.of_nat n) ltac:(lia)) as H2.
      apply FloatAxioms.Leibniz.eqb_spec in H2.
      replace (Z.of_nat (S n)) with (Z.of_nat n + 1) by lia.
      rewrite <- (succ_of_int (Z.of_nat n)) by lia.
      rewrite H2, IH by lia. rewrite succ_of_int by lia. f_equal. lia. }
  specialize (Hn (Z.to_nat y)). rewrite Z2Nat.id in Hn by lia. apply Hn. lia.
Qed.

(** ** Reference-mode matting: the claims *)

(** C1. Reference-mode matting, image and reference of equal dimensions: at
    every pixel whose reference alpha is greater than 0, with [maxDiff] the
    largest of the three absolute channel differences and
    [effectiveThreshold = (threshold * 2.55) * (refAlpha / 255)], the alpha
    becomes 0 when [maxDiff < effectiveThreshold]; it becomes
    [round (oldAlpha * ((maxDiff - effectiveThreshold) / (effectiveThreshold * 0.5)))]
    (stored in the clamped byte array) when
    [effectiveThreshold <= maxDiff < effectiveThreshold * 1.5]; and the
    pixel is unchanged otherwise.  R, G and B are never changed. *)
Theorem reference_matting_rule (imageData bgData : ImageData) (threshold : JS.num)
    (k : Z) (p q : Pixel) :
  width imageData = width bgData -> height imageData = height bgData ->
  bytes (data bgData) = true ->
  pixel_at (data imageData) k = Some p ->
  pixel_at (data bgData) k = Some q ->
  0 < pA q ->
  let maxDiff := JS.max3 (JS.abs (JS.of_int (pR p) - JS.of_int (pR q))%float)
                         (JS.abs (JS.of_int (pG p) - JS.of_int (pG q))%float)
                         (JS.abs (JS.of_int (pB p) - JS.of_int (pB q))%float) in
  let effectiveThreshold := ((threshold * 2.55) * (JS.of_int (pA q) / 255))%float in
  pixel_at (subtractBackground imageData bgData threshold) k
  = Some (with_alpha p
      (if (maxDiff <? effectiveThreshold)%float then 0
       else if (effectiveThreshold <=? maxDiff)%float
               && (maxDiff <? effectiveThreshold * 1.5)%float
       then JS.toUint8Clamp (JS.round (JS.of_int (pA p) *
               ((maxDiff - effectiveThreshold) / (effectiveThreshold * 0.5)))%float)
       else pA p)).
Proof.
  intros _ _ Hb Hp Hq Hpos m e.
  rewrite (subtractBackground_pixel _ _ _ _ _ Hb Hp), Hq. do 2 f_equal.
  unfold reference_alpha, fade.
  change (maxDiff p q) with m. change (effectiveThreshold threshold (pA q)) with e.
  destruct (Z.eqb_spec (pA q) 0) as [E|_]; [lia|].
  destruct (m <? e)%float eqn:E1; [done|].
  destruct (m <? e * 1.5)%float eqn:E2.
  - by rewrite (ltb_false_leb _ _ _ E1 E2).
  - by rewrite andb_false_r.
Qed.

Lemma reference_matting_rule_witness :
  pixel_at (subtractBackground (mkImageData 1 1 [200; 10; 10; 255])
                               (mkImageData 1 1 [190; 10; 10; 255]) 3%float) 0
  = Some (mkPixel 200 10 10 157).
Proof.
  apply (reference_matting_rule (mkImageData 1 1 [200; 10; 10; 255])
           (mkImageData 1 1 [190; 10; 10; 255]) 3%float 0
           (mkPixel 200 10 10 255) (mkPixel 190 10 10 255));
    try reflexivity; simpl; lia.
Defined.

(** C6. Wherever the reference pixel's alpha is 0, the image pixel is left
    untouched: all of R, G, B and A keep their value, whatever the colours
    and the threshold. *)
Theorem reference_alpha_zero_untouched (imageData bgData : ImageData)
    (threshold : JS.num) (k c : Z) :
  rd (data bgData) (4 * k + 3) = Some 0 ->
  0 <= c < 4 ->
  rd (subtractBackground imageData bgData threshold) (4 * k + c)
  = rd (data imageData) (4 * k + c).
Proof.
  intros Hq Hc. destruct (decide (c = 3)) as [->|Hne].
  - rewrite subtractBackground_rd_alpha. unfold subtract_alpha.
    by rewrite (get_of_rd _ _ _ Hq), of_int_0_not_pos.
  - apply subtractBackground_rd_rgb. lia.
Qed.

Lemma reference_alpha_zero_untouched_witness :
  rd (subtractBackground (mkImageData 1 1 [200; 10; 10; 255])
                         (mkImageData 1 1 [200; 10; 10; 0]) 100%float) (4 * 0 + 3)
  = Some 255.
Proof.
  apply (reference_alpha_zero_untouched (mkImageData 1 1 [200; 10; 10; 255])
           (mkImageData 1 1 [200; 10; 10; 0]) 100%float 0 3);
    [reflexivity | lia].
Defined.

Lemma pixel_at_is_Some (d : list Z) (k : Z) :
  0 <= k -> 4 * k + 3 < len d -> is_Some (pixel_at d k).
Proof.
  intros H0 H1. unfold pixel_at.
  destruct (rd_lt_Some d (4 * k) ltac:(lia)) as [? ->].
  destruct (rd_lt_Some d (4 * k + 1) ltac:(lia)) as [? ->].
  destruct (rd_lt_Some d (4 * k + 2) ltac:(lia)) as [? ->].
  destruct (rd_lt_Some d (4 * k + 3) ltac:(lia)) as [? ->].
  by eexists.
Qed.

Lemma pixel_at_None (d : list Z) (k : Z) : len d <= 4 * k + 3 -> pixel_at d k = None.
Proof.
  intros H. unfold pixel_at.
  assert (rd d (4 * k + 3) = None) as ->.
  { unfold rd. destruct (Z.ltb_spec (4 * k + 3) 0); [done|].
    apply lookup_ge_None. unfold len in H. lia. }
  by repeat case_match.
Qed.

Lemma well_formed_inv (img : ImageData) :
  well_formed img = true ->
  0 <= width img /\ 0 <= height img
  /\ len (data img) = 4 * (width img * height img) /\ bytes (data img) = true.
Proof.
  unfold well_formed. rewrite !andb_true_iff.
  intros [[[H1 H2] H3] H4]. repeat split; try done; lia.
Qed.

Lemma pixel_index_bound (w h x y : Z) :
  0 <= x < w -> 0 <= y < h -> 0 <= pixel_index w x y < w * h.
Proof. unfold pixel_index. nia. Qed.

(** C3 (as amended). With buffers of different dimensions, reference-mode
    matting pairs pixels by their flat row-major index, not by position:
    the image pixel at (x, y), of index [k = y * width + x], is eligible
    exactly when the reference has a pixel of index [k], and it is then
    compared with that reference pixel; image pixels whose index is beyond
    the reference's pixel count are unchanged.  When the two widths are
    equal the reference pixel of index [k] is the one at the same (x, y),
    and the eligible positions are exactly those present in both buffers. *)
Theorem subtractBackground_pairs_by_index (imageData bgData : ImageData)
    (threshold : JS.num) (x y : Z) :
  well_formed imageData = true -> well_formed bgData = true ->
  0 <= x < width imageData -> 0 <= y < height imageData ->
  let k := pixel_index (width imageData) x y in
  exists p, pixel_at (data imageData) k = Some p
  /\ (if k <? width bgData * height bgData
      then exists q, pixel_at (data bgData) k = Some q
           /\ pixel_at (subtractBackground imageData bgData threshold) k
              = Some (with_alpha p (reference_alpha threshold p q))
      else pixel_at (subtractBackground imageData bgData threshold) k = Some p)
  /\ (width imageData = width bgData ->
      k = pixel_index (width bgData) x y
      /\ (k < width bgData * height bgData <-> in_both imageData bgData x y)).
Proof.
  intros Hwf Hwfb Hx Hy. cbv zeta.
  apply well_formed_inv in Hwf as (Hw & Hh & Hlen & Hbytes).
  apply well_formed_inv in Hwfb as (Hwb & Hhb & Hlenb & Hbytesb).
  pose proof (pixel_index_bound _ _ _ _ Hx Hy) as Hk.
  set (k := pixel_index (width imageData) x y) in *.
  destruct (pixel_at_is_Some (data imageData) k) as [p Hp]; [lia..|].
  exists p. split; [done|]. split.
  - rewrite (subtractBackground_pixel _ _ _ _ _ Hbytesb Hp).
    destruct (Z.ltb_spec k (width bgData * height bgData)) as [Hlt|Hge].
    + destruct (pixel_at_is_Some (data bgData) k) as [q Hq]; [lia..|].
      exists q. by rewrite Hq.
    + by rewrite pixel_at_None by lia.
  - intros Heq. split; [unfold k; by rewrite Heq|].
    unfold in_both, k, pixel_index. rewrite <- Heq. split; [nia|].
    intros [_ Hy']. nia.
Qed.

Lemma subtractBackground_pairs_by_index_witness :
  exists p, pixel_at [255; 0; 0; 255; 255; 0; 0; 255] 1 = Some p
  /\ (exists q, pixel_at [255; 0; 0; 255; 255; 0; 0; 255] 1 = Some q
      /\ pixel_at (subtractBackground (mkImageData 2 1 [255; 0; 0; 255; 255; 0; 0; 255])
                     (mkImageData 1 2 [255; 0; 0; 255; 255; 0; 0; 255]) 30%float) 1
         = Some (with_alpha p (reference_alpha 30%float p q)))
  /\ (2 = 1 -> 1 = pixel_index 1 1 0
      /\ (1 < 1 * 2 <->
          in_both (mkImageData 2 1 [255; 0; 0; 255; 255; 0; 0; 255])
                  (mkImageData 1 2 [255; 0; 0; 255; 255; 0; 0; 255]) 1 0)).
Proof.
  apply (subtractBackground_pairs_by_index
           (mkImageData 2 1 [255; 0; 0; 255; 255; 0; 0; 255])
           (mkImageData 1 2 [255; 0; 0; 255; 255; 0; 0; 255]) 30%float 1 0);
    try reflexivity; simpl; lia.
Defined.

(** C3 (as stated) fails: a 2x1 image matted against a 1x2 reference.  The
    image pixel at (1, 0) has no counterpart at (1, 0) in the reference,
    whose width is 1, yet its alpha is set to 0: it is compared with the
    reference pixel of flat index 1, which is the one at (0, 1). *)
Lemma only_overlap_is_matted_fails : ~ only_overlap_is_matted.
Proof.
  intros H.
  pose proof (H (mkImageData 2 1 [255; 0; 0; 255; 255; 0; 0; 255])
                (mkImageData 1 2 [255; 0; 0; 255; 255; 0; 0; 255]) 30%float 1 0
                eq_refl eq_refl ltac:(simpl; lia) ltac:(simpl; lia)
                ltac:(unfold in_both; simpl; lia)) as E.
  vm_compute in E. discriminate E.
Qed.

(** ** Erosion *)

Lemma elem_of_offsets4 (n i : Z) :
  i ∈ offsets4 n <-> exists m, i = 4 * m /\ 0 <= m < (n + 3) / 4.
Proof.
  unfold offsets4. rewrite list_elem_of_fmap. split.
  - intros (m & -> & Hm%elem_of_range). by exists m.
  - intros (m & -> & Hm). exists m. by rewrite elem_of_range.
Qed.

Lemma NoDup_offsets4_div (n : Z) : NoDup (map (fun i => i / 4) (offsets4 n)).
Proof.
  unfold offsets4. rewrite map_map.
  rewrite (map_ext _ (fun k => k)), map_id; [apply NoDup_range|].
  intros k. rewrite Z.mul_comm. apply Z.div_mul. lia.
Qed.

Lemma rd_map_range (f : Z -> Z) (m k : Z) :
  rd (map f (range 0 m)) k = if decide (0 <= k < m) then Some (f k) else None.
Proof.
  unfold rd, range. destruct (Z.ltb_spec k 0).
  - by rewrite decide_False by lia.
  - rewrite map_map, Z.sub_0_r. case_decide.
    + change (map ?g ?l) with (g <$> l).
      rewrite list_lookup_fmap, lookup_seq_lt by lia. simpl. f_equal. f_equal. lia.
    + apply lookup_ge_None. rewrite length_map, length_seq. lia.
Qed.

Lemma len_map_range (f : Z -> Z) (m : Z) : 0 <= m -> len (map f (range 0 m)) = m.
Proof. intros H. unfold len, range. rewrite !length_map, length_seq. lia. Qed.

Lemma rd_alphas (d : list Z) (k : Z) :
  rd (alphas d) k
  = if decide (0 <= k < len d / 4) then Some (default 0 (alpha_of d k)) else None.
Proof. apply rd_map_range. Qed.

Lemma well_formed_pixels (img : ImageData) :
  well_formed img = true -> len (data img) / 4 = width img * height img.
Proof.
  intros (_ & _ & -> & _)%well_formed_inv.
  rewrite Z.mul_comm. apply Z.div_mul. lia.
Qed.

(** The copy of the alpha channel that [erodeEdges] starts from. *)
Lemma erode_init (img : ImageData) :
  well_formed img = true ->
  for_each (offsets4 (len (data img)))
    (fun i alphaMap => set alphaMap (i / 4) (get (data img) (i + 3)))
    (zeros (width img * height img))
  = alphas (data img).
Proof.
  intros Hwf. pose proof (well_formed_pixels _ Hwf) as Hpix.
  apply well_formed_inv in Hwf as (Hw & Hh & Hlen & Hb).
  assert (Hwh : 0 <= width img * height img) by lia.
  apply list_eq_rd. intros k. rewrite rd_alphas, Hpix.
  change (for_each ?l ?body ?s)
    with (fold_left (fun acc i => slot_body (fun i => i / 4)
            (fun i _ => Some (JS.toUint8Clamp (get (data img) (i + 3)))) i acc) l s).
  assert (Hoff : (len (data img) + 3) / 4 = width img * height img).
  { rewrite Hlen. symmetry. apply (Z.div_unique _ 4 _ 3); lia. }
  case_decide as Hk.
  - replace k with (4 * k / 4) at 1 by (rewrite Z.mul_comm; apply Z.div_mul; lia).
    rewrite (slot_loop_own (fun i => i / 4)); [|done|apply NoDup_offsets4_div|].
    + replace (4 * k / 4) with k by (rewrite Z.mul_comm, Z.div_mul; lia).
      rewrite rd_zeros, decide_True by done. unfold alpha_of.
      destruct (rd_lt_Some (data img) (4 * k + 3) ltac:(lia)) as [v Hv].
      rewrite Hv. simpl. rewrite (get_of_rd _ _ _ Hv), of_int_byte_store; [done|].
      by eapply bytes_rd.
    + apply elem_of_offsets4. exists k. rewrite Hoff. done.
  - rewrite slot_loop_other.
    + rewrite rd_zeros. by rewrite decide_False.
    + intros i (m & -> & Hm)%elem_of_offsets4.
      rewrite Z.mul_comm, Z.div_mul by lia. lia.
Qed.

Lemma erodePass_inv (w h : Z) (a : list Z) :
  let a' := erodePass w h a in
  len a' = len a
  /\ (bytes a = true -> bytes a' = true)
  /\ forall j, rd a' j = rd a j
       \/ (rd a' j = Some 0
           /\ exists y x, 1 <= y < h - 1 /\ 1 <= x < w - 1 /\ j = y * w + x
              /\ (0 <? get a j)%float = true
              /\ hasTransparent a (fun n => n) w x y = true).
Proof.
  unfold erodePass.
  apply (for_each_ind (fun s => len s = len a /\ (bytes a = true -> bytes s = true)
    /\ forall j, rd s j = rd a j \/ (rd s j = Some 0 /\ _))); [by auto|].
  intros y s Hy%elem_of_range Hs.
  apply (for_each_ind (fun s => len s = len a /\ (bytes a = true -> bytes s = true)
    /\ forall j, rd s j = rd a j \/ (rd s j = Some 0 /\ _))); [done|].
  clear s Hs. intros x s Hx%elem_of_range (Hlen & Hb & Hs).
  destruct (0 <? get a (y * w + x))%float eqn:E1; [|done].
  destruct (hasTransparent a (fun n => n) w x y) eqn:E2; [|done].
  split; [by rewrite len_set|]. split; [intros; by apply bytes_set, Hb|].
  intros j. rewrite rd_set. case_decide as Hj; [|apply Hs]. subst j.
  destruct (rd s (y * w + x)) eqn:E3.
  - right. split; [done|]. by exists y, x.
  - destruct (Hs (y * w + x)) as [H|[H _]]; [|congruence].
    left. congruence.
Qed.

Lemma erodePasses_inv (w h n : Z) (a : list Z) :
  let a' := erodePasses w h n a in
  len a' = len a
  /\ (bytes a = true -> bytes a' = true)
  /\ forall j, rd a' j = rd a j \/ rd a' j = Some 0.
Proof.
  unfold erodePasses.
  apply (for_each_ind (fun s => len s = len a /\ (bytes a = true -> bytes s = true)
    /\ forall j, rd s j = rd a j \/ rd s j = Some 0)); [by auto|].
  intros _ s _ (Hlen & Hb & Hs).
  destruct (erodePass_inv w h s) as (Hlen' & Hb' & Hs').
  split; [congruence|]. split; [by auto|].
  intros j. destruct (Hs' j) as [->|[-> _]]; auto.
Qed.

Lemma bytes_alphas (d : list Z) : bytes d = true -> bytes (alphas d) = true.
Proof.
  intros Hb. apply bytes_iff. intros i v. rewrite rd_alphas.
  case_decide; [|done]. intros [= <-]. unfold alpha_of.
  destruct (rd d (4 * i + 3)) eqn:E; simpl; [by eapply bytes_rd|lia].
Qed.

Lemma len_alphas (d : list Z) : len (alphas d) = len d / 4.
Proof.
  apply len_map_range. apply Z.div_pos; unfold len; lia.
Qed.

(** [erodeEdges] replaces the alpha channel by its eroded copy and leaves
    the colour channels alone. *)
Lemma erodeEdges_rd (img : ImageData) (pixels : Z) :
  well_formed img = true ->
  (forall k, 0 <= k < width img * height img ->
     alpha_of (erodeEdges img pixels) k
     = rd (erodePasses (width img) (height img) pixels (alphas (data img))) k)
  /\ (forall j, (j - 3) mod 4 <> 0 -> rd (erodeEdges img pixels) j = rd (data img) j)
  /\ len (erodeEdges img pixels) = len (data img).
Proof.
  intros Hwf. unfold erodeEdges. rewrite (erode_init _ Hwf).
  fold (erodePasses (width img) (height img) pixels (alphas (data img))).
  set (A := erodePasses _ _ _ _).
  pose proof (well_formed_pixels _ Hwf) as Hpix.
  pose proof Hwf as (Hw & Hh & Hlen & Hb)%well_formed_inv.
  destruct (erodePasses_inv (width img) (height img) pixels (alphas (data img)))
    as (HlenA & HbA & _). fold A in HlenA, HbA.
  specialize (HbA (bytes_alphas _ Hb)). rewrite len_alphas, Hpix in HlenA.
  change (for_each ?l ?body ?s)
    with (for_each l (alpha_body (fun i _ => Some (JS.toUint8Clamp (get A (i / 4))))) s).
  split; [|split].
  - intros k Hk. unfold alpha_of. rewrite alpha_loop_spec by done.
    replace (4 * k + 3 - 3) with (4 * k) by lia.
    rewrite decide_True by (rewrite Z.mul_comm; apply Z_mod_mult).
    destruct (rd_lt_Some (data img) (4 * k + 3) ltac:(lia)) as [v ->].
    rewrite Z.mul_comm, Z.div_mul by lia.
    destruct (rd_lt_Some A k ltac:(lia)) as [u Hu].
    rewrite (get_of_rd _ _ _ Hu), of_int_byte_store, Hu; [done|].
    by eapply bytes_rd.
  - intros j Hj. rewrite alpha_loop_spec by done. by rewrite decide_False.
  - apply (for_each_ind (fun s => len s = len (data img))); [done|].
    intros i s _ Hs. unfold alpha_body. by rewrite len_wr.
Qed.

Lemma alphas_erodeEdges (img : ImageData) (pixels : Z) :
  well_formed img = true ->
  alphas (erodeEdges img pixels)
  = erodePasses (width img) (height img) pixels (alphas (data img)).
Proof.
  intros Hwf. destruct (erodeEdges_rd img pixels Hwf) as (Ha & _ & Hlen).
  pose proof (well_formed_pixels _ Hwf) as Hpix.
  pose proof Hwf as (Hw & Hh & _ & _)%well_formed_inv.
  destruct (erodePasses_inv (width img) (height img) pixels (alphas (data img)))
    as (HlenA & _ & _). rewrite len_alphas, Hpix in HlenA.
  apply list_eq_rd. intros k. rewrite rd_alphas, Hlen, Hpix.
  case_decide as Hk.
  - rewrite Ha by done.
    by destruct (rd_lt_Some _ k ltac:(rewrite HlenA; exact Hk)) as [u ->].
  - symmetry. destruct (rd _ k) eqn:E; [|done].
    apply rd_Some_lt in E. lia.
Qed.

Lemma erodeEdges_fixed (img : ImageData) (pixels : Z) :
  well_formed img = true ->
  erodePasses (width img) (height img) pixels (alphas (data img)) = alphas (data img) ->
  erodeEdges img pixels = data img.
Proof.
  intros Hwf Hfix. destruct (erodeEdges_rd img pixels Hwf) as (Ha & Hrgb & Hlen).
  pose proof (well_formed_pixels _ Hwf) as Hpix.
  pose proof Hwf as (Hw & Hh & Hlen' & _)%well_formed_inv.
  apply list_eq_rd. intros j.
  destruct (decide ((j - 3) mod 4 = 0)) as [Hm|Hm]; [|by apply Hrgb].
  apply Z.mod_divide in Hm as [k Hk]; [|lia].
  assert (j = 4 * k + 3) as -> by lia. clear Hk.
  destruct (decide (0 <= k < width img * height img)) as [Hin|Hout].
  - fold (alpha_of (erodeEdges img pixels) k). rewrite Ha, Hfix, rd_alphas by done.
    rewrite decide_True by (by rewrite Hpix). unfold alpha_of.
    by destruct (rd_lt_Some (data img) (4 * k + 3) ltac:(lia)) as [v ->].
  - destruct (rd (erodeEdges img pixels) (4 * k + 3)) eqn:E1.
    { apply rd_Some_lt in E1. lia. }
    destruct (rd (data img) (4 * k + 3)) eqn:E2; [|done].
    apply rd_Some_lt in E2. lia.
Qed.

(** C5 (as amended). Erosion never treats the outside of the buffer as
    transparent and never touches the border rows and columns: two passes
    over a 5x5 buffer that is opaque everywhere change nothing.  When the
    opaque 5x5 square lies inside a 7x7 buffer whose outer ring is fully
    transparent, each pass removes one ring of the square: a 3x3 square is
    left after one pass and the centre pixel alone after two. *)
Theorem erode_two_passes (d5 d7 : list Z) :
  well_formed (mkImageData 5 5 d5) = true -> alphas d5 = replicate 25 255 ->
  well_formed (mkImageData 7 7 d7) = true -> alphas d7 = square_in 7 1 6 ->
  erodeEdges (mkImageData 5 5 d5) 2 = d5
  /\ alphas (erodeEdges (mkImageData 7 7 d7) 1) = square_in 7 2 5
  /\ alphas (erodeEdges (mkImageData 7 7 d7) 2) = square_in 7 3 4.
Proof.
  intros Hwf5 Ha5 Hwf7 Ha7. split; [|split].
  - apply (erodeEdges_fixed (mkImageData 5 5 d5) 2 Hwf5). simpl. rewrite Ha5.
    vm_compute. reflexivity.
  - rewrite (alphas_erodeEdges _ _ Hwf7). simpl. rewrite Ha7.
    vm_compute. reflexivity.
  - rewrite (alphas_erodeEdges _ _ Hwf7). simpl. rewrite Ha7.
    vm_compute. reflexivity.
Qed.

Lemma erode_two_passes_witness :
  erodeEdges (mkImageData 5 5 (concat (replicate 25 [0; 0; 255; 255]))) 2
  = concat (replicate 25 [0; 0; 255; 255])
  /\ alphas (erodeEdges (mkImageData 7 7
               (concat (map (fun a => [0; 0; 255; a]) (square_in 7 1 6)))) 1)
     = square_in 7 2 5
  /\ alphas (erodeEdges (mkImageData 7 7
               (concat (map (fun a => [0; 0; 255; a]) (square_in 7 1 6)))) 2)
     = square_in 7 3 4.
Proof.
  apply (erode_two_passes (concat (replicate 25 [0; 0; 255; 255]))
           (concat (map (fun a => [0; 0; 255; a]) (square_in 7 1 6))));
    vm_compute; reflexivity.
Defined.

(** C5 (as stated) fails: on the 5x5 buffer every pixel is still opaque
    after the two passes, the centre no more than the others. *)
Lemma scenario_C_fails : ~ scenario_C_as_stated.
Proof.
  intros H.
  specialize (H (concat (replicate 25 [0; 0; 255; 255])) eq_refl eq_refl).
  vm_compute in H. discriminate H.
Qed.

(** ** The edge filters: what they never do *)

Lemma loop2_ind {S : Type} (P : S -> Prop) (ys xs : list Z) (body : Z -> Z -> S -> S)
    (s : S) :
  P s -> (forall y x s, y ∈ ys -> x ∈ xs -> P s -> P (body y x s)) ->
  P (for_each ys (fun y s => for_each xs (fun x s => body y x s) s) s).
Proof.
  intros H0 Hstep. apply for_each_ind; [done|].
  intros y s' Hy Hs'. apply for_each_ind; [done|].
  intros x s'' Hx Hs''. by apply Hstep.
Qed.

Lemma get_zero_not_pos (a : list Z) (i : Z) :
  rd a i = Some 0 -> (0 <? get a i)%float = false.
Proof. intros H. by rewrite (get_of_rd _ _ _ H). Qed.

Lemma get_zero_eqb (a : list Z) (i : Z) :
  rd a i = Some 0 -> (get a i =? 0)%float = true.
Proof. intros H. by rewrite (get_of_rd _ _ _ H). Qed.

Lemma smoothEdges_zero : never_raises_zero smoothEdges.
Proof.
  intros img n _ Hz. unfold smoothEdges, alpha_of in *.
  apply (loop2_ind (fun s => rd s (4 * n + 3) = Some 0)); [done|].
  intros y x s _ _ Hs.
  destruct (decide ((y * width img + x) * 4 + 3 = 4 * n + 3)) as [E|E].
  - rewrite E, (get_zero_not_pos _ _ Hz). done.
  - destruct (_ && _); [|done]. destruct (for_each _ _ _) as [alphaSum count].
    by rewrite rd_set, decide_False.
Qed.

Lemma removeLightEdgeArtifacts_zero : never_raises_zero removeLightEdgeArtifacts.
Proof.
  intros img n _ Hz. unfold removeLightEdgeArtifacts, alpha_of in *.
  apply (loop2_ind (fun s => rd s (4 * n + 3) = Some 0)); [done|].
  intros y x s _ _ Hs. destruct (negb _); [done|].
  destruct (decide ((y * width img + x) * 4 + 3 = 4 * n + 3)) as [E|E].
  - rewrite E, (get_zero_not_pos _ _ Hs). done.
  - destruct (_ && _); [|done]. destruct (_ <? _)%float; [|done].
    by rewrite rd_set, decide_False.
Qed.

Lemma aggressiveEdgeCleanup_zero : never_raises_zero aggressiveEdgeCleanup.
Proof.
  intros img n _ Hz. unfold aggressiveEdgeCleanup, alpha_of in *.
  apply (loop2_ind (fun s => rd s (4 * n + 3) = Some 0)); [done|].
  intros y x s _ _ Hs.
  destruct (decide ((y * width img + x) * 4 + 3 = 4 * n + 3)) as [E|E].
  - rewrite E, (get_zero_not_pos _ _ Hs). done.
  - destruct (_ && _); [|done]. destruct (for_each _ _ _) as [hasOpaque opaqueCount].
    destruct (_ && _); [|done].
    by rewrite rd_set, decide_False.
Qed.

Lemma removeLiquidGlassOutline_zero (outlineWidth : Z) (brightThreshold : JS.num) :
  never_raises_zero (fun img => removeLiquidGlassOutline img outlineWidth brightThreshold).
Proof.
  intros img n _ Hz. unfold removeLiquidGlassOutline, alpha_of in *.
  apply (loop2_ind (fun s => rd s (4 * n + 3) = Some 0)); [done|].
  intros y x s _ _ Hs. destruct (negb _); [done|].
  destruct (decide (y * width img + x = n)) as [E|E].
  - replace ((y * width img + x) * 4 + 3) with (4 * n + 3) by lia.
    by rewrite (get_zero_eqb _ _ Hs).
  - destruct (_ =? _)%float; [done|].
    repeat match goal with
           | |- context [if ?c then _ else _] => destruct c
           end;
      rewrite ?rd_set, ?decide_False by lia; done.
Qed.

Lemma erodeEdges_zero (pixels : Z) :
  never_raises_zero (fun img => erodeEdges img pixels).
Proof.
  intros img n Hwf Hz.
  destruct (erodeEdges_rd img pixels Hwf) as (Ha & _ & _).
  pose proof (well_formed_pixels _ Hwf) as Hpix.
  pose proof Hwf as (Hw & Hh & Hlen & _)%well_formed_inv.
  assert (Hn : 0 <= n < width img * height img).
  { unfold alpha_of in Hz. apply rd_Some_lt in Hz. lia. }
  rewrite Ha by done.
  destruct (erodePasses_inv (width img) (height img) pixels (alphas (data img)))
    as (_ & _ & Hcases).
  destruct (Hcases n) as [-> | ->]; [|done].
  rewrite rd_alphas, decide_True by (by rewrite Hpix). by rewrite Hz.
Qed.

(** ** The filters that only touch pixels with a transparent neighbour *)

Lemma hasTransparent_true (a : list Z) (alphaIdx : Z -> Z) (w x y : Z) :
  hasTransparent a alphaIdx w x y = true ->
  exists dx dy, -1 <= dx <= 1 /\ -1 <= dy <= 1 /\ (dx, dy) <> (0, 0)
    /\ (get a (alphaIdx ((y + dy) * w + (x + dx))%Z) =? 0)%float = true.
Proof.
  unfold hasTransparent. intros H.
  apply existsb_exists in H as (dy & Hdy & H).
  apply existsb_exists in H as (dx & Hdx & H).
  apply list_elem_of_In, elem_of_range in Hdy, Hdx.
  exists dx, dy. repeat split; try lia.
  - intros [= -> ->]. done.
  - destruct (_ && _)%bool; [done|]. done.
Qed.

Lemma transparent_not_opaque_around (d : list Z) (w x y : Z) :
  bytes d = true ->
  hasTransparent d (fun n => n * 4 + 3) w x y = true -> ~ opaque_around d w x y.
Proof.
  intros Hb (dx & dy & Hdx & Hdy & Hne & H0)%hasTransparent_true Hop.
  apply get_byte_eq_0 in H0; [|done].
  destruct (Hop dx dy Hdx Hdy Hne) as (a & Ha & Hnz).
  unfold alpha_of, pixel_index in Ha.
  replace (4 * ((y + dy) * w + (x + dx)) + 3) with (((y + dy) * w + (x + dx)) * 4 + 3)
    in Ha by lia.
  congruence.
Qed.

Lemma transparent_alphas_not_opaque_around (d : list Z) (w x y : Z) :
  bytes d = true ->
  hasTransparent (alphas d) (fun n => n) w x y = true -> ~ opaque_around d w x y.
Proof.
  intros Hb (dx & dy & Hdx & Hdy & Hne & H0)%hasTransparent_true Hop.
  apply get_byte_eq_0 in H0; [|by apply bytes_alphas].
  destruct (Hop dx dy Hdx Hdy Hne) as (a & Ha & Hnz).
  unfold pixel_index in Ha. rewrite rd_alphas in H0.
  case_decide; [|done]. rewrite Ha in H0. simpl in H0. congruence.
Qed.

Lemma get_byte_eq_1 (a : list Z) (i : Z) :
  bytes a = true -> (get a i =? 1)%float = true -> rd a i = Some 1.
Proof.
  intros Hb. unfold get. destruct (rd a i) as [v|] eqn:E; [|by vm_compute].
  pose proof (bytes_rd _ _ _ Hb E) as Hv. intros H. f_equal.
  assert (Hc : implb (JS.of_int v =? 1)%float (v =? 1) = true).
  { apply (forallb_range (fun v => implb (JS.of_int v =? 1)%float (v =? 1)) 0 256);
      [vm_compute; reflexivity | lia]. }
  rewrite H in Hc. simpl in Hc. lia.
Qed.

Lemma outerEdge_inv (d : list Z) (w h : Z) :
  let m := outerEdge d w h in
  bytes m = true
  /\ forall j, rd m j = Some 1 ->
       exists y x, 1 <= y < h - 1 /\ 1 <= x < w - 1 /\ j = y * w + x
         /\ hasTransparent d (fun n => n * 4 + 3) w x y = true.
Proof.
  unfold outerEdge.
  apply (loop2_ind (fun m => bytes m = true /\ forall j, rd m j = Some 1 -> _)).
  - split; [apply bytes_zeros|]. intros j. rewrite rd_zeros. by case_decide.
  - intros y x m Hy%elem_of_range Hx%elem_of_range [Hb Hm].
    destruct (0 <? _)%float; [|done].
    destruct (hasTransparent _ _ _ _ _) eqn:E; [|done].
    split; [apply bytes_wr; [done|lia]|].
    intros j. rewrite rd_wr. case_decide as Hj; [|apply Hm].
    intros _. subst j. by exists y, x.
Qed.

Lemma pixel_at_ext (d d' : list Z) (k : Z) :
  (forall c, 0 <= c <= 3 -> rd d (4 * k + c) = rd d' (4 * k + c)) ->
  pixel_at d k = pixel_at d' k.
Proof.
  intros H. unfold pixel_at.
  rewrite <- (H 1), <- (H 2), <- (H 3) by lia.
  specialize (H 0 ltac:(lia)). rewrite Z.add_0_r in H. by rewrite H.
Qed.

Lemma removeLightEdgeArtifacts_interior : protects_interior removeLightEdgeArtifacts.
Proof.
  intros img x y Hwf Hx Hy Hop.
  pose proof Hwf as (Hw & Hh & Hlen & Hb)%well_formed_inv.
  destruct (outerEdge_inv (data img) (width img) (height img)) as [Hbm Hm].
  assert (Hinv : forall j,
    rd (removeLightEdgeArtifacts img) j = rd (data img) j
    \/ exists y' x', 0 <= x' < width img /\ j = (y' * width img + x') * 4 + 3
         /\ (get (outerEdge (data img) (width img) (height img))
                 (y' * width img + x')%Z =? 1)%float = true).
  { unfold removeLightEdgeArtifacts.
    apply (loop2_ind (fun s => forall j, rd s j = rd (data img) j \/ _)); [by left|].
    intros y' x' s _ Hx'%elem_of_range Hs j.
    destruct (get _ _ =? 1)%float eqn:E; simpl; [|apply Hs].
    destruct (_ && _); [|apply Hs]. destruct (_ <? _)%float; [|apply Hs].
    rewrite rd_set. case_decide as Hj; [|apply Hs].
    right. exists y', x'. done. }
  assert (Hsame : forall c, 0 <= c <= 3 ->
    rd (removeLightEdgeArtifacts img) (4 * pixel_index (width img) x y + c)
    = rd (data img) (4 * pixel_index (width img) x y + c)).
  { intros c Hc. destruct (Hinv (4 * pixel_index (width img) x y + c))
      as [H|(y' & x' & Hx' & Hj & H1)]; [done|exfalso].
    unfold pixel_index in Hj.
    assert (Hk : y * width img + x = y' * width img + x') by lia.
    apply pixel_index_inj in Hk as [<- <-]; [|lia..].
    apply get_byte_eq_1, Hm in H1 as (y2 & x2 & Hy2 & Hx2 & Hk & Ht); [|done].
    apply pixel_index_inj in Hk as [<- <-]; [|lia..].
    exact (transparent_not_opaque_around _ _ _ _ Hb Ht Hop). }
  by apply pixel_at_ext.
Qed.

Lemma erodePasses_one (w h : Z) (a : list Z) : erodePasses w h 1 a = erodePass w h a.
Proof. reflexivity. Qed.

Lemma erodeEdges_once_interior : protects_interior (fun img => erodeEdges img 1).
Proof.
  intros img x y Hwf Hx Hy Hop.
  pose proof Hwf as (Hw & Hh & Hlen & Hb)%well_formed_inv.
  pose proof (well_formed_pixels _ Hwf) as Hpix.
  destruct (erodeEdges_rd img 1 Hwf) as (Ha & Hrgb & _).
  pose proof (pixel_index_bound (width img) (height img) x y ltac:(lia) ltac:(lia)) as Hk.
  set (k := pixel_index (width img) x y) in *.
  assert (Halpha : rd (erodeEdges img 1) (4 * k + 3) = rd (data img) (4 * k + 3)).
  { fold (alpha_of (erodeEdges img 1) k). rewrite Ha, erodePasses_one by done.
    destruct (erodePass_inv (width img) (height img) (alphas (data img)))
      as (_ & _ & Hcases).
    destruct (Hcases k) as [-> | [_ (y' & x' & Hy' & Hx' & Hj & _ & Ht)]].
    - rewrite rd_alphas, decide_True by (by rewrite Hpix). unfold alpha_of.
      by destruct (rd_lt_Some (data img) (4 * k + 3) ltac:(lia)) as [v ->].
    - exfalso. unfold k, pixel_index in Hj.
      apply pixel_index_inj in Hj as [<- <-]; [|lia..].
      exact (transparent_alphas_not_opaque_around _ _ _ _ Hb Ht Hop). }
  apply pixel_at_ext. intros c Hc.
  destruct (decide (c = 3)) as [->|Hne]; [done|].
  apply Hrgb. intros Hm. apply Z.mod_divide in Hm as [q Hq]; lia.
Qed.

Lemma erodePasses_none (w h n : Z) (a : list Z) : n <= 0 -> erodePasses w h n a = a.
Proof.
  intros Hn. unfold erodePasses, range.
  by replace (Z.to_nat (n - 0)) with 0%nat by lia.
Qed.

Lemma erodeEdges_at_most_once_interior (pixels : Z) :
  pixels <= 1 -> protects_interior (fun img => erodeEdges img pixels).
Proof.
  intros Hn. destruct (decide (pixels = 1)) as [->|Hne];
    [apply erodeEdges_once_interior|].
  intros img x y Hwf _ _ _. simpl. f_equal.
  apply erodeEdges_fixed; [done|]. apply erodePasses_none. lia.
Qed.

(** C2 (as amended). None of the five edge filters raises the alpha of a
    fully transparent pixel above 0.  Light-edge removal, and erosion with
    at most one pass, never modify a pixel whose eight neighbours all have
    a nonzero alpha.  (Smoothing, aggressive cleanup, erosion with two or
    more passes and liquid-glass removal do modify such pixels: see the
    four lemmas that follow.) *)
Theorem edge_filters_zero_and_interior :
  never_raises_zero smoothEdges
  /\ never_raises_zero removeLightEdgeArtifacts
  /\ (forall pixels, never_raises_zero (fun img => erodeEdges img pixels))
  /\ never_raises_zero aggressiveEdgeCleanup
  /\ (forall outlineWidth brightThreshold,
        never_raises_zero
          (fun img => removeLiquidGlassOutline img outlineWidth brightThreshold))
  /\ protects_interior removeLightEdgeArtifacts
  /\ (forall pixels, pixels <= 1 ->
        protects_interior (fun img => erodeEdges img pixels)).
Proof.
  repeat split.
  - apply smoothEdges_zero.
  - apply removeLightEdgeArtifacts_zero.
  - apply erodeEdges_zero.
  - apply aggressiveEdgeCleanup_zero.
  - apply removeLiquidGlassOutline_zero.
  - apply removeLightEdgeArtifacts_interior.
  - apply erodeEdges_at_most_once_interior.
Qed.

Lemma opaque_around_centre (p c : Pixel) :
  pA p <> 0 -> opaque_around (data (centre_in p c)) 3 1 1.
Proof.
  intros Ha dx dy Hdx Hdy Hne. exists (pA p). split; [|done].
  assert (Hc : (dx = -1 \/ dx = 0 \/ dx = 1) /\ (dy = -1 \/ dy = 0 \/ dy = 1)) by lia.
  destruct Hc as [[-> | [-> | ->]] [-> | [-> | ->]]];
    first [by destruct Hne | reflexivity].
Qed.

(** Smoothing alters a half-transparent pixel surrounded by opaque ones. *)
Lemma smoothing_alters_interior : ~ protects_interior smoothEdges.
Proof.
  intros H.
  set (img := centre_in (mkPixel 0 0 0 255) (mkPixel 0 0 0 100)).
  assert (E : pixel_at (smoothEdges img) 4 = pixel_at (data img) 4).
  { apply (H img 1 1); [reflexivity | simpl; lia | simpl; lia |].
    apply opaque_around_centre. simpl. lia. }
  vm_compute in E. discriminate E.
Qed.

(** Aggressive cleanup removes a faint light pixel whose neighbours are
    faint too, although none of them is transparent. *)
Lemma cleanup_alters_interior : ~ protects_interior aggressiveEdgeCleanup.
Proof.
  intros H.
  set (img := centre_in (mkPixel 0 0 0 100) (mkPixel 255 255 255 100)).
  assert (E : pixel_at (aggressiveEdgeCleanup img) 4 = pixel_at (data img) 4).
  { apply (H img 1 1); [reflexivity | simpl; lia | simpl; lia |].
    apply opaque_around_centre. simpl. lia. }
  vm_compute in E. discriminate E.
Qed.

Lemma opaque_around_square (n x y : Z) (d : list Z) :
  forallb (fun dy => forallb (fun dx =>
      negb (default 0 (alpha_of d (pixel_index n (x + dx) (y + dy))) =? 0))
    (range (-1) 2)) (range (-1) 2) = true ->
  opaque_around d n x y.
Proof.
  intros H dx dy Hdx Hdy _.
  rewrite forallb_forall in H. specialize (H dy).
  rewrite <- list_elem_of_In, elem_of_range in H. specialize (H ltac:(lia)).
  rewrite forallb_forall in H. specialize (H dx).
  rewrite <- list_elem_of_In, elem_of_range in H. specialize (H ltac:(lia)).
  destruct (alpha_of d _) as [a|]; simpl in H; [|done].
  exists a. split; [done|]. apply negb_true_iff in H. lia.
Qed.

(** The second erosion pass removes the centre of a 3x3 opaque square,
    whose eight neighbours were all opaque in the input. *)
Lemma second_erosion_alters_interior :
  ~ protects_interior (fun img => erodeEdges img 2).
Proof.
  intros H.
  set (img := mkImageData 5 5 (concat (map (fun a => [0; 0; 255; a]) (square_in 5 1 4)))).
  assert (E : pixel_at (erodeEdges img 2) 12 = pixel_at (data img) 12).
  { apply (H img 2 2); [reflexivity | simpl; lia | simpl; lia |].
    apply opaque_around_square. reflexivity. }
  vm_compute in E. discriminate E.
Qed.

(** Liquid-glass removal clears a bright opaque pixel next to an outer-edge
    pixel, although its own eight neighbours are all opaque: here the pixel
    (2, 1) of a white 4x3 image whose pixel (0, 1) alone is transparent. *)
Lemma liquid_glass_alters_interior :
  ~ protects_interior (fun img => removeLiquidGlassOutline img 2 200%float).
Proof.
  intros H.
  set (img := mkImageData 4 3
                 (concat (map (fun k => [255; 255; 255; if k =? 4 then 0 else 255])
                              (range 0 12)))).
  assert (E : pixel_at (removeLiquidGlassOutline img 2 200%float) 6
              = pixel_at (data img) 6).
  { apply (H img 2 1); [reflexivity | simpl; lia | simpl; lia |].
    apply opaque_around_square. reflexivity. }
  vm_compute in E. discriminate E.
Qed.

(** C2 (as stated) fails, for smoothing to begin with. *)
Lemma edge_filters_invariant_fails : ~ edge_filters_invariant.
Proof.
  intros [[_ H] _]. exact (smoothing_alters_interior H).
Qed.

(** ** The orchestrator *)

(** C7. One call of [removeBackground] first mattes the image (reference
    mode when a reference is supplied, otherwise colour-key on the explicit
    target colour, otherwise colour-key on the auto-detected corner mean)
    and then applies exactly the active refinement filters in the fixed
    order smoothing, light-edge removal, erosion, aggressive cleanup,
    liquid-glass removal, each one on the output of those before it; a
    filter is active if and only if its option is (for erosion:
    [erodePixels > 0]). *)
Theorem removeBackground_pipeline (imageData : ImageData)
    (referenceBackground : option ImageData) (options : ProcessingOptions) :
  removeBackground imageData referenceBackground options
  = apply_in_order (active_steps options)
      (matte imageData (matting_mode imageData referenceBackground options)
             (default 30%float (threshold options))).
Proof.
  unfold removeBackground, active_steps, refinement_steps, matting_mode, matte.
  assert (Hmatte :
    match referenceBackground with
    | Some bgData =>
        with_data imageData
          (subtractBackground imageData bgData (default 30%float (threshold options)))
    | None =>
        if truthy (targetBackgroundColor options)
        then with_data imageData
               (removeByColor imageData
                  (hexToRgb (default EmptyString (targetBackgroundColor options)))
                  (default 30%float (threshold options)))
        else with_data imageData
               (removeByColor imageData (detectBackgroundColor imageData)
                  (default 30%float (threshold options)))
    end
    = match
        match referenceBackground with
        | Some bgData => ReferenceMode bgData
        | None =>
            match targetBackgroundColor options with
            | Some (String c s) => ColorKey (hexToRgb (String c s))
            | _ => ColorKey (detectBackgroundColor imageData)
            end
        end
      with
      | ReferenceMode bgData =>
          with_data imageData
            (subtractBackground imageData bgData (default 30%float (threshold options)))
      | ColorKey targetColor =>
          with_data imageData
            (removeByColor imageData targetColor (default 30%float (threshold options)))
      end).
  { destruct referenceBackground; [done|].
    destruct (targetBackgroundColor options) as [[|c s]|]; done. }
  cbv zeta. rewrite Hmatte. clear Hmatte.
  generalize (match
        match referenceBackground with
        | Some bgData => ReferenceMode bgData
        | None =>
            match targetBackgroundColor options with
            | Some (String c s) => ColorKey (hexToRgb (String c s))
            | _ => ColorKey (detectBackgroundColor imageData)
            end
        end
      with
      | ReferenceMode bgData =>
          with_data imageData
            (subtractBackground imageData bgData (default 30%float (threshold options)))
      | ColorKey targetColor =>
          with_data imageData
            (removeByColor imageData targetColor (default 30%float (threshold options)))
      end) as matted.
  intros matted. simpl.
  destruct (default true (edgeSmoothing options));
    destruct (default false (removeLightEdges options));
    destruct (0 <? default 0 (erodePixels options));
    destruct (default false (edgeCleanup options));
    destruct (default false (removeLiquidGlass options)); reflexivity.
Qed.

(** ** Gaussian alpha blur *)

Lemma byte_between_10_245 (v : Z) :
  0 <= v <= 255 ->
  ((10 <? JS.of_int v)%float && (JS.of_int v <? 245)%float)
  = ((10 <? v) && (v <? 245)).
Proof.
  intros Hv. apply Bool.eqb_prop.
  apply (forallb_range
           (fun v => Bool.eqb ((10 <? JS.of_int v)%float && (JS.of_int v <? 245)%float)
                              ((10 <? v) && (v <? 245))) 0 256);
    [vm_compute; reflexivity | lia].
Qed.

(** The snapshot [tempAlpha] taken at the start of a pass is the alpha
    channel. *)
Lemma gaussian_snapshot (w h : Z) (d : list Z) :
  well_formed (mkImageData w h d) = true ->
  for_each (range 0 (w * h))
    (fun i tempAlpha => set tempAlpha i (get d (i * 4 + 3))) (zeros (w * h))
  = alphas d.
Proof.
  intros Hwf. pose proof (well_formed_pixels _ Hwf) as Hpix.
  apply well_formed_inv in Hwf as (Hw & Hh & Hlen & Hb). simpl in *.
  apply list_eq_rd. intros k. rewrite rd_alphas, Hpix.
  change (for_each ?l ?body ?s)
    with (fold_left (fun acc i => slot_body (fun i => i)
            (fun i _ => Some (JS.toUint8Clamp (get d (i * 4 + 3)))) i acc) l s).
  case_decide as Hk.
  - rewrite (slot_loop_own (fun i => i)); [|done| |by apply elem_of_range].
    + rewrite rd_zeros, decide_True by done. unfold alpha_of.
      replace (k * 4 + 3) with (4 * k + 3) by lia.
      destruct (rd_lt_Some d (4 * k + 3) ltac:(lia)) as [v Hv].
      rewrite Hv. simpl. rewrite (get_of_rd _ _ _ Hv), of_int_byte_store; [done|].
      by eapply bytes_rd.
    + rewrite map_id. apply NoDup_range.
  - rewrite slot_loop_other.
    + rewrite rd_zeros. by rewrite decide_False.
    + intros i Hi%elem_of_range. lia.
Qed.

(** A loop that skips some of its indices is the loop over the others. *)
Lemma fold_left_filter {S I : Type} (p : I -> bool) (F : S -> I -> S) (l : list I)
    (s : S) :
  fold_left (fun s i => if p i then F s i else s) l s
  = fold_left F (List.filter p l) s.
Proof.
  revert s. induction l as [|i l IH]; intros s; [done|].
  simpl. destruct (p i); simpl; apply IH.
Qed.

(** The two sums of [gaussianSums], for a kernel whose entries are the
    weights [weight]: the sums over the neighbours inside the image. *)
Lemma gaussianSums_inside (kernel : list JS.num) (weight : Z -> Z -> JS.num)
    (radius w h : Z) (a : list Z) (x y : Z) :
  (forall kx ky, - radius <= kx <= radius -> - radius <= ky <= radius ->
     nget kernel ((ky + radius) * (radius * 2 + 1) + (kx + radius)) = weight kx ky) ->
  gaussianSums kernel radius w h a x y
  = (fold_left (fun sum kyx =>
                  (sum + get a ((y + kyx.1) * w + (x + kyx.2)) * weight kyx.2 kyx.1)%float)
       (window_inside radius w h x y) 0%float,
     fold_left (fun sum kyx => (sum + weight kyx.2 kyx.1)%float)
       (window_inside radius w h x y) 0%float).
Proof.
  intros Hk. unfold gaussianSums, window_inside. cbv zeta. rewrite for_each_grid.
  set (inb := fun kyx : Z * Z =>
                (0 <=? x + kyx.2) && (x + kyx.2 <? w)
                && (0 <=? y + kyx.1) && (y + kyx.1 <? h)).
  set (F := fun '(sum, weightSum) (kyx : Z * Z) =>
              ((sum + get a ((y + kyx.1) * w + (x + kyx.2)) * weight kyx.2 kyx.1)%float,
               (weightSum + weight kyx.2 kyx.1)%float)).
  rewrite (fold_left_ext _ _ (fun acc kyx => if inb kyx then F acc kyx else acc)).
  - rewrite fold_left_filter. apply fold_left_pair.
  - intros [sum weightSum] [ky kx] Hin. apply elem_of_grid in Hin as [Hy Hx].
    apply elem_of_range in Hy, Hx. unfold inb, F. simpl.
    destruct (_ && _); [|done]. by rewrite Hk by lia.
Qed.

Section GaussianPass.

Variables (kernel : list JS.num) (weight : Z -> Z -> JS.num) (radius w h : Z)
  (d : list Z).
Hypothesis Hwf : well_formed (mkImageData w h d) = true.
Hypothesis Hkernel :
  forall kx ky, - radius <= kx <= radius -> - radius <= ky <= radius ->
    nget kernel ((ky + radius) * (radius * 2 + 1) + (kx + radius)) = weight kx ky.

(** The byte the pass stores for the pixel at (x, y), if it stores one. *)
Let blurred (yx : Z * Z) (_ : list Z) : option Z :=
  let alpha := get (alphas d) (yx.1 * w + yx.2) in
  if ((10 <? alpha) && (alpha <? 245))%float then
    Some (JS.toUint8Clamp
            (JS.round (weighted_average weight radius w h (alphas d) yx.2 yx.1)))
  else None.

Lemma gaussianPass_fold :
  gaussianPass kernel radius w h d
  = fold_left (fun s yx => slot_body (fun yx : Z * Z => (yx.1 * w + yx.2) * 4 + 3)
                             blurred yx s)
      (grid (range 0 h) (range 0 w)) d.
Proof.
  unfold gaussianPass. rewrite (gaussian_snapshot _ _ _ Hwf), for_each_grid.
  apply fold_left_ext. intros s [y x] _. unfold slot_body, blurred, weighted_average.
  simpl. destruct (_ && _); [|done].
  by rewrite (gaussianSums_inside kernel weight).
Qed.

Lemma gaussianPass_alpha (x y alpha : Z) :
  0 <= x < w -> 0 <= y < h ->
  alpha_of d (pixel_index w x y) = Some alpha ->
  alpha_of (gaussianPass kernel radius w h d) (pixel_index w x y)
  = Some (if (10 <? alpha) && (alpha <? 245)
          then JS.toUint8Clamp
                 (JS.round (weighted_average weight radius w h (alphas d) x y))
          else alpha).
Proof.
  intros Hx Hy Ha. pose proof (well_formed_pixels _ Hwf) as Hpix.
  pose proof Hwf as (Hw & Hh & Hlen & Hb)%well_formed_inv. simpl in *.
  pose proof (pixel_index_bound w h x y Hx Hy) as Hk.
  unfold alpha_of in *. unfold pixel_index in *.
  replace (4 * (y * w + x) + 3) with ((y * w + x) * 4 + 3) in * by lia.
  rewrite gaussianPass_fold.
  rewrite (slot_loop_own (fun yx : Z * Z => (yx.1 * w + yx.2) * 4 + 3) blurred)
    with (i := (y, x)).
  - unfold blurred. simpl.
    assert (Hget : get (alphas d) (y * w + x) = JS.of_int alpha).
    { apply get_of_rd. rewrite rd_alphas, decide_True by lia. unfold alpha_of.
      replace (4 * (y * w + x) + 3) with ((y * w + x) * 4 + 3) by lia.
      by rewrite Ha. }
    rewrite Hget, Ha.
    rewrite byte_between_10_245 by (by eapply bytes_rd).
    by destruct (_ && _).
  - done.
  - apply NoDup_grid_slots; lia.
  - apply elem_of_grid. by rewrite !elem_of_range.
Qed.

Lemma gaussianPass_rgb (j : Z) :
  (j - 3) mod 4 <> 0 -> rd (gaussianPass kernel radius w h d) j = rd d j.
Proof.
  intros Hj. rewrite gaussianPass_fold. apply slot_loop_other.
  intros [y x] _ Heq. simpl in Heq. apply Hj. subst j.
  replace ((y * w + x) * 4 + 3 - 3) with ((y * w + x) * 4) by lia.
  apply Z_mod_mult.
Qed.

Lemma gaussianPass_well_formed :
  well_formed (mkImageData w h (gaussianPass kernel radius w h d)) = true.
Proof.
  pose proof Hwf as (Hw & Hh & Hlen & Hb)%well_formed_inv. simpl in *.
  assert (H : len (gaussianPass kernel radius w h d) = len d
              /\ bytes (gaussianPass kernel radius w h d) = true).
  { rewrite gaussianPass_fold.
    apply (fold_left_ind (fun s => len s = len d /\ bytes s = true)); [done|].
    intros yx s _ [Hl Hbs]. unfold slot_body, blurred.
    destruct (_ && _); [|done]. rewrite len_wr. split; [done|].
    apply bytes_wr; [done|apply toUint8Clamp_byte]. }
  destruct H as [Hl Hbs]. unfold well_formed. simpl.
  rewrite Hl, Hlen, Hbs.
  rewrite !andb_true_iff. repeat split; lia.
Qed.

End GaussianPass.

Lemma for_each_iter {S : Type} (F : S -> S) (n : Z) (s : S) :
  for_each (range 0 n) (fun _ s => F s) s = Nat.iter (Z.to_nat n) F s.
Proof.
  assert (H : forall (l : list Z) s,
    fold_left (fun s _ => F s) l s = Nat.iter (length l) F s).
  { intros l. induction l as [|i l IH]; intros s'; [done|].
    simpl length. rewrite Nat.iter_succ_r. simpl. apply IH. }
  unfold for_each. rewrite H. unfold range.
  by rewrite length_map, length_seq, Z.sub_0_r.
Qed.

Lemma rd_map {A B : Type} (f : A -> B) (a : list A) (i : Z) :
  rd (map f a) i = f <$> rd a i.
Proof. unfold rd. destruct (i <? 0); [done|]. apply list_lookup_fmap. Qed.

Lemma rd_replicate {A : Type} (n i : Z) (v : A) :
  0 <= i < n -> rd (replicate (Z.to_nat n) v) i = Some v.
Proof.
  intros H. unfold rd. destruct (Z.ltb_spec i 0); [lia|].
  apply lookup_replicate_2. lia.
Qed.

(** Every entry of the kernel is the Gaussian weight of its offset divided
    by the sum of all the weights. *)
Lemma generateGaussianKernel_entry (Math_exp : JS.num -> JS.num) (radius kx ky : Z) :
  - radius <= kx <= radius -> - radius <= ky <= radius ->
  nget (generateGaussianKernel Math_exp radius)
       ((ky + radius) * (radius * 2 + 1) + (kx + radius))
  = (gaussian_weight Math_exp radius kx ky / gaussian_total Math_exp radius)%float.
Proof.
  intros Hkx Hky. unfold generateGaussianKernel.
  set (size := radius * 2 + 1).
  set (R := range (- radius) (radius + 1)).
  rewrite for_each_grid.
  rewrite (fold_left_ext _ _
    (fun '(k, s) yx =>
       (wr k ((yx.1 + radius) * size + (yx.2 + radius))
           (gaussian_weight Math_exp radius yx.2 yx.1),
        (s + gaussian_weight Math_exp radius yx.2 yx.1)%float)));
    [|by intros [k s] [y x] _].
  rewrite fold_left_pair. fold (gaussian_total Math_exp radius).
  unfold nget. rewrite rd_map.
  set (slot := fun yx : Z * Z => (yx.1 + radius) * size + (yx.2 + radius)).
  change (fold_left (fun (k : list JS.num) (yx : Z * Z) =>
                       wr k ((yx.1 + radius) * size + (yx.2 + radius))
                          (gaussian_weight Math_exp radius yx.2 yx.1))
                    (grid R R) ?k0)
    with (fold_left (fun acc yx => slot_body slot
            (fun yx _ => Some (gaussian_weight Math_exp radius yx.2 yx.1)) yx acc)
            (grid R R) k0).
  change ((ky + radius) * size + (kx + radius)) with (slot (ky, kx)).
  rewrite (slot_loop_own slot); [|done| |].
  - unfold slot. simpl. rewrite rd_replicate; [done|]. unfold size. nia.
  - rewrite (map_ext _ (fun yx : Z * Z => (yx.1 * size + yx.2) * 1 + (radius * size + radius)))
      by (intros [y x]; unfold slot; simpl; lia).
    apply NoDup_grid_slots; unfold size; lia.
  - apply elem_of_grid. unfold R. rewrite !elem_of_range. lia.
Qed.

(** C8. [gaussianMethod] runs [passes] iterations one after the other.  In
    each iteration the alpha of a pixel is modified only if, at the start
    of that iteration, it lies strictly between 10 and 245; it then becomes
    the weighted average (rounded, as a stored byte) of the alpha values of
    the snapshot taken at the start of the iteration: the sum of the alphas
    of the neighbours inside the image, each times its weight, over the sum
    of those weights.  The weights are those of the normalised
    two-dimensional Gaussian of [sigma = radius / 2]: the weight of an offset
    (x, y) is [exp (-(x*x + y*y) / (2 sigma^2))] divided by the sum of these
    values over the whole window.  Every other alpha and all the R, G, B
    bytes keep their value. *)
Theorem gaussian_blur_passes (Math_exp : JS.num -> JS.num) (imageData : ImageData)
    (radius passes : Z) :
  well_formed imageData = true ->
  let w := width imageData in
  let h := height imageData in
  let pass := gaussianPass (generateGaussianKernel Math_exp radius) radius w h in
  data (gaussianMethod Math_exp imageData radius passes)
  = Nat.iter (Z.to_nat passes) pass (data imageData)
  /\ (forall d : list Z,
        well_formed (mkImageData w h d) = true ->
        well_formed (mkImageData w h (pass d)) = true
        /\ (forall x y alpha : Z,
              0 <= x < w -> 0 <= y < h ->
              alpha_of d (pixel_index w x y) = Some alpha ->
              alpha_of (pass d) (pixel_index w x y)
              = Some (if (10 <? alpha) && (alpha <? 245)
                      then JS.toUint8Clamp
                             (JS.round (weighted_average
                                          (normalised_gaussian Math_exp radius)
                                          radius w h (alphas d) x y))
                      else alpha))
        /\ (forall j : Z, (j - 3) mod 4 <> 0 -> rd (pass d) j = rd d j)).
Proof.
  intros Hwf w h pass. split.
  - unfold gaussianMethod. simpl. apply for_each_iter.
  - intros d Hd. unfold pass.
    pose proof (generateGaussianKernel_entry Math_exp radius) as Hk.
    split; [|split].
    + exact (gaussianPass_well_formed _ _ radius w h d Hd
               (fun kx ky Hx Hy => Hk kx ky Hx Hy)).
    + intros x y alpha.
      exact (gaussianPass_alpha _ _ radius w h d Hd
               (fun kx ky Hx Hy => Hk kx ky Hx Hy) x y alpha).
    + intros j.
      exact (gaussianPass_rgb _ _ radius w h d Hd
               (fun kx ky Hx Hy => Hk kx ky Hx Hy) j).
Qed.

Lemma gaussian_blur_passes_witness :
  let Math_exp := fun x : JS.num =>
    (if x =? 0 then 1
     else if x =? -2 then 0.1353352832366127
     else if x =? -4 then 0.01831563888873418
     else nan)%float in
  data (gaussianMethod Math_exp (mkImageData 2 1 [0; 0; 0; 255; 0; 0; 0; 100]) 1 2)
  = [0; 0; 0; 255; 0; 0; 0; 134].
Proof.
  intros Math_exp.
  rewrite (proj1 (gaussian_blur_passes Math_exp
                    (mkImageData 2 1 [0; 0; 0; 255; 0; 0; 0; 100]) 1 2 eq_refl)).
  vm_compute. reflexivity.
Defined.

(** ** The batch driver *)

Section BatchFacts.

Context {File Blob : Type}.
Variable removeBackground_of : File -> Settled Blob.
Variable createPreview : Blob -> Settled string.

Lemma alter_middle (f : ProcessedFile File Blob -> ProcessedFile File Blob)
    (pre post : list (ProcessedFile File Blob)) (file : ProcessedFile File Blob) :
  alter f (length pre) (pre ++ file :: post) = pre ++ f file :: post.
Proof. rewrite alter_app_r_alt by lia. by rewrite Nat.sub_diag. Qed.

(** [processFile] on an entry that is where its index says: it rewrites
    that entry only, and completes normally, whatever was thrown inside,
    unless a promise it awaits is never settled. *)
Lemma processFile_entry (pre post : list (ProcessedFile File Blob))
    (file : ProcessedFile File Blob) :
  match status file with Pending | Error => True | _ => False end ->
  processFile File Blob removeBackground_of createPreview file (length pre)
    (pre ++ file :: post)
  = (if stalls removeBackground_of createPreview file then Unsettled else Resolved tt,
     pre ++ outcome_of removeBackground_of createPreview file :: post).
Proof.
  intros Hs. unfold processFile, try_catch, bind, setFiles, await, update_at,
    outcome_of, stalls.
  rewrite alter_middle. simpl.
  destruct (removeBackground_of (original file)) as [blob|e|]; simpl.
  - destruct (createPreview blob) as [url|e|]; simpl;
      rewrite ?alter_middle; simpl; by destruct (status file).
  - rewrite alter_middle. simpl. by destruct (status file).
  - by destruct (status file).
Qed.

(** Whatever the state, nothing is thrown out of [processFile]. *)
Lemma processFile_never_rejects (file : ProcessedFile File Blob) (index : nat)
    (files : list (ProcessedFile File Blob)) :
  (processFile File Blob removeBackground_of createPreview file index files).1
  = Resolved tt
  \/ (processFile File Blob removeBackground_of createPreview file index files).1
     = Unsettled.
Proof.
  unfold processFile, try_catch, bind, setFiles, await. simpl.
  destruct (removeBackground_of (original file)) as [blob|e|]; simpl; [|by left|by right].
  destruct (createPreview blob); simpl; auto.
Qed.

(** The loop of [startBatchProcessing], once the entries [pre] have been
    dealt with, leaving [state_pre] in their place, and the entries [todo]
    are still to come. *)
Lemma batch_loop (snapshot pre todo state_pre : list (ProcessedFile File Blob)) :
  snapshot = pre ++ todo -> length state_pre = length pre ->
  for_of File Blob (seq (length pre) (length todo))
    (fun i =>
       match snapshot !! i with
       | Some file =>
           match status file with
           | Pending | Error =>
               bind File Blob
                 (processFile File Blob removeBackground_of createPreview file i)
                 (fun _ => await File Blob (Resolved tt))
           | _ => ret File Blob tt
           end
       | None => ret File Blob tt
       end)
    (state_pre ++ todo)
  = (if existsb (stalls removeBackground_of createPreview) todo
     then Unsettled else Resolved tt,
     state_pre ++ batch_state removeBackground_of createPreview todo).
Proof.
  revert pre state_pre. induction todo as [|file rest IH]; intros pre state_pre -> Hlen.
  - done.
  - cbn [length seq for_of existsb batch_state]. unfold bind at 1.
    rewrite list_lookup_middle by done.
    assert (Hnext : forall f,
      for_of File Blob (seq (S (length pre)) (length rest))
        (fun i =>
           match (pre ++ file :: rest) !! i with
           | Some file0 =>
               match status file0 with
               | Pending | Error =>
                   bind File Blob
                     (processFile File Blob removeBackground_of createPreview file0 i)
                     (fun _ => await File Blob (Resolved tt))
               | _ => ret File Blob tt
               end
           | None => ret File Blob tt
           end) (state_pre ++ f :: rest)
      = (if existsb (stalls removeBackground_of createPreview) rest
         then Unsettled else Resolved tt,
         state_pre ++ f :: batch_state removeBackground_of createPreview rest)).
    { intros f. specialize (IH (pre ++ [file]) (state_pre ++ [f])).
      rewrite !length_app, <- !app_assoc in IH. simpl in IH.
      rewrite !Nat.add_1_r in IH. apply IH; [done|]. by rewrite Hlen. }
    assert (Hskip : match status file with Pending | Error => False | _ => True end ->
              outcome_of removeBackground_of createPreview file = file
              /\ stalls removeBackground_of createPreview file = false).
    { unfold outcome_of, stalls. by destruct (status file). }
    assert (Hrun : match status file with Pending | Error => True | _ => False end ->
              processFile File Blob removeBackground_of createPreview file (length pre)
                (state_pre ++ file :: rest)
              = (if stalls removeBackground_of createPreview file
                 then Unsettled else Resolved tt,
                 state_pre ++ outcome_of removeBackground_of createPreview file :: rest)).
    { intros H. rewrite <- Hlen. by apply processFile_entry. }
    destruct (status file).
    + unfold bind at 1. rewrite Hrun by done.
      destruct (stalls _ _ file); [done|]. unfold await at 1. simpl. apply Hnext.
    + unfold ret at 1. destruct Hskip as [-> ->]; [done|]. apply Hnext.
    + unfold ret at 1. destruct Hskip as [-> ->]; [done|]. apply Hnext.
    + unfold bind at 1. rewrite Hrun by done.
      destruct (stalls _ _ file); [done|]. unfold await at 1. simpl. apply Hnext.
Qed.

(** What a batch started on [files] gives. *)
Lemma startBatchProcessing_spec (files : list (ProcessedFile File Blob)) :
  startBatchProcessing File Blob removeBackground_of createPreview files files
  = (if existsb (stalls removeBackground_of createPreview) files
     then Unsettled else Resolved tt,
     batch_state removeBackground_of createPreview files).
Proof.
  unfold startBatchProcessing, try_finally.
  apply (batch_loop files [] files [] eq_refl eq_refl).
Qed.

(** Without a stalling entry the batch leaves the outcome of every entry. *)
Lemma batch_state_settled (files : list (ProcessedFile File Blob)) :
  existsb (stalls removeBackground_of createPreview) files = false ->
  batch_state removeBackground_of createPreview files
  = map (outcome_of removeBackground_of createPreview) files.
Proof.
  induction files as [|f files IH]; [done|]. simpl.
  intros [-> H]%orb_false_elim. by rewrite IH.
Qed.

End BatchFacts.

(** C9. Per-image error isolation fails for one failure of the code: when
    [canvas.toBlob] calls back with [null], [removeBackground] throws inside
    the callback, where nothing rejects its promise.  In a batch of two
    pending files for which [toBlob] gives [null], the batch never completes,
    the first file is left in the processing state without an error message,
    and the second file is never processed. *)
Theorem toBlob_null_stalls_batch :
  let pixels_of := fun _ : string => Resolved (mkImageData 1 1 [10; 20; 30; 255]) in
  let toBlob := fun _ : ImageData => @None nat in
  let options := mkProcessingOptions None None None None None None None None None in
  let removeBackground_of := fun file : string =>
    removeBackground_promise pixels_of toBlob file None options in
  let files := [pending_entry (Blob := nat) "a.png"%string;
                pending_entry "b.png"%string] in
  startBatchProcessing string nat removeBackground_of
    (fun _ => Resolved "data:"%string) files files
  = (Unsettled,
     [mkProcessedFile "a.png"%string None None Processing None;
      mkProcessedFile "b.png"%string None None Pending None]).
Proof. vm_compute. reflexivity. Qed.

(** ** Colour-key matting *)

Lemma forallb_range2 (P : Z -> Z -> bool) (lo1 hi1 lo2 hi2 : Z) :
  forallb (fun a => forallb (P a) (range lo2 hi2)) (range lo1 hi1) = true ->
  forall a b', lo1 <= a < hi1 -> lo2 <= b' < hi2 -> P a b' = true.
Proof.
  intros H a b' Ha Hb.
  apply (forallb_range (P a) lo2 hi2); [|done].
  by apply (forallb_range (fun a => forallb (P a) (range lo2 hi2)) lo1 hi1).
Qed.

(** On bytes the differences and sums of the loop are exact. *)
Lemma abs_diff_bytes (x y : Z) :
  0 <= x <= 255 -> 0 <= y <= 255 ->
  JS.abs (JS.of_int x - JS.of_int y)%float = JS.of_int (Z.abs (x - y)).
Proof.
  intros Hx Hy. apply FloatAxioms.Leibniz.eqb_spec.
  apply (forallb_range2
           (fun x y => PrimFloat.Leibniz.eqb (JS.abs (JS.of_int x - JS.of_int y)%float)
                                              (JS.of_int (Z.abs (x - y)))) 0 256 0 256);
    [vm_compute; reflexivity | lia..].
Qed.

Lemma add_small_ints (x y : Z) :
  0 <= x <= 510 -> 0 <= y <= 255 ->
  (JS.of_int x + JS.of_int y)%float = JS.of_int (x + y).
Proof.
  intros Hx Hy. apply FloatAxioms.Leibniz.eqb_spec.
  apply (forallb_range2
           (fun x y => PrimFloat.Leibniz.eqb (JS.of_int x + JS.of_int y)%float
                                              (JS.of_int (x + y))) 0 511 0 256);
    [vm_compute; reflexivity | lia..].
Qed.

(** The replacement alpha is 255 whenever the mean difference is not below
    the threshold. *)
Lemma replacement_alpha_255 (s t : Z) :
  0 <= s <= 765 -> 1 <= t <= 255 ->
  ((JS.of_int s / 3) <? JS.of_int t)%float = false ->
  (JS.min 255 (((JS.of_int s / 3) / JS.of_int t) * 255))%float = 255%float.
Proof.
  intros Hs Ht Hlt. apply FloatAxioms.Leibniz.eqb_spec.
  pose proof (forallb_range2
    (fun s t =>
       if ((JS.of_int s / 3) <? JS.of_int t)%float then true
       else PrimFloat.Leibniz.eqb
              (JS.min 255 (((JS.of_int s / 3) / JS.of_int t) * 255))%float 255%float)
    0 766 1 256 ltac:(vm_compute; reflexivity) s t ltac:(lia) ltac:(lia)) as H.
  simpl in H. by rewrite Hlt in H.
Qed.

Lemma min_byte_255 (a : Z) :
  0 <= a <= 255 -> JS.toUint8Clamp (JS.min (JS.of_int a) 255%float) = a.
Proof.
  intros Ha. apply Z.eqb_eq.
  apply (forallb_range (fun a => JS.toUint8Clamp (JS.min (JS.of_int a) 255%float) =? a)
           0 256); [vm_compute; reflexivity | lia].
Qed.

Lemma removeByColor_body_alpha (targetColor : RGB) (threshold : JS.num) (i : Z)
    (d : list Z) :
  removeByColor_body targetColor threshold i d
  = alpha_body (colorKey_alpha targetColor threshold) i d.
Proof.
  unfold removeByColor_body, alpha_body, colorKey_alpha, set.
  destruct targetColor as [tr tg tb]. simpl.
  by destruct (_ <? _)%float.
Qed.

Lemma colorKey_alpha_local (targetColor : RGB) (threshold : JS.num) (i : Z)
    (d d' : list Z) :
  (forall j, i <= j <= i + 3 -> rd d j = rd d' j) ->
  colorKey_alpha targetColor threshold i d = colorKey_alpha targetColor threshold i d'.
Proof.
  intros H. unfold colorKey_alpha.
  rewrite (get_ext d d' i), (get_ext d d' (i + 1)), (get_ext d d' (i + 2)),
    (get_ext d d' (i + 3)) by (apply H; lia).
  done.
Qed.

Lemma removeByColor_rd (imageData : ImageData) (targetColor : RGB) (threshold : JS.num)
    (j : Z) :
  rd (removeByColor imageData targetColor threshold) j
  = match colorKey_alpha targetColor threshold (j - 3) (data imageData) with
    | Some v => if decide ((j - 3) mod 4 = 0) then
                  match rd (data imageData) j with Some _ => Some v | None => None end
                else rd (data imageData) j
    | None => rd (data imageData) j
    end.
Proof.
  unfold removeByColor.
  rewrite (for_each_ext _ _ (alpha_body (colorKey_alpha targetColor threshold)))
    by apply removeByColor_body_alpha.
  apply alpha_loop_spec, colorKey_alpha_local.
Qed.

(** C10. Colour-key matting is binary.  For a target colour with integer
    channels and an integer threshold from 1 to 255 (which covers the
    slider's range 1 to 100): a pixel whose mean absolute channel
    difference from the target is below the threshold gets alpha 0, and any
    other pixel is left exactly as it was, because the replacement alpha
    [min (255, (diff / threshold) * 255)] is then 255 and the minimum with
    the existing alpha is the existing alpha: no partial fade occurs. *)
Theorem color_key_is_binary (imageData : ImageData) (tr tg tb t k : Z) (p : Pixel) :
  bytes (data imageData) = true ->
  0 <= tr <= 255 -> 0 <= tg <= 255 -> 0 <= tb <= 255 ->
  1 <= t <= 255 ->
  pixel_at (data imageData) k = Some p ->
  let target := mkRGB (JS.of_int tr) (JS.of_int tg) (JS.of_int tb) in
  let threshold := JS.of_int t in
  pixel_at (removeByColor imageData target threshold) k
  = Some (if (totalDiff p target <? threshold)%float then with_alpha p 0 else p)
  /\ ((totalDiff p target <? threshold)%float = false ->
      (JS.min 255 ((totalDiff p target / threshold) * 255))%float = 255%float).
Proof.
  intros Hb Htr Htg Htb Ht Hp target threshold.
  pose proof Hp as Hp'. unfold pixel_at in Hp'.
  destruct (rd (data imageData) (4 * k)) as [r0|] eqn:E0; [|done].
  destruct (rd (data imageData) (4 * k + 1)) as [g0|] eqn:E1; [|done].
  destruct (rd (data imageData) (4 * k + 2)) as [b0|] eqn:E2; [|done].
  destruct (rd (data imageData) (4 * k + 3)) as [a0|] eqn:E3; [|done].
  injection Hp' as <-.
  pose proof (bytes_rd _ _ _ Hb E0) as Hr0. pose proof (bytes_rd _ _ _ Hb E1) as Hg0.
  pose proof (bytes_rd _ _ _ Hb E2) as Hb0. pose proof (bytes_rd _ _ _ Hb E3) as Ha0.
  assert (Htotal : totalDiff (mkPixel r0 g0 b0 a0) target
    = (JS.of_int (Z.abs (r0 - tr) + Z.abs (g0 - tg) + Z.abs (b0 - tb)) / 3)%float).
  { unfold totalDiff, target. simpl.
    rewrite !abs_diff_bytes, !add_small_ints by lia. done. }
  split.
  - assert (Hrgb : forall c, 0 <= c < 3 ->
      rd (removeByColor imageData target threshold) (4 * k + c)
      = rd (data imageData) (4 * k + c)).
    { intros c Hc. rewrite removeByColor_rd.
      destruct (colorKey_alpha _ _ _ _); [|done].
      rewrite decide_False; [done|].
      intros Hm. apply Z.mod_divide in Hm as [q Hq]; lia. }
    assert (Halpha : rd (removeByColor imageData target threshold) (4 * k + 3)
      = Some (if (totalDiff (mkPixel r0 g0 b0 a0) target <? threshold)%float
              then 0 else a0)).
    { rewrite removeByColor_rd. replace (4 * k + 3 - 3) with (4 * k) by lia.
      unfold colorKey_alpha.
      rewrite (get_of_rd _ _ _ E0), (get_of_rd _ _ _ E1), (get_of_rd _ _ _ E2),
        (get_of_rd _ _ _ E3).
      change ((JS.abs (JS.of_int r0 - r target) + JS.abs (JS.of_int g0 - g target)
               + JS.abs (JS.of_int b0 - b target)) / 3)%float
        with (totalDiff (mkPixel r0 g0 b0 a0) target).
      destruct (totalDiff _ _ <? threshold)%float eqn:Hlt.
      - rewrite decide_True by (rewrite Z.mul_comm; apply Z_mod_mult).
        by rewrite E3.
      - rewrite decide_True by (rewrite Z.mul_comm; apply Z_mod_mult).
        rewrite E3. rewrite Htotal in *. unfold threshold in *.
        rewrite replacement_alpha_255 by (done || lia).
        by rewrite min_byte_255. }
    unfold pixel_at. rewrite Halpha.
    rewrite <- (Z.add_0_r (4 * k)) at 1. rewrite !Hrgb by lia.
    rewrite Z.add_0_r, E0, E1, E2.
    by destruct (_ <? _)%float.
  - rewrite Htotal. unfold threshold. intros Hlt.
    apply replacement_alpha_255; (done || lia).
Qed.

Lemma color_key_is_binary_witness :
  pixel_at (removeByColor (mkImageData 2 1 [250; 250; 250; 200; 10; 20; 30; 200])
              (mkRGB 255 255 255)%float 30%float) 0
  = Some (mkPixel 250 250 250 0)
  /\ pixel_at (removeByColor (mkImageData 2 1 [250; 250; 250; 200; 10; 20; 30; 200])
                 (mkRGB 255 255 255)%float 30%float) 1
     = Some (mkPixel 10 20 30 200).
Proof.
  split.
  - apply (color_key_is_binary (mkImageData 2 1 [250; 250; 250; 200; 10; 20; 30; 200])
             255 255 255 30 0 (mkPixel 250 250 250 200)); try reflexivity; lia.
  - apply (color_key_is_binary (mkImageData 2 1 [250; 250; 250; 200; 10; 20; 30; 200])
             255 255 255 30 1 (mkPixel 10 20 30 200)); try reflexivity; lia.
Defined.

(** ** Binary64 multiplication: rounding of a product *)

Lemma iter_pos_nat {A : Type} (f : A -> A) (p : positive) (x : A) :
  SpecFloat.iter_pos f p x = Nat.iter (Pos.to_nat p) f x.
Proof.
  revert x. induction p as [p IH|p IH|]; intros x.
  - rewrite Pos2Nat.inj_xI. cbn [SpecFloat.iter_pos]. rewrite !IH.
    replace (S (2 * Pos.to_nat p)) with (Pos.to_nat p + S (Pos.to_nat p))%nat by lia.
    rewrite Nat.iter_add, Nat.iter_succ_r. reflexivity.
  - rewrite Pos2Nat.inj_xO. cbn [SpecFloat.iter_pos]. rewrite !IH.
    replace (2 * Pos.to_nat p)%nat with (Pos.to_nat p + Pos.to_nat p)%nat by lia.
    by rewrite Nat.iter_add.
  - reflexivity.
Qed.

Lemma shr_1_spec (m : Z) (r s : bool) :
  0 <= m ->
  shr_m (shr_1 (Build_shr_record m r s)) = m / 2
  /\ shr_r (shr_1 (Build_shr_record m r s)) = Z.odd m.
Proof.
  intros Hm. destruct m as [|[p|p|]|p]; simpl; try lia; split; try reflexivity.
  - rewrite Pos2Z.inj_xI. apply (Z.div_unique _ 2 _ 1); lia.
  - rewrite Pos2Z.inj_xO. apply (Z.div_unique _ 2 _ 0); lia.
Qed.

Lemma shr_iter (n : nat) (M : Z) :
  0 <= M ->
  shr_m (Nat.iter (S n) shr_1 (Build_shr_record M false false)) = M / 2 ^ Z.of_nat (S n)
  /\ shr_r (Nat.iter (S n) shr_1 (Build_shr_record M false false))
     = Z.odd (M / 2 ^ Z.of_nat n).
Proof.
  intros HM. induction n as [|n IH].
  - change (Nat.iter 1 shr_1 ?x) with (shr_1 x).
    destruct (shr_1_spec M false false HM) as [H1 H2].
    rewrite H1, H2. change (2 ^ Z.of_nat 1) with 2.
    change (2 ^ Z.of_nat 0) with 1. by rewrite Z.div_1_r.
  - change (Nat.iter (S (S n)) shr_1 ?x) with (shr_1 (Nat.iter (S n) shr_1 x)).
    destruct (Nat.iter (S n) shr_1 _) as [m r s] eqn:E. simpl in IH.
    destruct IH as [IHm IHr].
    assert (Hm : 0 <= m) by (rewrite IHm; apply Z.div_pos; lia).
    destruct (shr_1_spec m r s Hm) as [H1 H2]. rewrite H1, H2, IHm. split; [|done].
    rewrite Z.div_div by lia. f_equal.
    rewrite (Nat2Z.inj_succ (S n)), Z.pow_succ_r by lia. lia.
Qed.

Lemma digits2_bounds (p : positive) :
  2 ^ (Z.pos (digits2_pos p) - 1) <= Z.pos p < 2 ^ Z.pos (digits2_pos p).
Proof.
  induction p as [p IH|p IH|]; simpl digits2_pos.
  - rewrite Pos2Z.inj_succ. change (Z.pos p~1) with (2 * Z.pos p + 1).
    set (d := Z.pos (digits2_pos p)) in *. assert (0 < d) by (unfold d; lia).
    replace (Z.succ d - 1) with (Z.succ (d - 1)) by lia.
    rewrite !Z.pow_succ_r by lia. lia.
  - rewrite Pos2Z.inj_succ. change (Z.pos p~0) with (2 * Z.pos p).
    set (d := Z.pos (digits2_pos p)) in *. assert (0 < d) by (unfold d; lia).
    replace (Z.succ d - 1) with (Z.succ (d - 1)) by lia.
    rewrite !Z.pow_succ_r by lia. lia.
  - simpl. lia.
Qed.

Lemma digits2_unique (p : positive) (k : Z) :
  2 ^ (k - 1) <= Z.pos p < 2 ^ k -> Z.pos (digits2_pos p) = k.
Proof.
  intros [H1 H2]. destruct (digits2_bounds p) as [H3 H4].
  assert (0 < k).
  { destruct (Z.lt_trichotomy k 0) as [Hk|[->|Hk]]; [|simpl in H2; lia|done].
    rewrite Z.pow_neg_r in H2 by done. lia. }
  assert (Z.pos (digits2_pos p) - 1 < k).
  { apply (Z.pow_lt_mono_r_iff 2); lia. }
  assert (k - 1 < Z.pos (digits2_pos p)).
  { apply (Z.pow_lt_mono_r_iff 2); lia. }
  lia.
Qed.

(** [shr_fexp] in the normal range: the mantissa is cut down to 53 digits. *)
Lemma shr_fexp_normal (M : positive) (E k : Z) :
  Z.pos (digits2_pos M) = 53 + k -> 0 <= k -> -1074 <= E + k ->
  shr_fexp prec emax (Z.pos M) E loc_Exact
  = (Nat.iter (Z.to_nat k) shr_1 (Build_shr_record (Z.pos M) false false), E + k).
Proof.
  intros Hd Hk HE. unfold shr_fexp, fexp, SpecFloat.emin, shr. simpl Zdigits2.
  rewrite Hd. change prec with 53. change emax with 1024.
  replace (Z.max (53 + k + E - 53) (3 - 1024 - 53) - E) with k by lia.
  simpl shr_record_of_loc.
  destruct k as [|p|p]; [by rewrite Z.add_0_r| |lia].
  by rewrite iter_pos_nat.
Qed.

Lemma round_nearest_even_cases (q : Z) (mrs : shr_record) :
  shr_m mrs = q ->
  let m1 := round_nearest_even (shr_m mrs) (loc_of_shr_record mrs) in
  (m1 = q \/ m1 = q + 1)
  /\ (shr_r mrs = false -> m1 = q)
  /\ (shr_r mrs = true -> Z.odd q = true -> m1 = q + 1).
Proof.
  intros Hq. destruct mrs as [m r s]. simpl in *. subst m.
  destruct r, s; simpl; repeat split; try (intros; discriminate); auto;
    try (destruct (Z.even q) eqn:E; auto);
    intros _ Hodd; rewrite <- Z.negb_even in Hodd; rewrite E in Hodd; done.
Qed.

(** Rounding a product of two 53-digit mantissas: the result has 53 digits;
    its exponent is [E + s], or [E + s + 1] when rounding carries into the
    next binade. *)
Lemma round_product (P : positive) (E s : Z) :
  Z.pos (digits2_pos P) = 53 + s -> 1 <= s ->
  -1074 <= E + s -> E + s + 1 <= 971 ->
  exists (m : positive) (e : Z),
    binary_round_aux prec emax false (Z.pos P) E loc_Exact = S754_finite false m e
    /\ Z.pos (digits2_pos m) = 53
    /\ (e = E + s \/ e = E + s + 1)
    /\ (Z.pos P / 2 ^ s = 2 ^ 53 - 1 -> Z.odd (Z.pos P / 2 ^ (s - 1)) = true ->
        e = E + s + 1)
    /\ (e = E + s + 1 ->
        Z.pos P / 2 ^ s = 2 ^ 53 - 1 /\ Z.odd (Z.pos P / 2 ^ (s - 1)) = true)
    /\ (e = E + s ->
        Z.pos m = Z.pos P / 2 ^ s
        \/ (Z.pos m = Z.pos P / 2 ^ s + 1 /\ Z.odd (Z.pos P / 2 ^ (s - 1)) = true))
    /\ (e = E + s + 1 -> Z.pos m = 2 ^ 52).
Proof.
  intros Hd Hs Hlo Hhi. unfold binary_round_aux.
  rewrite (shr_fexp_normal P E s) by lia.
  destruct (Z.to_nat s) as [|n] eqn:En; [lia|].
  destruct (shr_iter n (Z.pos P) ltac:(lia)) as [Hm Hr].
  replace (Z.of_nat (S n)) with s in Hm by lia.
  replace (Z.of_nat n) with (s - 1) in Hr by lia.
  set (mrs := Nat.iter (S n) shr_1 _) in *.
  set (q := Z.pos P / 2 ^ s) in *.
  assert (Hq : 2 ^ 52 <= q < 2 ^ 53).
  { destruct (digits2_bounds P) as [H1 H2]. rewrite Hd in H1, H2.
    replace (53 + s - 1) with (52 + s) in H1 by lia.
    rewrite Z.pow_add_r in H1, H2 by lia. unfold q. split.
    - apply Z.div_le_lower_bound; [apply Z.pow_pos_nonneg; lia|lia].
    - apply Z.div_lt_upper_bound; [apply Z.pow_pos_nonneg; lia|lia]. }
  destruct (round_nearest_even_cases q mrs Hm) as (Hcases & Hdown & Hup).
  set (m1 := round_nearest_even (shr_m mrs) (loc_of_shr_record mrs)) in *.
  assert (Hm1 : 2 ^ 52 <= m1 <= 2 ^ 53) by lia.
  destruct m1 as [|pm|pm] eqn:Em1; [lia| |lia].
  destruct (decide (Z.pos pm = 2 ^ 53)) as [Hcarry|Hno].
  - rewrite (shr_fexp_normal pm (E + s) 1); [| |lia|lia].
    2:{ apply digits2_unique. rewrite Hcarry. simpl. lia. }
    change (Z.to_nat 1) with 1%nat. change (Nat.iter 1 shr_1 ?x) with (shr_1 x).
    destruct (shr_1_spec (Z.pos pm) false false ltac:(lia)) as [H1 _].
    rewrite H1, Hcarry. change (2 ^ 53 / 2) with (Z.pos (2 ^ 52)).
    cbv iota beta.
    destruct (Z.leb_spec (E + s + 1) (emax - prec)) as [_|Hbad];
      [|change emax with 1024 in Hbad; change prec with 53 in Hbad; lia].
    exists (2 ^ 52)%positive, (E + s + 1). split; [done|]. split; [done|].
    split; [by right|]. split; [done|]. split; [|split; [lia|done]]. intros _.
    assert (Hq1 : q = 2 ^ 53 - 1) by lia. split; [done|].
    destruct (shr_r mrs) eqn:Er; [by rewrite <- Hr|]. specialize (Hdown eq_refl). lia.
  - rewrite (shr_fexp_normal pm (E + s) 0); [| |lia|lia].
    2:{ apply digits2_unique. simpl. lia. }
    simpl Nat.iter. simpl shr_m. rewrite Z.add_0_r.
    destruct (Z.leb_spec (E + s) (emax - prec)) as [_|Hbad];
      [|change emax with 1024 in Hbad; change prec with 53 in Hbad; lia].
    exists pm, (E + s). split; [done|]. split.
    { apply digits2_unique. simpl. lia. }
    split; [by left|]. split; [|split; [lia|split; [|lia]]].
    + intros Hq1 Hodd. exfalso. apply Hno.
      rewrite Hup; [lia|by rewrite Hr|].
      rewrite Hq1. reflexivity.
    + intros _. destruct (shr_r mrs) eqn:Er.
      * destruct Hcases as [Hc|Hc]; [by left|right]. by rewrite <- Hr.
      * left. by apply Hdown.
Qed.

Lemma digits2_product (mx my : positive) :
  Z.pos (digits2_pos mx) = 53 -> Z.pos (digits2_pos my) = 53 ->
  Z.pos (digits2_pos (mx * my)) = 53 + 52 \/ Z.pos (digits2_pos (mx * my)) = 53 + 53.
Proof.
  intros Hx Hy.
  pose proof (digits2_bounds mx) as Bx. pose proof (digits2_bounds my) as By.
  rewrite Hx in Bx. rewrite Hy in By.
  change (2 ^ (53 - 1)) with 4503599627370496 in *.
  change (2 ^ 53) with 9007199254740992 in *.
  destruct (Z_lt_ge_dec (Z.pos (mx * my)) (2 ^ 105)) as [Hlt|Hge].
  - left. apply digits2_unique. rewrite Pos2Z.inj_mul in *.
    change (2 ^ (53 + 52 - 1)) with (4503599627370496 * 4503599627370496).
    change (2 ^ (53 + 52)) with (2 ^ 105). nia.
  - right. apply digits2_unique. rewrite Pos2Z.inj_mul in *.
    change (2 ^ (53 + 53 - 1)) with (2 ^ 105).
    change (2 ^ (53 + 53)) with (9007199254740992 * 9007199254740992). nia.
Qed.

(** The product of two positive normal numbers, and when it lies below the
    midpoint of [1/2] and its predecessor. *)
Lemma mul_normal (x y : float) (mx my : positive) (ex ey : Z) :
  Prim2SF x = S754_finite false mx ex -> Prim2SF y = S754_finite false my ey ->
  Z.pos (digits2_pos mx) = 53 -> Z.pos (digits2_pos my) = 53 ->
  -1000 <= ex + ey <= -55 ->
  exists (m : positive) (e : Z),
    Prim2SF (x * y) = S754_finite false m e
    /\ Z.pos (digits2_pos m) = 53
    /\ -1074 <= e <= ex + ey + 54
    /\ (e <= -54 <-> Z.pos (mx * my) < (2 ^ 54 - 1) * 2 ^ (- (ex + ey) - 55)).
Proof.
  intros Fx Fy Dx Dy HE.
  rewrite FloatAxioms.mul_spec, Fx, Fy. unfold SF64mul, SFmul. cbn [xorb].
  set (P := (mx * my)%positive). set (E := ex + ey) in *.
  set (K := - E - 55). assert (HK : 0 <= K) by lia.
  assert (HX : 0 < 2 ^ K) by (apply Z.pow_pos_nonneg; lia).
  pose proof (digits2_bounds P) as BP.
  destruct (digits2_product mx my Dx Dy) as [Hd|Hd]; fold P in Hd; rewrite Hd in BP.
  - destruct (round_product P E 52 Hd ltac:(lia) ltac:(lia) ltac:(lia))
      as (m & e & -> & Dm & He & Hcarry & Hback & _).
    exists m, e. split; [done|]. split; [done|]. split; [lia|].
    change (2 ^ (53 + 52 - 1)) with (2 ^ 104) in BP.
    change (2 ^ (53 + 52)) with (2 ^ 105) in BP.
    change (2 ^ (52 - 1)) with (2 ^ 51) in *.
    destruct (Z_le_gt_dec 52 K) as [HK1|HK1].
    + pose proof (Z.pow_le_mono_r 2 52 K ltac:(lia) HK1). split; [|lia].
      intros _. change (2 ^ 54) with (4 * 2 ^ 52). change (2 ^ 105) with (2 ^ 53 * 2 ^ 52) in BP.
      nia.
    + destruct (Z.eq_dec K 51) as [HK2|HK2].
      * rewrite HK2. split.
        -- intros Hle. assert (e = E + 52) as -> by lia.
           destruct (Z.eq_dec (Z.pos P / 2 ^ 51) (2 ^ 54 - 1)) as [Hu|Hu].
           ++ assert (Z.pos P / 2 ^ 52 = 2 ^ 53 - 1).
              { change (2 ^ 52) with (2 ^ 51 * 2). rewrite <- Z.div_div by lia.
                rewrite Hu. reflexivity. }
              assert (Z.odd (Z.pos P / 2 ^ 51) = true) by (rewrite Hu; reflexivity).
              specialize (Hcarry ltac:(done) ltac:(done)). lia.
           ++ assert (Z.pos P / 2 ^ 51 < 2 ^ 54).
              { apply Z.div_lt_upper_bound; [lia|].
                change (2 ^ 105) with (2 ^ 51 * 2 ^ 54) in BP. lia. }
              assert (Z.pos P / 2 ^ 51 <= 2 ^ 54 - 2) by lia.
              pose proof (Z.mod_pos_bound (Z.pos P) (2 ^ 51) ltac:(lia)).
              pose proof (Z.div_mod (Z.pos P) (2 ^ 51) ltac:(lia)). nia.
        -- intros Hlt. destruct He as [->| ->]; [lia|].
           destruct (Hback eq_refl) as [Hq Ho]. exfalso.
           assert (Z.pos P / 2 ^ 51 = 2 ^ 54 - 1).
           { pose proof (Z.div_mod (Z.pos P / 2 ^ 51) 2 ltac:(lia)) as Hdm.
             rewrite Z.div_div in Hdm by lia. change (2 ^ 51 * 2) with (2 ^ 52) in Hdm.
             rewrite Hq in Hdm. rewrite Zmod_odd, Ho in Hdm.
             rewrite Hdm. reflexivity. }
           pose proof (Z.mul_div_le (Z.pos P) (2 ^ 51) ltac:(lia)). lia.
      * assert (HK3 : K <= 50) by lia.
        pose proof (Z.pow_le_mono_r 2 K 50 ltac:(lia) HK3). split.
        -- intros Hle. lia.
        -- intros Hlt. exfalso. change (2 ^ 104) with (2 ^ 54 * 2 ^ 50) in BP. nia.
  - destruct (round_product P E 53 Hd ltac:(lia) ltac:(lia) ltac:(lia))
      as (m & e & -> & Dm & He & Hcarry & Hback & _).
    exists m, e. split; [done|]. split; [done|]. split; [lia|].
    change (2 ^ (53 + 53 - 1)) with (2 ^ 105) in BP.
    change (2 ^ (53 + 53)) with (2 ^ 106) in BP.
    change (2 ^ (53 - 1)) with (2 ^ 52) in *.
    destruct (Z_le_gt_dec 53 K) as [HK1|HK1].
    + pose proof (Z.pow_le_mono_r 2 53 K ltac:(lia) HK1). split; [|lia].
      intros _. change (2 ^ 54) with (2 * 2 ^ 53). change (2 ^ 106) with (2 ^ 53 * 2 ^ 53) in BP.
      nia.
    + destruct (Z.eq_dec K 52) as [HK2|HK2].
      * rewrite HK2. split.
        -- intros Hle. assert (e = E + 53) as -> by lia.
           destruct (Z.eq_dec (Z.pos P / 2 ^ 52) (2 ^ 54 - 1)) as [Hu|Hu].
           ++ assert (Z.pos P / 2 ^ 53 = 2 ^ 53 - 1).
              { change (2 ^ 53) with (2 ^ 52 * 2) at 1. rewrite <- Z.div_div by lia.
                rewrite Hu. reflexivity. }
              assert (Z.odd (Z.pos P / 2 ^ 52) = true) by (rewrite Hu; reflexivity).
              specialize (Hcarry ltac:(done) ltac:(done)). lia.
           ++ assert (Z.pos P / 2 ^ 52 < 2 ^ 54).
              { apply Z.div_lt_upper_bound; [lia|].
                change (2 ^ 106) with (2 ^ 52 * 2 ^ 54) in BP. lia. }
              assert (Z.pos P / 2 ^ 52 <= 2 ^ 54 - 2) by lia.
              pose proof (Z.mod_pos_bound (Z.pos P) (2 ^ 52) ltac:(lia)).
              pose proof (Z.div_mod (Z.pos P) (2 ^ 52) ltac:(lia)). nia.
        -- intros Hlt. destruct He as [->| ->]; [lia|].
           destruct (Hback eq_refl) as [Hq Ho]. exfalso.
           assert (Z.pos P / 2 ^ 52 = 2 ^ 54 - 1).
           { pose proof (Z.div_mod (Z.pos P / 2 ^ 52) 2 ltac:(lia)) as Hdm.
             rewrite Z.div_div in Hdm by lia. change (2 ^ 52 * 2) with (2 ^ 53) in Hdm.
             rewrite Hq in Hdm. rewrite Zmod_odd, Ho in Hdm.
             rewrite Hdm. reflexivity. }
           pose proof (Z.mul_div_le (Z.pos P) (2 ^ 52) ltac:(lia)). lia.
      * assert (HK3 : K <= 51) by lia.
        pose proof (Z.pow_le_mono_r 2 K 51 ltac:(lia) HK3). split.
        -- intros Hle. lia.
        -- intros Hlt. exfalso. change (2 ^ 105) with (2 ^ 54 * 2 ^ 51) in BP. nia.
Qed.

(** [Math.round] followed by the clamped store gives 0 exactly below 1/2. *)
Lemma store_of_count (r : Z) : 0 <= r < 2050 -> JS.toUint8Clamp (JS.of_int r) = 0 -> r = 0.
Proof.
  intros Hr E.
  pose proof (forallb_range
    (fun r => negb (JS.toUint8Clamp (JS.of_int r) =? 0) || (r =? 0)) 0 2050
    ltac:(vm_compute; reflexivity) r Hr) as H.
  cbv beta in H. rewrite E in H. apply Z.eqb_eq. exact H.
Qed.

Lemma round_store_zero (v : float) (m : positive) (e : Z) :
  Prim2SF v = S754_finite false m e -> Z.pos (digits2_pos m) = 53 ->
  -1074 <= e <= -42 ->
  (JS.toUint8Clamp (JS.round v) = 0 <-> e <= -54).
Proof.
  intros Fv Dm He. unfold JS.round, JS.exact. rewrite Fv.
  destruct e as [|pe|pe]; [lia|lia|].
  pose proof (digits2_bounds m) as Bm. rewrite Dm in Bm.
  change (2 ^ (53 - 1)) with (2 ^ 52) in Bm.
  set (d := 2 ^ Z.pos pe).
  assert (Hd : 2 ^ 42 <= d) by (apply Z.pow_le_mono_r; lia).
  destruct (Z.eqb_spec d 1) as [E1|_]; [lia|].
  change (Z.pos m <? 0) with false. rewrite andb_false_r.
  set (r := (2 * Z.pos m + d) / (2 * d)).
  assert (Hr : 0 <= r < 2050).
  { split; [apply Z.div_pos; lia|].
    apply Z.div_lt_upper_bound; [lia|].
    change (2 ^ 53) with (2048 * 2 ^ 42) in Bm. lia. }
  split.
  - intros Hz. apply store_of_count in Hz; [|done].
    destruct (Z_le_gt_dec (Z.neg pe) (-54)) as [|Hgt]; [done|exfalso].
    assert (d <= 2 ^ 53) by (apply Z.pow_le_mono_r; lia).
    assert (1 <= r); [|lia].
    apply Z.div_le_lower_bound; [lia|]. change (2 ^ 53) with (2 * 2 ^ 52) in *. lia.
  - intros Hle. assert (2 ^ 54 <= d) by (apply Z.pow_le_mono_r; lia).
    assert (r = 0) as ->; [|reflexivity].
    apply Z.div_small. change (2 ^ 54) with (2 * 2 ^ 53) in *. lia.
Qed.

Lemma round_store_of_zero (v : float) (s : bool) :
  Prim2SF v = S754_zero s -> JS.toUint8Clamp (JS.round v) = 0.
Proof.
  intros Fv. unfold JS.round, JS.exact. rewrite Fv. simpl.
  unfold JS.toUint8Clamp, JS.exact. rewrite Fv. reflexivity.
Qed.

(** The order of two positive normal numbers, on their mantissas. *)
Lemma leb_normal (x y : float) (mx my : positive) (ex ey : Z) :
  Prim2SF x = S754_finite false mx ex -> Prim2SF y = S754_finite false my ey ->
  Z.pos (digits2_pos mx) = 53 -> Z.pos (digits2_pos my) = 53 ->
  (x <=? y)%float = true ->
  ex <= ey /\ Z.pos mx <= Z.pos my * 2 ^ (ey - ex).
Proof.
  intros Fx Fy Dx Dy. rewrite FloatAxioms.leb_spec, Fx, Fy.
  unfold SFleb, SFcompare.
  pose proof (digits2_bounds mx) as Bx. pose proof (digits2_bounds my) as By.
  rewrite Dx in Bx. rewrite Dy in By. change (2 ^ (53 - 1)) with (2 ^ 52) in *.
  destruct (Z.compare_spec ex ey) as [->|Hlt|Hgt]; [| |done].
  - rewrite Z.sub_diag. change (2 ^ 0) with 1.
    change (Pos.compare_cont Eq mx my) with (Pos.compare mx my).
    destruct (Pos.compare_spec mx my) as [->|Hlt|Hgt]; [lia|lia|done].
  - intros _. split; [lia|].
    assert (2 ^ 1 <= 2 ^ (ey - ex)) by (apply Z.pow_le_mono_r; lia).
    change (2 ^ 1) with 2 in *. change (2 ^ 53) with (2 * 2 ^ 52) in *. nia.
Qed.

Lemma fade_in_range_cases (f : float) :
  fade_in_range f = true ->
  (exists s, Prim2SF f = S754_zero s)
  \/ (exists m e, Prim2SF f = S754_finite false m e
        /\ Z.pos (digits2_pos m) = 53 /\ -152 <= e <= -52
        /\ (e = -52 -> Z.pos m = 2 ^ 52)).
Proof.
  unfold fade_in_range. intros H. apply orb_prop in H. destruct H as [H|H].
  - left. rewrite FloatAxioms.eqb_spec in H. unfold SFeqb, SFcompare in H.
    change (Prim2SF 0) with (S754_zero false) in H.
    destruct (Prim2SF f) as [s|s| |s m e]; [by exists s|by destruct s|done|by destruct s].
  - right. apply andb_prop in H. destruct H as [Hlo Hhi].
    pose proof Hhi as Hle1.
    rewrite FloatAxioms.leb_spec in Hlo, Hhi.
    pose proof (Prim2SF_valid f) as Hv.
    assert (E1 : Prim2SF 0x1p-100 = S754_finite false 4503599627370496 (-152))
      by (vm_compute; reflexivity).
    assert (E2 : exists m1, Prim2SF 1 = S754_finite false m1 (-52)
                   /\ Z.pos (digits2_pos m1) = 53 /\ Z.pos m1 = 2 ^ 52).
    { eexists. split; [vm_compute; reflexivity|]. split; vm_compute; reflexivity. }
    destruct E2 as (m1 & E2 & D1 & V1).
    rewrite E1 in Hlo. rewrite E2 in Hhi. clear E1.
    unfold SFleb, SFcompare in Hlo, Hhi.
    destruct (Prim2SF f) as [s|s| |s m e] eqn:Ff; [done|by destruct s|done|].
    destruct s; [done|].
    exists m, e. split; [done|].
    assert (He : -152 <= e <= -52).
    { destruct (Z.compare_spec (-152) e), (Z.compare_spec e (-52)); try done; lia. }
    assert (Hd : Z.pos (digits2_pos m) = 53).
    { unfold valid_binary, bounded, canonical_mantissa, fexp, emin in Hv.
      apply andb_prop in Hv. destruct Hv as [Hv _]. apply Z.eqb_eq in Hv.
      change prec with 53 in Hv. change emax with 1024 in Hv. lia. }
    split; [done|]. split; [done|]. intros ->.
    pose proof (digits2_bounds m) as Bm. rewrite Hd in Bm.
    change (2 ^ (53 - 1)) with (2 ^ 52) in Bm.
    destruct (leb_normal f 1 m m1 (-52) (-52) Ff E2 Hd D1 Hle1) as [_ Hm].
    change (2 ^ (-52 - -52)) with 1 in Hm. lia.
Qed.

Lemma of_int_byte_normal (a : Z) :
  1 <= a <= 255 ->
  exists m e, Prim2SF (JS.of_int a) = S754_finite false m e
    /\ Z.pos (digits2_pos m) = 53 /\ -52 <= e <= -45.
Proof.
  intros Ha.
  pose proof (forallb_range (fun a => positive_normal (JS.of_int a)) 1 256
    ltac:(vm_compute; reflexivity) a ltac:(lia)) as H.
  cbv beta in H. unfold positive_normal in H.
  destruct (Prim2SF (JS.of_int a)) as [s|s| |s m e]; [done|done|done|].
  destruct s; [done|].
  exists m, e. split; [done|].
  apply andb_prop in H. destruct H as [H H3]. apply andb_prop in H. destruct H as [H1 H2].
  lia.
Qed.

Lemma mul_zero_r (x y : float) (s : bool) :
  fade_in_range x = true \/ (exists m e, Prim2SF x = S754_finite false m e) ->
  Prim2SF y = S754_zero s -> exists s', Prim2SF (x * y)%float = S754_zero s'.
Proof.
  intros Hx Fy. rewrite FloatAxioms.mul_spec, Fy. unfold SF64mul, SFmul.
  destruct Hx as [Hx|(m & e & ->)]; [|by eexists].
  destruct (fade_in_range_cases x Hx) as [[s0 ->]|(m & e & -> & _)]; by eexists.
Qed.

Lemma mul_zero_l (x y : float) (s : bool) :
  Prim2SF x = S754_zero s -> fade_in_range y = true ->
  exists s', Prim2SF (x * y)%float = S754_zero s'.
Proof.
  intros Fx Hy. rewrite FloatAxioms.mul_spec, Fx. unfold SF64mul, SFmul.
  destruct (fade_in_range_cases y Hy) as [[s0 ->]|(m & e & -> & _)]; by eexists.
Qed.

(** The faded alpha [round(a * f)], stored, is 0 for a fade factor [f] as
    soon as it is 0 for a larger one. *)
Lemma faded_alpha_monotone (a : Z) (f f' : float) :
  0 <= a <= 255 ->
  fade_in_range f = true -> fade_in_range f' = true ->
  (f' <=? f)%float = true ->
  JS.toUint8Clamp (JS.round (JS.of_int a * f)%float) = 0 ->
  JS.toUint8Clamp (JS.round (JS.of_int a * f')%float) = 0.
Proof.
  intros Ha Hf Hf' Hle Hz.
  destruct (Z.eq_dec a 0) as [->|Hne].
  { destruct (mul_zero_l (JS.of_int 0) f' false eq_refl Hf') as [s' E].
    by apply round_store_of_zero with s'. }
  destruct (of_int_byte_normal a ltac:(lia)) as (ma & ea & Fa & Da & Hea).
  destruct (fade_in_range_cases f' Hf') as [[s' Fz']|(mf' & ef' & Ff' & Df' & Hef' & _)].
  { destruct (mul_zero_r (JS.of_int a) f' s' ltac:(right; eauto) Fz') as [s'' E].
    by apply round_store_of_zero with s''. }
  destruct (fade_in_range_cases f Hf) as [[s Fz]|(mf & ef & Ff & Df & Hef & _)].
  { rewrite FloatAxioms.leb_spec, Ff', Fz in Hle. done. }
  destruct (leb_normal f' f mf' mf ef' ef Ff' Ff Df' Df Hle) as [He Hm].
  destruct (mul_normal (JS.of_int a) f ma mf ea ef Fa Ff Da Df ltac:(lia))
    as (m1 & e1 & F1 & D1 & B1 & I1).
  destruct (mul_normal (JS.of_int a) f' ma mf' ea ef' Fa Ff' Da Df' ltac:(lia))
    as (m2 & e2 & F2 & D2 & B2 & I2).
  apply (round_store_zero _ _ _ F1 D1 ltac:(lia)) in Hz.
  apply (round_store_zero _ _ _ F2 D2 ltac:(lia)). apply I2.
  apply I1 in Hz.
  replace (- (ea + ef') - 55) with ((- (ea + ef) - 55) + (ef - ef')) by lia.
  rewrite Z.pow_add_r by lia.
  set (X := 2 ^ (- (ea + ef) - 55)) in *. set (Y := 2 ^ (ef - ef')) in *.
  assert (0 < Y) by (apply Z.pow_pos_nonneg; lia).
  rewrite Pos2Z.inj_mul in *.
  apply Z.le_lt_trans with (Z.pos ma * Z.pos mf * Y); [nia|].
  rewrite Z.mul_assoc. apply Z.mul_lt_mono_pos_r; done.
Qed.

(** ** Reference-mode matting is monotone in the threshold *)

Lemma max_bytes (x y : Z) :
  0 <= x <= 255 -> 0 <= y <= 255 ->
  JS.max (JS.of_int x) (JS.of_int y) = JS.of_int (Z.max x y).
Proof.
  intros Hx Hy. apply FloatAxioms.Leibniz.eqb_spec.
  apply (forallb_range2
           (fun x y => PrimFloat.Leibniz.eqb (JS.max (JS.of_int x) (JS.of_int y))
                                              (JS.of_int (Z.max x y))) 0 256 0 256);
    [vm_compute; reflexivity | lia..].
Qed.

(** A pixel made of bytes. *)
Lemma pixel_at_bytes (d : list Z) (k : Z) (p : Pixel) :
  bytes d = true -> pixel_at d k = Some p ->
  0 <= pR p <= 255 /\ 0 <= pG p <= 255 /\ 0 <= pB p <= 255 /\ 0 <= pA p <= 255.
Proof.
  intros Hb Hp. unfold pixel_at in Hp.
  destruct (rd d (4 * k)) as [r0|] eqn:E0; [|done].
  destruct (rd d (4 * k + 1)) as [g0|] eqn:E1; [|done].
  destruct (rd d (4 * k + 2)) as [b0|] eqn:E2; [|done].
  destruct (rd d (4 * k + 3)) as [a0|] eqn:E3; [|done].
  injection Hp as <-. simpl.
  pose proof (bytes_rd _ _ _ Hb E0). pose proof (bytes_rd _ _ _ Hb E1).
  pose proof (bytes_rd _ _ _ Hb E2). pose proof (bytes_rd _ _ _ Hb E3). lia.
Qed.

(** The colour distance of two pixels is an integer from 0 to 255. *)
Lemma maxDiff_int (p q : Pixel) :
  0 <= pR p <= 255 -> 0 <= pG p <= 255 -> 0 <= pB p <= 255 ->
  0 <= pR q <= 255 -> 0 <= pG q <= 255 -> 0 <= pB q <= 255 ->
  exists m, 0 <= m <= 255 /\ maxDiff p q = JS.of_int m.
Proof.
  intros. unfold maxDiff, JS.max3.
  rewrite !abs_diff_bytes by lia. rewrite !max_bytes by lia.
  eexists. split; [|reflexivity]. lia.
Qed.

(** [step_ok] holds at every threshold from 1 to 99, every reference alpha
    from 1 to 255 and every colour distance from 0 to 255. *)
Lemma threshold_steps :
  all_from 99 1%float (fun t =>
    all_from 255 1%float (fun A =>
      all_from 256 0%float
        (step_ok ((t * 2.55) * (A / 255))%float (((t + 1) * 2.55) * (A / 255))%float)))
  = true.
Proof. vm_compute. reflexivity. Qed.

Lemma step_table (t A m : Z) :
  1 <= t <= 99 -> 1 <= A <= 255 -> 0 <= m <= 255 ->
  step_ok (effectiveThreshold (JS.of_int t) A) (effectiveThreshold (JS.of_int (t + 1)) A)
          (JS.of_int m) = true.
Proof.
  intros Ht HA Hm. rewrite <- (succ_of_int t) by lia.
  pose proof (all_from_spec 99 _ 1%float 1 eq_refl ltac:(lia) ltac:(lia)
                threshold_steps t ltac:(lia)) as H1.
  pose proof (all_from_spec 255 _ 1%float 1 eq_refl ltac:(lia) ltac:(lia)
                H1 A ltac:(lia)) as H2.
  exact (all_from_spec 256 _ 0%float 0 eq_refl ltac:(lia) ltac:(lia) H2 m ltac:(lia)).
Qed.

(** One step of the threshold keeps a transparent pixel transparent. *)
Lemma reference_alpha_step (t : Z) (p q : Pixel) :
  1 <= t <= 99 ->
  0 <= pR p <= 255 -> 0 <= pG p <= 255 -> 0 <= pB p <= 255 -> 0 <= pA p <= 255 ->
  0 <= pR q <= 255 -> 0 <= pG q <= 255 -> 0 <= pB q <= 255 -> 0 <= pA q <= 255 ->
  reference_alpha (JS.of_int t) p q = 0 -> reference_alpha (JS.of_int (t + 1)) p q = 0.
Proof.
  intros Ht Hr Hg Hb Ha Hr' Hg' Hb' HA. unfold reference_alpha, fade.
  destruct (Z.eqb_spec (pA q) 0) as [_|Hne]; [done|].
  destruct (maxDiff_int p q) as (m & Hm & ->); [lia..|].
  pose proof (step_table t (pA q) m Ht ltac:(lia) Hm) as H.
  unfold step_ok, fade_of in H.
  set (e1 := effectiveThreshold (JS.of_int t) (pA q)) in *.
  set (e2 := effectiveThreshold (JS.of_int (t + 1)) (pA q)) in *.
  set (M := JS.of_int m) in *.
  destruct (M <? e1)%float.
  { by rewrite H. }
  destruct (M <? e2)%float; [done|]. simpl in H.
  destruct (M <? e1 * 1.5)%float.
  - apply andb_prop in H. destruct H as [H H4]. apply andb_prop in H. destruct H as [H H3].
    apply andb_prop in H. destruct H as [H1 H2]. rewrite H1.
    by apply faded_alpha_monotone.
  - intros Hz. destruct (M <? e2 * 1.5)%float; [|done]. simpl in H.
    rewrite Hz.
    destruct (mul_zero_l (JS.of_int 0) _ false eq_refl H) as [s' E].
    by apply round_store_of_zero with s'.
Qed.

Lemma reference_alpha_monotone (t1 t2 : Z) (p q : Pixel) :
  1 <= t1 -> t1 <= t2 -> t2 <= 100 ->
  0 <= pR p <= 255 -> 0 <= pG p <= 255 -> 0 <= pB p <= 255 -> 0 <= pA p <= 255 ->
  0 <= pR q <= 255 -> 0 <= pG q <= 255 -> 0 <= pB q <= 255 -> 0 <= pA q <= 255 ->
  reference_alpha (JS.of_int t1) p q = 0 -> reference_alpha (JS.of_int t2) p q = 0.
Proof.
  intros H1 H12 H2 ? ? ? ? ? ? ? ? Hz.
  assert (Hn : forall n : nat, t1 + Z.of_nat n <= 100 ->
                 reference_alpha (JS.of_int (t1 + Z.of_nat n)) p q = 0).
  { induction n as [|n IH]; intros Hle.
    - by rewrite Z.add_0_r.
    - replace (t1 + Z.of_nat (S n)) with (t1 + Z.of_nat n + 1) by lia.
      apply reference_alpha_step; [lia|done..|apply IH; lia]. }
  specialize (Hn (Z.to_nat (t2 - t1))).
  rewrite Z2Nat.id in Hn by lia. replace (t1 + (t2 - t1)) with t2 in Hn by lia.
  apply Hn. lia.
Qed.

Lemma len_subtractBackground (imageData bgData : ImageData) (threshold : JS.num) :
  len (subtractBackground imageData bgData threshold) = len (data imageData).
Proof.
  unfold subtractBackground.
  apply (for_each_ind (fun d => len d = len (data imageData))); [done|].
  intros i d _ Hd. rewrite subtractBackground_body_alpha. unfold alpha_body.
  destruct (subtract_alpha _ _ _ _); [|done]. by rewrite len_wr.
Qed.

(** The alpha channel after matting, pixel by pixel. *)
Lemma alphas_subtractBackground (imageData bgData : ImageData) (threshold : JS.num) :
  bytes (data bgData) = true ->
  alphas (subtractBackground imageData bgData threshold)
  = map (fun k => match pixel_at (data imageData) k, pixel_at (data bgData) k with
                  | Some p, Some q => reference_alpha threshold p q
                  | Some p, None => pA p
                  | None, _ => 0
                  end) (range 0 (len (data imageData) / 4)).
Proof.
  intros Hb. unfold alphas. rewrite len_subtractBackground.
  apply map_ext_in. intros k Hk. apply list_elem_of_In, elem_of_range in Hk.
  assert (Hlt : 4 * k + 3 < len (data imageData)).
  { pose proof (Z.mul_div_le (len (data imageData)) 4 ltac:(lia)). lia. }
  destruct (pixel_at_is_Some (data imageData) k ltac:(lia) Hlt) as [p Hp].
  pose proof (subtractBackground_pixel imageData bgData threshold k p Hb Hp) as H.
  rewrite Hp. unfold alpha_of. unfold pixel_at in H at 1.
  destruct (rd _ (4 * k)); [|done]. destruct (rd _ (4 * k + 1)); [|done].
  destruct (rd _ (4 * k + 2)); [|done]. destruct (rd _ (4 * k + 3)); [|done].
  injection H as H. apply (f_equal pA) in H. simpl in H. simpl. rewrite H.
  by destruct (pixel_at (data bgData) k).
Qed.

Lemma count_filter_map {A : Type} (f g : A -> Z) (l : list A) :
  (forall x, x ∈ l -> f x = 0 -> g x = 0) ->
  (length (List.filter (fun a => (a =? 0)%Z) (map f l))
   <= length (List.filter (fun a => (a =? 0)%Z) (map g l)))%nat.
Proof.
  induction l as [|x l IH]; intros H; [done|]. simpl.
  specialize (IH ltac:(intros y Hy; apply H; by right)).
  destruct (Z.eqb_spec (f x) 0) as [E|_].
  - rewrite (H x ltac:(left) E). simpl. lia.
  - destruct (g x =? 0); simpl; lia.
Qed.

(** X1. Reference-mode matting is monotone in the threshold: for an image
    and a reference buffer and two thresholds [t1 <= t2] among the integers
    from 1 to 100, the number of pixels whose alpha is 0 after matting with
    [t1] is at most that number after matting with [t2]. *)
Theorem threshold_monotone (imageData bgData : ImageData) (t1 t2 : Z) :
  bytes (data imageData) = true -> bytes (data bgData) = true ->
  1 <= t1 -> t1 <= t2 -> t2 <= 100 ->
  (transparent_count (subtractBackground imageData bgData (JS.of_int t1))
   <= transparent_count (subtractBackground imageData bgData (JS.of_int t2)))%nat.
Proof.
  intros Hi Hb H1 H12 H2. unfold transparent_count.
  rewrite !alphas_subtractBackground by done.
  apply count_filter_map. intros k _.
  destruct (pixel_at (data imageData) k) as [p|] eqn:Hp; [|done].
  destruct (pixel_at (data bgData) k) as [q|] eqn:Hq; [|done].
  destruct (pixel_at_bytes _ _ _ Hi Hp) as (? & ? & ? & ?).
  destruct (pixel_at_bytes _ _ _ Hb Hq) as (? & ? & ? & ?).
  by apply reference_alpha_monotone.
Qed.

Lemma threshold_monotone_witness :
  le (transparent_count (subtractBackground (mkImageData 2 1 [200; 10; 10; 255; 90; 90; 90; 255])
                                            (mkImageData 2 1 [190; 10; 10; 255; 10; 10; 10; 255])
                                            (JS.of_int 3)))
     (transparent_count (subtractBackground (mkImageData 2 1 [200; 10; 10; 255; 90; 90; 90; 255])
                                            (mkImageData 2 1 [190; 10; 10; 255; 10; 10; 10; 255])
                                            (JS.of_int 40))).
Proof.
  apply (threshold_monotone (mkImageData 2 1 [200; 10; 10; 255; 90; 90; 90; 255])
           (mkImageData 2 1 [190; 10; 10; 255; 10; 10; 10; 255]) 3 40);
    [reflexivity | reflexivity | lia | lia | lia].
Defined.

(** ** The pipeline writes alpha bytes only *)

Lemma keeps_colours_refl (d : list Z) : keeps_colours d d.
Proof. by split. Qed.

Lemma keeps_colours_trans (d d' d'' : list Z) :
  keeps_colours d d' -> keeps_colours d' d'' -> keeps_colours d d''.
Proof.
  intros [L1 H1] [L2 H2]. split; [congruence|].
  intros j Hj. by rewrite H2, H1.
Qed.

Lemma keeps_colours_set (d s : list Z) (i : Z) (x : JS.num) :
  i mod 4 = 3 -> keeps_colours d s -> keeps_colours d (set s i x).
Proof.
  intros Hi [L H]. split; [by rewrite len_set|].
  intros j Hj. rewrite rd_set, decide_False by congruence. by apply H.
Qed.

Lemma alpha_slot_mod (k : Z) : (k * 4 + 3) mod 4 = 3.
Proof. rewrite Z.add_comm, Z_mod_plus_full. reflexivity. Qed.

Lemma smoothEdges_keeps_colours (img : ImageData) :
  keeps_colours (data img) (smoothEdges img).
Proof.
  unfold smoothEdges. apply (loop2_ind (keeps_colours (data img)));
    [apply keeps_colours_refl|].
  intros y x s _ _ Hs. destruct (_ && _); [|done].
  destruct (for_each _ _ _) as [alphaSum count].
  apply keeps_colours_set; [apply alpha_slot_mod|done].
Qed.

Lemma removeLightEdgeArtifacts_keeps_colours (img : ImageData) :
  keeps_colours (data img) (removeLightEdgeArtifacts img).
Proof.
  unfold removeLightEdgeArtifacts. apply (loop2_ind (keeps_colours (data img)));
    [apply keeps_colours_refl|].
  intros y x s _ _ Hs. destruct (negb _); [done|].
  destruct (_ && _); [|done]. destruct (_ <? _)%float; [|done].
  apply keeps_colours_set; [apply alpha_slot_mod|done].
Qed.

Lemma aggressiveEdgeCleanup_keeps_colours (img : ImageData) :
  keeps_colours (data img) (aggressiveEdgeCleanup img).
Proof.
  unfold aggressiveEdgeCleanup. apply (loop2_ind (keeps_colours (data img)));
    [apply keeps_colours_refl|].
  intros y x s _ _ Hs. destruct (_ && _); [|done].
  destruct (for_each _ _ _) as [hasOpaque opaqueCount].
  destruct (_ && _); [|done].
  apply keeps_colours_set; [apply alpha_slot_mod|done].
Qed.

Lemma removeLiquidGlassOutline_keeps_colours (img : ImageData) (outlineWidth : Z)
    (brightThreshold : JS.num) :
  keeps_colours (data img) (removeLiquidGlassOutline img outlineWidth brightThreshold).
Proof.
  unfold removeLiquidGlassOutline. apply (loop2_ind (keeps_colours (data img)));
    [apply keeps_colours_refl|].
  intros y x s _ _ Hs. destruct (negb _); [done|].
  destruct (_ =? _)%float; [done|].
  repeat match goal with
         | |- context [if ?c then _ else _] => destruct c
         end;
    repeat (apply keeps_colours_set; [apply alpha_slot_mod|]); done.
Qed.

Lemma erodeEdges_keeps_colours (img : ImageData) (pixels : Z) :
  keeps_colours (data img) (erodeEdges img pixels).
Proof.
  unfold erodeEdges. apply (for_each_ind (keeps_colours (data img)));
    [apply keeps_colours_refl|].
  intros i s Hi Hs. apply elem_of_offsets4 in Hi as (k & -> & _).
  apply keeps_colours_set; [|done].
  rewrite Z.mul_comm. apply alpha_slot_mod.
Qed.

Lemma not_alpha_slot (j : Z) : j mod 4 <> 3 -> (j - 3) mod 4 <> 0.
Proof.
  intros Hj Hm. apply Hj. apply Z.mod_divide in Hm as [k Hk]; [|lia].
  replace j with (k * 4 + 3) by lia. apply alpha_slot_mod.
Qed.

Lemma subtractBackground_keeps_colours (img bg : ImageData) (threshold : JS.num) :
  keeps_colours (data img) (subtractBackground img bg threshold).
Proof.
  split; [apply len_subtractBackground|].
  intros j Hj%not_alpha_slot. rewrite subtractBackground_rd.
  destruct (subtract_alpha _ _ _ _); [|done]. by rewrite decide_False.
Qed.

Lemma removeByColor_keeps_colours (img : ImageData) (target : RGB) (threshold : JS.num) :
  keeps_colours (data img) (removeByColor img target threshold).
Proof.
  split.
  - unfold removeByColor.
    apply (for_each_ind (fun d => len d = len (data img))); [done|].
    intros i d _ Hd. rewrite removeByColor_body_alpha. unfold alpha_body.
    destruct (colorKey_alpha _ _ _ _); [|done]. by rewrite len_wr.
  - intros j Hj%not_alpha_slot. rewrite removeByColor_rd.
    destruct (colorKey_alpha _ _ _ _); [|done]. by rewrite decide_False.
Qed.

Lemma filter_step_keeps (d0 : list Z) (w h : Z) (c : bool) (img : ImageData)
    (f : ImageData -> list Z) :
  (forall i, keeps_colours (data i) (f i)) ->
  width img = w /\ height img = h /\ keeps_colours d0 (data img) ->
  let img' := if c then with_data img (f img) else img in
  width img' = w /\ height img' = h /\ keeps_colours d0 (data img').
Proof.
  intros Hf (Hw & Hh & Hk). cbv zeta. destruct c; [|done]. simpl.
  split; [done|]. split; [done|].
  eapply keeps_colours_trans; [exact Hk|apply Hf].
Qed.

(** X2. [removeBackground] writes alpha bytes only: whatever the options,
    with or without a reference image, the result has the width, the height
    and the buffer size of the image, and every byte that is not an alpha
    byte (every R, G and B) is the one of the image. *)
Theorem removeBackground_keeps_colours (imageData : ImageData)
    (referenceBackground : option ImageData) (options : ProcessingOptions) :
  width (removeBackground imageData referenceBackground options) = width imageData
  /\ height (removeBackground imageData referenceBackground options) = height imageData
  /\ keeps_colours (data imageData)
       (data (removeBackground imageData referenceBackground options)).
Proof.
  unfold removeBackground. cbv zeta.
  apply (filter_step_keeps _ _ _ _ _
           (fun i => removeLiquidGlassOutline i (default 2 (glassOutlineWidth options))
                       (default 200%float (glassBrightness options))));
    [intros i; apply removeLiquidGlassOutline_keeps_colours|].
  apply (filter_step_keeps _ _ _ _ _ aggressiveEdgeCleanup);
    [apply aggressiveEdgeCleanup_keeps_colours|].
  apply (filter_step_keeps _ _ _ _ _
           (fun i => erodeEdges i (default 0 (erodePixels options))));
    [intros i; apply erodeEdges_keeps_colours|].
  apply (filter_step_keeps _ _ _ _ _ removeLightEdgeArtifacts);
    [apply removeLightEdgeArtifacts_keeps_colours|].
  apply (filter_step_keeps _ _ _ _ _ smoothEdges);
    [apply smoothEdges_keeps_colours|].
  destruct referenceBackground as [bg|]; [|destruct (truthy _)]; simpl;
    repeat split; try reflexivity;
    first [apply subtractBackground_keeps_colours | apply removeByColor_keeps_colours].
Qed.

(** ** The edge filters act next to transparency only *)

Lemma no_transparent_pixel_alpha (d : list Z) (k : Z) :
  no_transparent_pixel d = true -> alpha_of d k <> Some 0.
Proof.
  intros H Hk. unfold no_transparent_pixel in H. rewrite forallb_forall in H.
  assert (Hin : 0 <= k < len d / 4).
  { unfold alpha_of in Hk. apply rd_Some_lt in Hk.
    pose proof (Z.div_mod (len d) 4 ltac:(lia)).
    pose proof (Z.mod_pos_bound (len d) 4 ltac:(lia)). lia. }
  specialize (H 0). simpl in H. enough (true = false) by done. rewrite <- H; [done|].
  apply list_elem_of_In. unfold alphas. apply list_elem_of_fmap.
  exists k. split; [by rewrite Hk|]. by apply elem_of_range.
Qed.

Lemma no_transparent_neighbour (d : list Z) (w x y : Z) :
  bytes d = true -> no_transparent_pixel d = true ->
  hasTransparent d (fun n => n * 4 + 3) w x y = false.
Proof.
  intros Hb Hn. destruct (hasTransparent _ _ _ _ _) eqn:E; [|done].
  apply hasTransparent_true in E as (dx & dy & _ & _ & _ & H0).
  apply get_byte_eq_0 in H0; [|done].
  exfalso. apply (no_transparent_pixel_alpha d ((y + dy) * w + (x + dx)) Hn).
  unfold alpha_of. by rewrite Z.mul_comm.
Qed.

Lemma no_transparent_neighbour_alphas (d : list Z) (w x y : Z) :
  bytes d = true -> no_transparent_pixel d = true ->
  hasTransparent (alphas d) (fun n => n) w x y = false.
Proof.
  intros Hb Hn. destruct (hasTransparent _ _ _ _ _) eqn:E; [|done].
  apply hasTransparent_true in E as (dx & dy & _ & _ & _ & H0).
  apply get_byte_eq_0 in H0; [|by apply bytes_alphas].
  rewrite rd_alphas in H0. case_decide as Hin; [|done].
  exfalso. apply (no_transparent_pixel_alpha d ((y + dy) * w + (x + dx)) Hn).
  unfold alpha_of in *.
  destruct (rd_lt_Some d (4 * ((y + dy) * w + (x + dx)) + 3)) as [v Hv].
  { pose proof (Z.div_mod (len d) 4 ltac:(lia)).
    pose proof (Z.mod_pos_bound (len d) 4 ltac:(lia)). lia. }
  rewrite Hv in *. simpl in H0. congruence.
Qed.

(** Without a transparent pixel the outer-edge mask is empty. *)
Lemma outerEdge_empty (d : list Z) (w h : Z) (j : Z) :
  bytes d = true -> no_transparent_pixel d = true ->
  (get (outerEdge d w h) j =? 1)%float = false.
Proof.
  intros Hb Hn. destruct (get _ _ =? 1)%float eqn:E; [|done].
  destruct (outerEdge_inv d w h) as [Hbm Hm].
  apply get_byte_eq_1 in E; [|done].
  apply Hm in E as (y & x & _ & _ & _ & Ht).
  by rewrite no_transparent_neighbour in Ht.
Qed.

Lemma unchanged_loop2 {S : Type} (ys xs : list Z) (body : Z -> Z -> S -> S) (s : S) :
  (forall y x, body y x s = s) ->
  for_each ys (fun y s => for_each xs (fun x s => body y x s) s) s = s.
Proof.
  intros H. apply (loop2_ind (fun s' => s' = s)); [done|].
  intros y x s' _ _ ->. apply H.
Qed.

Lemma removeLightEdgeArtifacts_opaque (img : ImageData) :
  bytes (data img) = true -> no_transparent_pixel (data img) = true ->
  removeLightEdgeArtifacts img = data img.
Proof.
  intros Hb Hn. unfold removeLightEdgeArtifacts. apply unchanged_loop2.
  intros y x. by rewrite outerEdge_empty.
Qed.

Lemma existsb_false {A : Type} (f : A -> bool) (l : list A) :
  (forall a, f a = false) -> existsb f l = false.
Proof. intros H. induction l as [|a l IH]; [done|]. simpl. by rewrite H, IH. Qed.

Lemma removeLiquidGlassOutline_opaque (img : ImageData) (outlineWidth : Z)
    (brightThreshold : JS.num) :
  bytes (data img) = true -> no_transparent_pixel (data img) = true ->
  removeLiquidGlassOutline img outlineWidth brightThreshold = data img.
Proof.
  intros Hb Hn. unfold removeLiquidGlassOutline.
  assert (Hz : processZoneOf (outerEdge (data img) (width img) (height img))
                 (width img) (height img) outlineWidth
               = zeros (width img * height img)).
  { unfold processZoneOf. apply unchanged_loop2. intros y x.
    rewrite existsb_false; [done|]. intros dy.
    apply existsb_false. intros dx.
    rewrite outerEdge_empty by done. apply andb_false_r. }
  rewrite Hz. apply unchanged_loop2. intros y x.
  assert (E : (get (zeros (width img * height img)) (y * width img + x) =? 1)%float = false).
  { unfold get. rewrite rd_zeros. by case_decide. }
  by rewrite E.
Qed.

Lemma erodePass_opaque (w h : Z) (d : list Z) :
  bytes d = true -> no_transparent_pixel d = true ->
  erodePass w h (alphas d) = alphas d.
Proof.
  intros Hb Hn. apply list_eq_rd. intros j.
  destruct (erodePass_inv w h (alphas d)) as (_ & _ & H).
  destruct (H j) as [->|(_ & y & x & _ & _ & _ & _ & Ht)]; [done|].
  by rewrite no_transparent_neighbour_alphas in Ht.
Qed.

Lemma erodeEdges_opaque (img : ImageData) (pixels : Z) :
  well_formed img = true -> no_transparent_pixel (data img) = true ->
  erodeEdges img pixels = data img.
Proof.
  intros Hwf Hn. pose proof Hwf as (_ & _ & _ & Hb)%well_formed_inv.
  apply erodeEdges_fixed; [done|]. unfold erodePasses.
  apply (for_each_ind (fun a => a = alphas (data img))); [done|].
  intros _ a _ ->. by apply erodePass_opaque.
Qed.

(** X3. The filters that look for the outer edge act only where there is
    transparency: on an image without any fully transparent pixel,
    [removeLightEdgeArtifacts], [erodeEdges] (with any number of passes) and
    [removeLiquidGlassOutline] (with any width and brightness) leave the
    buffer exactly as it is. *)
Theorem edge_filters_need_transparency (img : ImageData) (pixels outlineWidth : Z)
    (brightThreshold : JS.num) :
  well_formed img = true -> no_transparent_pixel (data img) = true ->
  removeLightEdgeArtifacts img = data img
  /\ erodeEdges img pixels = data img
  /\ removeLiquidGlassOutline img outlineWidth brightThreshold = data img.
Proof.
  intros Hwf Hn. pose proof Hwf as (_ & _ & _ & Hb)%well_formed_inv.
  split; [by apply removeLightEdgeArtifacts_opaque|].
  split; [by apply erodeEdges_opaque|by apply removeLiquidGlassOutline_opaque].
Qed.

Lemma edge_filters_need_transparency_witness :
  let img := mkImageData 3 3
               (concat (replicate 4 [250; 250; 250; 120]
                        ++ [[250; 250; 250; 90]]
                        ++ replicate 4 [250; 250; 250; 120])) in
  removeLightEdgeArtifacts img = data img
  /\ erodeEdges img 2 = data img
  /\ removeLiquidGlassOutline img 2 200%float = data img.
Proof.
  apply (edge_filters_need_transparency
           (mkImageData 3 3
              (concat (replicate 4 [250; 250; 250; 120]
                       ++ [[250; 250; 250; 90]]
                       ++ replicate 4 [250; 250; 250; 120])))
           2 2 200%float); reflexivity.
Defined.

(** ** What [aggressiveEdgeCleanup] may change *)

Lemma byte_between_0_128 (v : Z) :
  0 <= v <= 255 ->
  ((0 <? JS.of_int v)%float && (JS.of_int v <? 128)%float) = ((0 <? v) && (v <? 128)).
Proof.
  intros Hv. apply Bool.eqb_prop.
  apply (forallb_range
           (fun v => Bool.eqb ((0 <? JS.of_int v)%float && (JS.of_int v <? 128)%float)
                              ((0 <? v) && (v <? 128))) 0 256);
    [vm_compute; reflexivity | lia].
Qed.

(** The brightness [(r + g + b) / 3] of a pixel, compared with an integer
    bound, is the comparison of the sum of its channels. *)
Lemma sum_bytes (r g b : Z) :
  0 <= r <= 255 -> 0 <= g <= 255 -> 0 <= b <= 255 ->
  (JS.of_int r + JS.of_int g + JS.of_int b)%float = JS.of_int (r + g + b).
Proof. intros Hr Hg Hb. rewrite !add_small_ints by lia. done. Qed.

Lemma brightness_above_150 (s : Z) :
  0 <= s <= 765 -> (150 <? JS.of_int s / 3)%float = (450 <? s).
Proof.
  intros Hs. apply Bool.eqb_prop.
  apply (forallb_range
           (fun s => Bool.eqb (150 <? JS.of_int s / 3)%float (450 <? s)) 0 766);
    [vm_compute; reflexivity | lia].
Qed.

Lemma get_nan_not_pos (a : list Z) (i : Z) :
  rd a i = None -> (0 <? get a i)%float = false.
Proof. intros H. unfold get. by rewrite H. Qed.

(** What [aggressiveEdgeCleanup] does to the alpha of pixel [n]. *)
Lemma aggressiveEdgeCleanup_cases (img : ImageData) (n : Z) :
  bytes (data img) = true ->
  alpha_of (aggressiveEdgeCleanup img) n = alpha_of (data img) n
  \/ (alpha_of (aggressiveEdgeCleanup img) n = Some 0
      /\ exists p, pixel_at (data img) n = Some p
           /\ 0 < pA p < 128 /\ 450 < pR p + pG p + pB p).
Proof.
  intros Hb. revert n. unfold aggressiveEdgeCleanup.
  set (d := data img).
  apply (loop2_ind (fun s => keeps_colours d s /\ forall n,
           alpha_of s n = alpha_of d n
           \/ (alpha_of s n = Some 0
               /\ exists p, pixel_at d n = Some p
                    /\ 0 < pA p < 128 /\ 450 < pR p + pG p + pB p))).
  { split; [apply keeps_colours_refl|by left]. }
  intros y x s _ _ [Hk Hs].
  set (k := y * width img + x).
  lazymatch goal with
  | |- context [if ?c then _ else s] => destruct c eqn:Ea; [|done]
  end.
  destruct (for_each _ _ _) as [hasOpaque opaqueCount].
  lazymatch goal with
  | |- context [if ?c then _ else s] => destruct c eqn:Ec; [|done]
  end.
  split; [apply keeps_colours_set; [apply alpha_slot_mod|done]|].
  intros n. unfold alpha_of. rewrite rd_set.
  destruct (decide (k * 4 + 3 = 4 * n + 3)) as [E|E]; [|apply Hs].
  assert (n = k) as -> by lia. clear E.
  destruct (rd s (k * 4 + 3)) as [a|] eqn:Es;
    [|by rewrite (get_nan_not_pos _ _ Es) in Ea].
  right. split; [done|].
  rewrite (get_of_rd _ _ _ Es) in Ea.
  destruct (Hs k) as [Hsame|[Hzero _]]; unfold alpha_of in *;
    replace (4 * k + 3) with (k * 4 + 3) in * by lia.
  2:{ rewrite Es in Hzero. injection Hzero as ->. by vm_compute in Ea. }
  rewrite Es in Hsame. symmetry in Hsame.
  pose proof (bytes_rd _ _ _ Hb Hsame) as Ha.
  rewrite byte_between_0_128 in Ea by done.
  pose proof (rd_Some_lt _ _ _ Hsame) as Hlt.
  destruct (pixel_at_is_Some d k ltac:(lia) ltac:(lia)) as [p Hp].
  exists p. split; [done|].
  pose proof (pixel_at_bytes _ _ _ Hb Hp) as (Hr & Hg & Hbl & _).
  unfold pixel_at in Hp.
  destruct Hk as [_ Hk].
  replace (4 * k) with (k * 4) in Hp by lia.
  destruct (rd d (k * 4)) as [r0|] eqn:E0; [|done].
  destruct (rd d (k * 4 + 1)) as [g0|] eqn:E1; [|done].
  destruct (rd d (k * 4 + 2)) as [b0|] eqn:E2; [|done].
  rewrite Hsame in Hp. injection Hp as <-. simpl in *.
  apply andb_prop in Ec as [_ Ec].
  assert (M0 : (k * 4) mod 4 <> 3) by (rewrite Z_mod_mult; lia).
  assert (M1 : (k * 4 + 1) mod 4 <> 3).
  { rewrite Z.add_comm, Z_mod_plus_full. by vm_compute. }
  assert (M2 : (k * 4 + 2) mod 4 <> 3).
  { rewrite Z.add_comm, Z_mod_plus_full. by vm_compute. }
  rewrite <- (Hk _ M0) in E0. rewrite <- (Hk _ M1) in E1. rewrite <- (Hk _ M2) in E2.
  rewrite (get_of_rd _ _ _ E0), (get_of_rd _ _ _ E1), (get_of_rd _ _ _ E2) in Ec.
  rewrite sum_bytes, brightness_above_150 in Ec by lia.
  lia.
Qed.

(** X4. [aggressiveEdgeCleanup] only clears, and only translucent bright
    pixels: every alpha of the result is the alpha of the image, or it is 0
    and the pixel had an alpha strictly between 0 and 128 and a brightness
    [(r + g + b) / 3] above 150. *)
Theorem cleanup_only_clears (img : ImageData) (n : Z) :
  bytes (data img) = true ->
  alpha_of (aggressiveEdgeCleanup img) n = alpha_of (data img) n
  \/ (alpha_of (aggressiveEdgeCleanup img) n = Some 0
      /\ exists p, pixel_at (data img) n = Some p
           /\ 0 < pA p < 128 /\ 450 < pR p + pG p + pB p).
Proof. apply aggressiveEdgeCleanup_cases. Qed.

Lemma cleanup_only_clears_witness :
  alpha_of (aggressiveEdgeCleanup (mkImageData 1 1 [200; 200; 200; 100])) 0
  = alpha_of [200; 200; 200; 100] 0
  \/ (alpha_of (aggressiveEdgeCleanup (mkImageData 1 1 [200; 200; 200; 100])) 0 = Some 0
      /\ exists p, pixel_at [200; 200; 200; 100] 0 = Some p
           /\ 0 < pA p < 128 /\ 450 < pR p + pG p + pB p).
Proof.
  apply (cleanup_only_clears (mkImageData 1 1 [200; 200; 200; 100]) 0). reflexivity.
Defined.

(** ** [smoothEdges] in integers *)

Lemma round_mean_of_9 (s : Z) :
  0 <= s <= 2295 ->
  JS.toUint8Clamp (JS.round (JS.of_int s / JS.of_int 9)%float) = (2 * s + 9) / 18.
Proof.
  intros Hs. apply Z.eqb_eq.
  apply (forallb_range
           (fun s => JS.toUint8Clamp (JS.round (JS.of_int s / JS.of_int 9)%float)
                     =? (2 * s + 9) / 18) 0 2296);
    [vm_compute; reflexivity | lia].
Qed.

Lemma byte_between_0_255 (v : Z) :
  0 <= v <= 255 ->
  ((0 <? JS.of_int v)%float && (JS.of_int v <? 255)%float) = ((0 <? v) && (v <? 255)).
Proof.
  intros Hv. apply Bool.eqb_prop.
  apply (forallb_range
           (fun v => Bool.eqb ((0 <? JS.of_int v)%float && (JS.of_int v <? 255)%float)
                              ((0 <? v) && (v <? 255))) 0 256);
    [vm_compute; reflexivity | lia].
Qed.

(** The alpha of a pixel of a well-formed image, as the loops read it. *)
Lemma get_alpha_xy (img : ImageData) (x y : Z) :
  well_formed img = true -> 0 <= x < width img -> 0 <= y < height img ->
  get (data img) ((y * width img + x) * 4 + 3) = JS.of_int (alpha_xy (data img) (width img) x y)
  /\ 0 <= alpha_xy (data img) (width img) x y <= 255.
Proof.
  intros (Hw & Hh & Hlen & Hb)%well_formed_inv Hx Hy.
  pose proof (pixel_index_bound _ _ _ _ Hx Hy) as Hk.
  unfold alpha_xy, alpha_of. unfold pixel_index in *.
  replace (4 * (y * width img + x) + 3) with ((y * width img + x) * 4 + 3) by lia.
  destruct (rd_lt_Some (data img) ((y * width img + x) * 4 + 3) ltac:(lia)) as [v Hv].
  rewrite (get_of_rd _ _ _ Hv), Hv. simpl. split; [done|by eapply bytes_rd].
Qed.

(** The byte [smoothEdges] stores for the pixel at (x, y), if it stores
    one: it is computed from the copy of the buffer. *)
Lemma smoothEdges_fold (img : ImageData) :
  well_formed img = true ->
  smoothEdges img
  = fold_left (fun s yx =>
      slot_body (fun yx : Z * Z => (yx.1 * width img + yx.2) * 4 + 3)
        (fun yx _ =>
           let a := alpha_xy (data img) (width img) yx.2 yx.1 in
           if (0 <? a) && (a <? 255)
           then Some ((2 * alpha_sum3x3 (data img) (width img) yx.2 yx.1 + 9) / 18)
           else None) yx s)
      (grid (range 1 (height img - 1)) (range 1 (width img - 1))) (data img).
Proof.
  intros Hwf. unfold smoothEdges. rewrite for_each_grid.
  apply fold_left_ext. intros s [y x] Hyx. simpl.
  apply elem_of_grid in Hyx as [Hy%elem_of_range Hx%elem_of_range].
  unfold slot_body.
  destruct (get_alpha_xy img x y Hwf ltac:(lia) ltac:(lia)) as [-> Ha].
  rewrite byte_between_0_255 by done.
  destruct (_ && _); [|done].
  change (-1 + Z.of_nat 0) with (-1). change (-1 + Z.of_nat 1) with 0.
  change (-1 + Z.of_nat 2) with 1. cbn [fst snd].
  destruct (get_alpha_xy img (x + -1) (y + -1) Hwf ltac:(lia) ltac:(lia)) as [-> ?].
  destruct (get_alpha_xy img (x + 0) (y + -1) Hwf ltac:(lia) ltac:(lia)) as [-> ?].
  destruct (get_alpha_xy img (x + 1) (y + -1) Hwf ltac:(lia) ltac:(lia)) as [-> ?].
  destruct (get_alpha_xy img (x + -1) (y + 0) Hwf ltac:(lia) ltac:(lia)) as [-> ?].
  destruct (get_alpha_xy img (x + 0) (y + 0) Hwf ltac:(lia) ltac:(lia)) as [-> ?].
  destruct (get_alpha_xy img (x + 1) (y + 0) Hwf ltac:(lia) ltac:(lia)) as [-> ?].
  destruct (get_alpha_xy img (x + -1) (y + 1) Hwf ltac:(lia) ltac:(lia)) as [-> ?].
  destruct (get_alpha_xy img (x + 0) (y + 1) Hwf ltac:(lia) ltac:(lia)) as [-> ?].
  destruct (get_alpha_xy img (x + 1) (y + 1) Hwf ltac:(lia) ltac:(lia)) as [-> ?].
  change 0%float with (JS.of_int 0) at 1.
  rewrite !add_ints by lia.
  change (0 + 1 + 1 + 1 + 1 + 1 + 1 + 1 + 1 + 1) with 9.
  unfold set. rewrite round_mean_of_9 by lia.
  unfold alpha_sum3x3.
  replace (x + -1) with (x - 1) by lia. replace (y + -1) with (y - 1) by lia.
  rewrite !Z.add_0_r. repeat f_equal; lia.
Qed.

(** X5. [smoothEdges] in integers, on a well-formed image: a pixel off the
    border whose alpha is strictly between 0 and 255 takes the mean of the
    nine alphas of its 3x3 block in the image as it was, rounded half up,
    that is [(2 * sum + 9) / 18]; every other pixel keeps its alpha. *)
Theorem smoothEdges_mean (img : ImageData) (x y a : Z) :
  well_formed img = true ->
  0 <= x < width img -> 0 <= y < height img ->
  alpha_of (data img) (pixel_index (width img) x y) = Some a ->
  alpha_of (smoothEdges img) (pixel_index (width img) x y)
  = Some (if interior (width img) (height img) x y && (0 <? a) && (a <? 255)
          then (2 * alpha_sum3x3 (data img) (width img) x y + 9) / 18
          else a).
Proof.
  intros Hwf Hx Hy Ha. rewrite (smoothEdges_fold _ Hwf).
  assert (Hxy : alpha_xy (data img) (width img) x y = a).
  { unfold alpha_xy. by rewrite Ha. }
  unfold alpha_of, pixel_index in *.
  replace (4 * (y * width img + x) + 3) with ((y * width img + x) * 4 + 3) in * by lia.
  destruct (interior _ _ x y) eqn:Ei.
  - unfold interior in Ei.
    erewrite (slot_loop_own (fun yx : Z * Z => (yx.1 * width img + yx.2) * 4 + 3))
      with (i := (y, x)).
    + simpl. rewrite Hxy, Ha. by destruct (0 <? a), (a <? 255).
    + done.
    + apply NoDup_grid_slots; lia.
    + apply elem_of_grid. rewrite !elem_of_range. lia.
  - rewrite slot_loop_other; [done|].
    intros [y' x'] [Hy'%elem_of_range Hx'%elem_of_range]%elem_of_grid Heq. simpl in Heq.
    assert (y' = y /\ x' = x) as [-> ->] by (apply (pixel_index_inj (width img)); lia).
    unfold interior in Ei. lia.
Qed.

Lemma smoothEdges_mean_witness :
  alpha_of (smoothEdges (mkImageData 3 3
              (concat (map (fun a => [10; 20; 30; a]) [0; 0; 255; 0; 100; 255; 0; 255; 255]))))
           (pixel_index 3 1 1)
  = Some 124.
Proof.
  apply (smoothEdges_mean
           (mkImageData 3 3
              (concat (map (fun a => [10; 20; 30; a]) [0; 0; 255; 0; 100; 255; 0; 255; 255])))
           1 1 100); [reflexivity | simpl; lia | simpl; lia | reflexivity].
Defined.

(** ** [detectBackgroundColor] in integers *)

Lemma round_quarter (s : Z) :
  0 <= s <= 1020 -> JS.round (JS.of_int s / JS.of_int 4)%float = JS.of_int ((2 * s + 4) / 8).
Proof.
  intros Hs. apply FloatAxioms.Leibniz.eqb_spec.
  apply (forallb_range
           (fun s => PrimFloat.Leibniz.eqb (JS.round (JS.of_int s / JS.of_int 4)%float)
                                            (JS.of_int ((2 * s + 4) / 8))) 0 1021);
    [vm_compute; reflexivity | lia].
Qed.

Lemma sum_of_four (a b c d : Z) :
  0 <= a <= 255 -> 0 <= b <= 255 -> 0 <= c <= 255 -> 0 <= d <= 255 ->
  (0 + JS.of_int a + JS.of_int b + JS.of_int c + JS.of_int d)%float
  = JS.of_int (a + b + c + d).
Proof.
  intros. change 0%float with (JS.of_int 0). rewrite !add_ints by lia. done.
Qed.

Lemma pixel_at_rd (d : list Z) (k : Z) (p : Pixel) :
  pixel_at d k = Some p ->
  rd d (4 * k) = Some (pR p) /\ rd d (4 * k + 1) = Some (pG p)
  /\ rd d (4 * k + 2) = Some (pB p) /\ rd d (4 * k + 3) = Some (pA p).
Proof.
  unfold pixel_at. intros H.
  destruct (rd d (4 * k)); [|done]. destruct (rd d (4 * k + 1)); [|done].
  destruct (rd d (4 * k + 2)); [|done]. destruct (rd d (4 * k + 3)); [|done].
  by injection H as <-.
Qed.

(** X6. [detectBackgroundColor] in integers: on an image with at least one
    pixel, each channel of the detected colour is the mean of that channel
    over the four corner pixels, rounded half up (on a single row or column
    corners coincide and count twice). *)
Theorem detectBackgroundColor_mean (img : ImageData) (p1 p2 p3 p4 : Pixel) :
  bytes (data img) = true ->
  pixel_at (data img) (pixel_index (width img) 0 0) = Some p1 ->
  pixel_at (data img) (pixel_index (width img) (width img - 1) 0) = Some p2 ->
  pixel_at (data img) (pixel_index (width img) 0 (height img - 1)) = Some p3 ->
  pixel_at (data img) (pixel_index (width img) (width img - 1) (height img - 1)) = Some p4 ->
  detectBackgroundColor img
  = mkRGB (JS.of_int (rounded_mean4 (pR p1) (pR p2) (pR p3) (pR p4)))
          (JS.of_int (rounded_mean4 (pG p1) (pG p2) (pG p3) (pG p4)))
          (JS.of_int (rounded_mean4 (pB p1) (pB p2) (pB p3) (pB p4))).
Proof.
  intros Hb H1 H2 H3 H4.
  pose proof (pixel_at_bytes _ _ _ Hb H1) as (? & ? & ? & _).
  pose proof (pixel_at_bytes _ _ _ Hb H2) as (? & ? & ? & _).
  pose proof (pixel_at_bytes _ _ _ Hb H3) as (? & ? & ? & _).
  pose proof (pixel_at_bytes _ _ _ Hb H4) as (? & ? & ? & _).
  apply pixel_at_rd in H1 as (R1 & G1 & B1 & _).
  apply pixel_at_rd in H2 as (R2 & G2 & B2 & _).
  apply pixel_at_rd in H3 as (R3 & G3 & B3 & _).
  apply pixel_at_rd in H4 as (R4 & G4 & B4 & _).
  unfold pixel_index in *.
  unfold detectBackgroundColor, for_each. cbn [fold_left].
  set (w := width img) in *. set (h := height img) in *.
  replace (4 * (0 * w + 0)) with 0 in * by lia.
  replace (4 * (0 * w + (w - 1))) with ((w - 1) * 4) in * by lia.
  replace (4 * ((h - 1) * w + 0)) with ((h - 1) * w * 4) in * by lia.
  replace (4 * ((h - 1) * w + (w - 1))) with (((h - 1) * w + (w - 1)) * 4) in * by lia.
  rewrite (get_of_rd _ _ _ R1), (get_of_rd _ _ _ G1), (get_of_rd _ _ _ B1),
    (get_of_rd _ _ _ R2), (get_of_rd _ _ _ G2), (get_of_rd _ _ _ B2),
    (get_of_rd _ _ _ R3), (get_of_rd _ _ _ G3), (get_of_rd _ _ _ B3),
    (get_of_rd _ _ _ R4), (get_of_rd _ _ _ G4), (get_of_rd _ _ _ B4).
  rewrite !sum_of_four by lia.
  change (len [0; (w - 1) * 4; (h - 1) * w * 4; ((h - 1) * w + (w - 1)) * 4]) with 4.
  rewrite !round_quarter by lia. reflexivity.
Qed.

Lemma detectBackgroundColor_mean_witness :
  detectBackgroundColor
    (mkImageData 2 2 [10; 20; 30; 255; 11; 20; 31; 255; 12; 21; 30; 255; 13; 21; 33; 0])
  = mkRGB (JS.of_int 12) (JS.of_int 21) (JS.of_int 31).
Proof.
  apply (detectBackgroundColor_mean
           (mkImageData 2 2 [10; 20; 30; 255; 11; 20; 31; 255; 12; 21; 30; 255; 13; 21; 33; 0])
           (mkPixel 10 20 30 255) (mkPixel 11 20 31 255) (mkPixel 12 21 30 255)
           (mkPixel 13 21 33 0)); reflexivity.
Defined.

(** ** [hexToRgb] *)

Lemma hexDigit_range (c : ascii) (v : Z) : hexDigit c = Some v -> 0 <= v <= 15.
Proof.
  unfold hexDigit. cbv zeta.
  repeat (case_match; [intros [= <-]; lia|]). done.
Qed.

Lemma hexDigits_range (l : list ascii) :
  Forall (fun o => forall v, o = Some v -> 0 <= v <= 15) (map hexDigit l).
Proof.
  induction l as [|c l IH]; constructor; [|done].
  intros v. apply hexDigit_range.
Qed.

(** X20. [hexToRgb] always yields byte components: for any string, the
    three components are integers from 0 to 255; and a string shorter than
    six characters or longer than seven, the three-digit short form
    included, yields black. *)
Theorem hexToRgb_bytes (hex : string) :
  (exists r g b, 0 <= r <= 255 /\ 0 <= g <= 255 /\ 0 <= b <= 255
                 /\ hexToRgb hex = mkRGB (JS.of_int r) (JS.of_int g) (JS.of_int b))
  /\ ((String.length hex < 6)%nat \/ (7 < String.length hex)%nat ->
      hexToRgb hex = mkRGB 0%float 0%float 0%float).
Proof.
  unfold hexToRgb. cbv zeta.
  set (digits := match hex with String "#"%char rest => rest | _ => hex end).
  assert (Hlen : (String.length digits <= String.length hex <= S (String.length digits))%nat).
  { unfold digits. destruct hex as [|c rest]; [simpl; lia|].
    destruct (decide (c = "#"%char)) as [->|Hc]; [simpl; lia|].
    assert (match String c rest with String "#"%char r0 => r0 | _ => String c rest end
            = String c rest) as ->; [|lia].
    destruct c as [[] [] [] [] [] [] [] []]; done. }
  pose proof (hexDigits_range (list_ascii_of_string digits)) as Hr.
  assert (Hl : length (map hexDigit (list_ascii_of_string digits)) = String.length digits).
  { rewrite length_map. clear. induction digits as [|c s IH]; [done|]. simpl. by rewrite IH. }
  destruct (map hexDigit (list_ascii_of_string digits))
    as [|[a1|] [|[a0|] [|[b1|] [|[b0|] [|[c1|] [|[c0|] [|? ?]]]]]]];
    simpl in Hl;
    try (split; [by exists 0, 0, 0|intros; reflexivity]).
  repeat match goal with
         | H : Forall _ (_ :: _) |- _ => apply Forall_cons in H as [? H]
         end.
  split; [|lia].
  exists (16 * a1 + a0), (16 * b1 + b0), (16 * c1 + c0).
  assert (0 <= a1 <= 15) by auto. assert (0 <= a0 <= 15) by auto.
  assert (0 <= b1 <= 15) by auto. assert (0 <= b0 <= 15) by auto.
  assert (0 <= c1 <= 15) by auto. assert (0 <= c0 <= 15) by auto.
  repeat split; lia.
Qed.

(** ** Comparing a number with a byte *)

Lemma of_int_byte_value (a : Z) :
  1 <= a <= 255 ->
  exists m e, Prim2SF (JS.of_int a) = S754_finite false m e
    /\ Z.pos (digits2_pos m) = 53 /\ -52 <= e <= -45 /\ Z.pos m = a * 2 ^ (- e).
Proof.
  intros Ha.
  pose proof (forallb_range byte_mantissa 1 256 ltac:(vm_compute; reflexivity) a
                ltac:(lia)) as H.
  unfold byte_mantissa in H.
  destruct (Prim2SF (JS.of_int a)) as [s|s| |s m e]; [done|done|done|].
  destruct s; [done|]. exists m, e. split; [done|].
  apply andb_prop in H as [H H4]. apply andb_prop in H as [H H3].
  apply andb_prop in H as [H1 H2]. lia.
Qed.

(** A finite number has at most 53 binary digits. *)
Lemma valid_finite (x : float) (s : bool) (m : positive) (e : Z) :
  Prim2SF x = S754_finite s m e ->
  Z.pos m < 2 ^ 53 /\ -1074 <= e <= 971.
Proof.
  intros Fx. pose proof (Prim2SF_valid x) as Hv. rewrite Fx in Hv.
  unfold valid_binary, bounded, canonical_mantissa, fexp, emin in Hv.
  apply andb_prop in Hv as [H1 H2]. apply Z.eqb_eq in H1. apply Z.leb_le in H2.
  change prec with 53 in *. change emax with 1024 in *.
  assert (Hd : Z.pos (digits2_pos m) <= 53) by lia.
  split; [|lia].
  destruct (digits2_bounds m) as [_ Hm].
  apply Z.lt_le_trans with (2 ^ Z.pos (digits2_pos m)); [done|].
  apply Z.pow_le_mono_r; lia.
Qed.

(** The order of a positive finite number and a byte, on exact
    fractions. *)
Lemma compare_byte_fraction (x : float) (a : Z) (m : positive) (e : Z) (c : comparison) :
  1 <= a <= 255 ->
  Prim2SF x = S754_finite false m e ->
  SFcompare (Prim2SF x) (Prim2SF (JS.of_int a)) = Some c -> c <> Gt ->
  exists pe, e = Z.neg pe /\ Z.pos m <= a * 2 ^ Z.pos pe
    /\ (c = Lt -> Z.pos m < a * 2 ^ Z.pos pe)
    /\ (c = Eq -> Prim2SF x = Prim2SF (JS.of_int a)).
Proof.
  intros Ha Fx Hc Hne.
  destruct (valid_finite _ _ _ _ Fx) as [Hm He].
  destruct (of_int_byte_value a Ha) as (ma & ea & Fa & Da & Hea & Hma).
  rewrite Fx, Fa in *. simpl in Hc. injection Hc as Hc.
  pose proof (digits2_bounds ma) as Bma. rewrite Da in Bma.
  change (2 ^ (53 - 1)) with (2 ^ 52) in Bma.
  destruct (Z.compare_spec e ea) as [->|Hlt|Hgt]; [| |congruence].
  - change (Pos.compare_cont Eq m ma) with (Pos.compare m ma) in Hc.
    destruct ea as [|pe|pe]; [lia|lia|]. exists pe. split; [done|].
    change (- Z.neg pe) with (Z.pos pe) in Hma.
    destruct (Pos.compare_spec m ma) as [->|Hl|Hg]; subst c.
    + split; [lia|]. split; [done|done].
    + split; [lia|]. split; [lia|done].
    + done.
  - subst c. destruct e as [|pe|pe]; [lia|lia|]. exists pe. split; [done|].
    assert (Hpow : a * 2 ^ Z.pos pe = Z.pos ma * 2 ^ (ea - Z.neg pe)).
    { rewrite Hma, <- Z.mul_assoc, <- Z.pow_add_r by lia. f_equal. f_equal. lia. }
    assert (2 ^ 1 <= 2 ^ (ea - Z.neg pe)) by (apply Z.pow_le_mono_r; lia).
    change (2 ^ 1) with 2 in *. change (2 ^ 53) with (2 * 2 ^ 52) in *.
    rewrite Hpow. split; [nia|]. split; [intros _; nia|done].
Qed.

(** The clamped store of a number given as a fraction below a byte. *)
Lemma clamp_fraction_lt (x : float) (a n d : Z) :
  0 <= a -> JS.exact x = Some (n, d) -> 0 < d -> n < a * d -> JS.toUint8Clamp x <= a.
Proof.
  intros Ha E Hd Hn. unfold JS.toUint8Clamp. rewrite E.
  destruct (Z.leb_spec n 0); [lia|].
  destruct (Z.leb_spec (255 * d) n).
  - assert (255 < a) by nia. lia.
  - assert (n / d < a) by (apply Z.div_lt_upper_bound; lia).
    destruct (2 * (n mod d) ?= d); [destruct (Z.even (n / d))|..]; lia.
Qed.

Lemma exact_finite (x : float) (m pe : positive) :
  Prim2SF x = S754_finite false m (Z.neg pe) ->
  JS.exact x = Some (Z.pos m, 2 ^ Z.pos pe).
Proof. intros Fx. unfold JS.exact. by rewrite Fx. Qed.

Lemma clamp_same (x y : float) :
  Prim2SF x = Prim2SF y -> JS.toUint8Clamp x = JS.toUint8Clamp y.
Proof.
  intros H. unfold JS.toUint8Clamp, JS.exact.
  by rewrite !FloatAxioms.ltb_spec, H.
Qed.

Lemma clamp_negative (x : float) :
  SFcompare (Prim2SF x) (S754_zero false) = Some Lt \/
  SFcompare (Prim2SF x) (S754_zero false) = Some Eq ->
  JS.toUint8Clamp x = 0.
Proof.
  intros H. unfold JS.toUint8Clamp, JS.exact.
  rewrite FloatAxioms.ltb_spec. change (Prim2SF 0) with (S754_zero false).
  destruct (Prim2SF x) as [s|s| |s m e]; simpl in *.
  - done.
  - destruct s; [done|]. by destruct H.
  - by destruct H.
  - destruct s; [|by destruct H]. destruct e as [|pe|pe]; [done| |done].
    assert (0 < 2 ^ Z.pos pe) by (apply Z.pow_pos_nonneg; lia).
    destruct (Z.leb_spec (Z.neg m * 2 ^ Z.pos pe) 0); [done|nia].
Qed.

(** A number below a byte is stored as a byte that is not larger. *)
Lemma clamp_lt_byte (x : float) (a : Z) :
  0 <= a <= 255 -> (x <? JS.of_int a)%float = true -> JS.toUint8Clamp x <= a.
Proof.
  intros Ha. rewrite FloatAxioms.ltb_spec. unfold SFltb.
  destruct (SFcompare _ _) as [[| |]|] eqn:Hc; try done. intros _.
  destruct (Z.eq_dec a 0) as [->|Hne].
  { rewrite clamp_negative; [done|]. by left. }
  destruct (Prim2SF x) as [s|s| |s m e] eqn:Fx.
  - pose proof (toUint8Clamp_byte x). unfold JS.toUint8Clamp, JS.exact in *.
    rewrite Fx in *. simpl. lia.
  - rewrite clamp_negative; [lia|]. rewrite Fx. destruct s; [by left|].
    destruct (of_int_byte_value a ltac:(lia)) as (ma & ea & Fa & _).
    rewrite Fa in Hc. done.
  - done.
  - destruct s.
    + rewrite clamp_negative; [lia|]. rewrite Fx. by left.
    + rewrite <- Fx in Hc.
      destruct (compare_byte_fraction x a m e Lt ltac:(lia) Fx Hc ltac:(done))
        as (pe & -> & _ & Hlt & _).
      apply (clamp_fraction_lt x a _ _ ltac:(lia) (exact_finite _ _ _ Fx)).
      * apply Z.pow_pos_nonneg; lia.
      * by apply Hlt.
Qed.

(** A number equal to a byte is stored as that byte. *)
Lemma clamp_eq_byte (x : float) (a : Z) :
  0 <= a <= 255 ->
  SFcompare (Prim2SF x) (Prim2SF (JS.of_int a)) = Some Eq -> JS.toUint8Clamp x = a.
Proof.
  intros Ha Hc.
  destruct (Z.eq_dec a 0) as [->|Hne].
  { rewrite clamp_negative; [done|]. by right. }
  destruct (of_int_byte_value a ltac:(lia)) as (ma & ea & Fa & _).
  destruct (Prim2SF x) as [s|s| |s m e] eqn:Fx.
  - rewrite Fa in Hc. done.
  - rewrite Fa in Hc. by destruct s.
  - done.
  - destruct s; [by rewrite Fa in Hc|].
    rewrite <- Fx in Hc.
    destruct (compare_byte_fraction x a m e Eq ltac:(lia) Fx Hc ltac:(done))
      as (pe & -> & _ & _ & Heq).
    rewrite (clamp_same x (JS.of_int a)) by (by apply Heq).
    by rewrite of_int_byte_store.
Qed.

(** A number that is at most a byte is stored as a byte that is not
    larger. *)
Lemma clamp_le_byte (x : float) (a : Z) :
  0 <= a <= 255 -> (x <=? JS.of_int a)%float = true -> JS.toUint8Clamp x <= a.
Proof.
  intros Ha Hle. rewrite FloatAxioms.leb_spec in Hle. unfold SFleb in Hle.
  destruct (SFcompare _ _) as [[| |]|] eqn:Hc; try done.
  - rewrite (clamp_eq_byte x a Ha Hc). lia.
  - apply clamp_lt_byte; [done|]. rewrite FloatAxioms.ltb_spec. unfold SFltb.
    by rewrite Hc.
Qed.

Lemma is_nan_false (x : float) : is_nan x = false -> Prim2SF x <> S754_nan.
Proof.
  unfold is_nan. rewrite FloatAxioms.eqb_spec. intros H E. rewrite E in H. done.
Qed.

Lemma of_int_byte_not_neg_zero (a : Z) :
  0 <= a <= 255 -> JS.is_neg_zero (JS.of_int a) = false.
Proof.
  intros Ha. destruct (JS.is_neg_zero (JS.of_int a)) eqn:E; [|done].
  pose proof (forallb_range (fun a => negb (JS.is_neg_zero (JS.of_int a))) 0 256
                ltac:(vm_compute; reflexivity) a ltac:(lia)) as H.
  simpl in H. by rewrite E in H.
Qed.

(** [Math.min] of a byte and any number, stored: at most the byte. *)
Lemma min_byte_le (a : Z) (x : float) :
  0 <= a <= 255 -> JS.toUint8Clamp (JS.min (JS.of_int a) x) <= a.
Proof.
  intros Ha. unfold JS.min.
  destruct (is_nan (JS.of_int a) || is_nan x) eqn:En.
  { change (JS.toUint8Clamp nan) with 0. lia. }
  apply orb_false_elim in En as [_ Enx]. apply is_nan_false in Enx.
  destruct (JS.of_int a <? x)%float eqn:E1.
  { rewrite of_int_byte_store by done. lia. }
  destruct (x <? JS.of_int a)%float eqn:E2.
  { by apply clamp_lt_byte. }
  rewrite of_int_byte_not_neg_zero by done.
  rewrite FloatAxioms.ltb_spec in E1, E2. unfold SFltb in E1, E2.
  destruct (SFcompare (Prim2SF x) (Prim2SF (JS.of_int a))) as [c|] eqn:Hc.
  2:{ apply SFcompare_None in Hc as [Hc|Hc]; [done|].
      exfalso. destruct (Z.eq_dec a 0) as [->|Hne]; [done|].
      destruct (of_int_byte_value a ltac:(lia)) as (ma & ea & Fa & _). congruence. }
  rewrite (SFcompare_antisym _ _ _ Hc) in E1.
  destruct c; try done. clear E1 E2.
  rewrite (clamp_eq_byte x a Ha Hc). lia.
Qed.

Lemma removeByColor_lowers (img : ImageData) (target : RGB) (threshold : JS.num) :
  bytes (data img) = true ->
  never_raises (data img) (removeByColor img target threshold).
Proof.
  intros Hb n a Ha. unfold alpha_of in *. rewrite removeByColor_rd.
  replace (4 * n + 3 - 3) with (4 * n) by lia.
  pose proof (bytes_rd _ _ _ Hb Ha) as Hbyte.
  unfold colorKey_alpha. rewrite (get_of_rd _ _ _ Ha).
  destruct (_ <? _)%float;
    rewrite decide_True by (rewrite Z.mul_comm; apply Z_mod_mult); rewrite Ha.
  - exists 0. split; [done|lia].
  - eexists. split; [reflexivity|].
    split; [apply toUint8Clamp_byte|by apply min_byte_le].
Qed.

(** X7. Colour-key matting never raises an alpha: whatever the target
    colour and the threshold (any numbers, NaN included), every pixel of the
    result has an alpha between 0 and the alpha it had. *)
Theorem removeByColor_never_raises (img : ImageData) (target : RGB) (threshold : JS.num)
    (n a : Z) :
  bytes (data img) = true ->
  alpha_of (data img) n = Some a ->
  exists a', alpha_of (removeByColor img target threshold) n = Some a' /\ 0 <= a' <= a.
Proof. intros Hb Ha. by apply removeByColor_lowers. Qed.

Lemma removeByColor_never_raises_witness :
  exists a', alpha_of (removeByColor (mkImageData 1 1 [10; 20; 30; 200])
                         (mkRGB 12 20 30)%float 50%float) 0 = Some a'
             /\ 0 <= a' <= 200.
Proof.
  apply (removeByColor_never_raises (mkImageData 1 1 [10; 20; 30; 200])
           (mkRGB 12 20 30)%float 50%float 0 200); reflexivity.
Defined.

(** ** Reference-mode matting never raises an alpha *)

(** The product of a byte and a fade factor of at most 1 is at most the
    byte. *)
Lemma mul_byte_fade (a : Z) (f : float) (mf : positive) (ef : Z) :
  1 <= a <= 255 ->
  Prim2SF f = S754_finite false mf ef -> Z.pos (digits2_pos mf) = 53 ->
  -152 <= ef <= -52 -> (ef = -52 -> Z.pos mf = 2 ^ 52) ->
  exists m pe, Prim2SF (JS.of_int a * f) = S754_finite false m (Z.neg pe)
    /\ Z.pos m <= a * 2 ^ Z.pos pe.
Proof.
  intros Ha Ff Df Hef Hone.
  destruct (of_int_byte_value a Ha) as (ma & ea & Fa & Da & Hea & Hma).
  rewrite FloatAxioms.mul_spec, Fa, Ff. unfold SF64mul, SFmul. cbn [xorb].
  set (P := (ma * mf)%positive). set (E := ea + ef).
  pose proof (digits2_bounds ma) as Bma. rewrite Da in Bma.
  pose proof (digits2_bounds mf) as Bmf. rewrite Df in Bmf.
  change (2 ^ (53 - 1)) with (2 ^ 52) in *.
  assert (HP : Z.pos P = Z.pos ma * Z.pos mf) by (unfold P; lia).
  assert (Hgoal : forall (m : positive) (e : Z),
            Z.pos m < 2 ^ 53 -> e <= ea -> (e = ea -> Z.pos m <= Z.pos ma) ->
            exists m' pe, S754_finite false m e = S754_finite false m' (Z.neg pe)
              /\ Z.pos m' <= a * 2 ^ Z.pos pe).
  { intros m e Hm He Heq. destruct e as [|pe|pe]; [lia|lia|]. exists m, pe.
    split; [done|].
    assert (Hpow : a * 2 ^ Z.pos pe = Z.pos ma * 2 ^ (ea - Z.neg pe)).
    { rewrite Hma, <- Z.mul_assoc, <- Z.pow_add_r by lia. f_equal. f_equal. lia. }
    rewrite Hpow. destruct (Z.eq_dec (Z.neg pe) ea) as [E0|E0].
    - rewrite E0, Z.sub_diag. change (2 ^ 0) with 1. specialize (Heq E0). lia.
    - assert (2 ^ 1 <= 2 ^ (ea - Z.neg pe)) by (apply Z.pow_le_mono_r; lia).
      change (2 ^ 1) with 2 in *. change (2 ^ 53) with (2 * 2 ^ 52) in *. nia. }
  assert (Hdig : forall m : positive, Z.pos (digits2_pos m) = 53 -> Z.pos m < 2 ^ 53).
  { intros m Dm. pose proof (digits2_bounds m) as B. rewrite Dm in B. lia. }
  destruct (digits2_product ma mf Da Df) as [Hd|Hd]; fold P in Hd.
  - destruct (round_product P E 52 Hd ltac:(lia) ltac:(lia) ltac:(lia))
      as (m & e & -> & Dm & He & _ & Hback & Hmant & Hcm).
    apply Hgoal; [by apply Hdig| |].
    + destruct He as [->| ->]; [lia|].
      destruct (Z.eq_dec ef (-52)) as [E52|]; [|lia]. exfalso.
      destruct (Hback eq_refl) as [_ Hodd].
      rewrite HP, (Hone E52) in Hodd.
      change (2 ^ 52) with (2 * 2 ^ (52 - 1)) in Hodd.
      rewrite Z.mul_assoc, Z.div_mul in Hodd by lia.
      rewrite Z.mul_comm, Z.odd_mul in Hodd. done.
    + intros Heq. destruct He as [He|He].
      * assert (E52 : ef = -52) by lia.
        destruct (Hmant He) as [Hq|[_ Hodd]].
        -- rewrite Hq, HP, (Hone E52), Z.div_mul by lia. lia.
        -- exfalso. rewrite HP, (Hone E52) in Hodd.
           change (2 ^ 52) with (2 * 2 ^ (52 - 1)) in Hodd.
           rewrite Z.mul_assoc, Z.div_mul in Hodd by lia.
           rewrite Z.mul_comm, Z.odd_mul in Hodd. done.
      * rewrite (Hcm He). lia.
  - pose proof (digits2_bounds P) as BP. rewrite Hd in BP.
    change (2 ^ (53 + 53 - 1)) with (2 ^ 52 * 2 ^ 53) in BP.
    assert (Hne : ef <> -52).
    { intros E52. specialize (Hone E52). rewrite HP, Hone in BP. nia. }
    assert (Hq : Z.pos P / 2 ^ 53 <= Z.pos ma - 1).
    { assert (Z.pos P / 2 ^ 53 < Z.pos ma); [|lia].
      apply Z.div_lt_upper_bound; [lia|]. rewrite HP. nia. }
    destruct (round_product P E 53 Hd ltac:(lia) ltac:(lia) ltac:(lia))
      as (m & e & -> & Dm & He & _ & Hback & Hmant & Hcm).
    apply Hgoal; [by apply Hdig| |].
    + destruct He as [->| ->]; [lia|].
      destruct (Z.eq_dec ef (-53)) as [E53|]; [|lia]. exfalso.
      destruct (Hback eq_refl) as [Hq1 _]. lia.
    + intros Heq. destruct He as [He|He].
      * destruct (Hmant He) as [Hq1|[Hq1 _]]; lia.
      * rewrite (Hcm He). lia.
Qed.

(** [Math.round] of a fraction that is at most a byte, stored. *)
Lemma round_fraction_le (v : float) (a : Z) (m pe : positive) :
  0 <= a <= 255 ->
  Prim2SF v = S754_finite false m (Z.neg pe) -> Z.pos m <= a * 2 ^ Z.pos pe ->
  0 <= JS.toUint8Clamp (JS.round v) <= a.
Proof.
  intros Ha Fv Hm. split; [apply toUint8Clamp_byte|].
  unfold JS.round. rewrite (exact_finite _ _ _ Fv).
  set (d := 2 ^ Z.pos pe) in *.
  assert (Hd : 2 ^ 1 <= d) by (apply Z.pow_le_mono_r; lia).
  change (2 ^ 1) with 2 in Hd.
  destruct (Z.eqb_spec d 1) as [|_]; [lia|].
  change (Z.pos m <? 0) with false. rewrite andb_false_r.
  set (r := (2 * Z.pos m + d) / (2 * d)).
  assert (Hr : 0 <= r <= a).
  { split; [apply Z.div_pos; lia|].
    assert (r < a + 1); [|lia]. apply Z.div_lt_upper_bound; [lia|]. nia. }
  rewrite of_int_byte_store by lia. lia.
Qed.

Lemma band_steps :
  all_from 100 1%float (fun t =>
    all_from 255 1%float (fun A =>
      all_from 256 0%float (band_ok ((t * 2.55) * (A / 255))%float)))
  = true.
Proof. vm_compute. reflexivity. Qed.

Lemma band_table (t A m : Z) :
  1 <= t <= 100 -> 1 <= A <= 255 -> 0 <= m <= 255 ->
  band_ok (effectiveThreshold (JS.of_int t) A) (JS.of_int m) = true.
Proof.
  intros Ht HA Hm.
  pose proof (all_from_spec 100 _ 1%float 1 eq_refl ltac:(lia) ltac:(lia)
                band_steps t ltac:(lia)) as H1.
  pose proof (all_from_spec 255 _ 1%float 1 eq_refl ltac:(lia) ltac:(lia)
                H1 A ltac:(lia)) as H2.
  exact (all_from_spec 256 _ 0%float 0 eq_refl ltac:(lia) ltac:(lia) H2 m ltac:(lia)).
Qed.

(** The faded alpha is at most the alpha. *)
Lemma faded_alpha_le (a : Z) (f : float) :
  0 <= a <= 255 -> fade_in_range f = true ->
  0 <= JS.toUint8Clamp (JS.round (JS.of_int a * f)%float) <= a.
Proof.
  intros Ha Hf. split; [apply toUint8Clamp_byte|].
  destruct (Z.eq_dec a 0) as [->|Hne].
  { destruct (mul_zero_l (JS.of_int 0) f false eq_refl Hf) as [s' E].
    by rewrite (round_store_of_zero _ _ E). }
  destruct (fade_in_range_cases f Hf) as [[s Fz]|(mf & ef & Ff & Df & Hef & Hone)].
  { destruct (of_int_byte_normal a ltac:(lia)) as (ma & ea & Fa & _).
    destruct (mul_zero_r (JS.of_int a) f s ltac:(right; eauto) Fz) as [s' E].
    rewrite (round_store_of_zero _ _ E). lia. }
  destruct (mul_byte_fade a f mf ef ltac:(lia) Ff Df Hef Hone) as (m & pe & Fv & Hm).
  by apply (round_fraction_le _ a m pe).
Qed.

Lemma reference_alpha_le (t : Z) (p q : Pixel) :
  1 <= t <= 100 ->
  0 <= pR p <= 255 -> 0 <= pG p <= 255 -> 0 <= pB p <= 255 -> 0 <= pA p <= 255 ->
  0 <= pR q <= 255 -> 0 <= pG q <= 255 -> 0 <= pB q <= 255 -> 0 <= pA q <= 255 ->
  0 <= reference_alpha (JS.of_int t) p q <= pA p.
Proof.
  intros Ht Hr Hg Hb Ha Hr' Hg' Hb' HA. unfold reference_alpha, fade.
  destruct (Z.eqb_spec (pA q) 0) as [_|Hne]; [lia|].
  destruct (maxDiff_int p q) as (m & Hm & ->); [lia..|].
  pose proof (band_table t (pA q) m Ht ltac:(lia) Hm) as H.
  unfold band_ok, fade_of in H.
  destruct (_ <? _)%float; [lia|].
  destruct (_ <? _)%float; [|lia].
  by apply faded_alpha_le.
Qed.

Lemma subtractBackground_lowers (img bg : ImageData) (t : Z) :
  bytes (data img) = true -> bytes (data bg) = true ->
  1 <= t <= 100 ->
  never_raises (data img) (subtractBackground img bg (JS.of_int t)).
Proof.
  intros Hi Hb Ht n a Ha.
  assert (Hn : 0 <= n /\ 4 * n + 3 < len (data img)).
  { unfold alpha_of in Ha. apply rd_Some_lt in Ha. lia. }
  destruct (pixel_at_is_Some (data img) n ltac:(lia) ltac:(lia)) as [p Hp].
  pose proof (subtractBackground_pixel img bg (JS.of_int t) n p Hb Hp) as H.
  destruct (pixel_at_rd _ _ _ Hp) as (_ & _ & _ & HpA).
  unfold alpha_of in Ha. rewrite Ha in HpA. injection HpA as HpA.
  apply pixel_at_rd in H as (_ & _ & _ & H). unfold alpha_of. rewrite H.
  eexists. split; [reflexivity|].
  destruct (pixel_at (data bg) n) as [q|] eqn:Hq; simpl.
  - destruct (pixel_at_bytes _ _ _ Hi Hp) as (? & ? & ? & ?).
    destruct (pixel_at_bytes _ _ _ Hb Hq) as (? & ? & ? & ?).
    rewrite HpA. by apply reference_alpha_le.
  - pose proof (bytes_rd _ _ _ Hi Ha). lia.
Qed.

(** X8. Reference-mode matting never raises an alpha: for byte buffers of
    any sizes and an integer threshold from 1 to 100, every pixel of the
    result has an alpha between 0 and the alpha it had. *)
Theorem subtractBackground_never_raises (img bg : ImageData) (t n a : Z) :
  bytes (data img) = true -> bytes (data bg) = true ->
  1 <= t <= 100 ->
  alpha_of (data img) n = Some a ->
  exists a', alpha_of (subtractBackground img bg (JS.of_int t)) n = Some a'
             /\ 0 <= a' <= a.
Proof. intros Hi Hb Ht Ha. by apply subtractBackground_lowers. Qed.

Lemma subtractBackground_never_raises_witness :
  exists a', alpha_of (subtractBackground (mkImageData 1 1 [200; 10; 10; 255])
                         (mkImageData 1 1 [190; 10; 10; 255]) (JS.of_int 3)) 0 = Some a'
             /\ 0 <= a' <= 255.
Proof.
  apply (subtractBackground_never_raises (mkImageData 1 1 [200; 10; 10; 255])
           (mkImageData 1 1 [190; 10; 10; 255]) 3 0 255); [reflexivity..|lia|reflexivity].
Defined.

(** ** The pipeline without smoothing never raises an alpha *)

Lemma never_raises_refl (d : list Z) : bytes d = true -> never_raises d d.
Proof.
  intros Hb n a Ha. exists a. split; [done|].
  unfold alpha_of in Ha. pose proof (bytes_rd _ _ _ Hb Ha). lia.
Qed.

Lemma never_raises_trans (d d' d'' : list Z) :
  never_raises d d' -> never_raises d' d'' -> never_raises d d''.
Proof.
  intros H1 H2 n a Ha. destruct (H1 n a Ha) as (a' & Ha' & Hle).
  destruct (H2 n a' Ha') as (a'' & Ha'' & Hle'). exists a''. split; [done|lia].
Qed.

(** Storing a byte that is not larger in the alpha of a pixel. *)
Lemma never_raises_set (d s : list Z) (k : Z) (x : JS.num) (a : Z) :
  never_raises d s -> rd s (k * 4 + 3) = Some a -> JS.toUint8Clamp x <= a ->
  never_raises d (set s (k * 4 + 3) x).
Proof.
  intros H Hs Hx n a0 Ha0. destruct (H n a0 Ha0) as (a' & Ha' & Hle).
  unfold alpha_of in *. rewrite rd_set.
  destruct (decide (k * 4 + 3 = 4 * n + 3)) as [E|E]; [|by exists a'].
  rewrite Hs. eexists. split; [reflexivity|].
  rewrite E in Hs. rewrite Hs in Ha'. injection Ha' as <-.
  pose proof (toUint8Clamp_byte x). lia.
Qed.

Lemma byte_between_0_200 (v : Z) :
  0 <= v <= 255 ->
  ((0 <? JS.of_int v)%float && (JS.of_int v <? 200)%float) = ((0 <? v) && (v <? 200)).
Proof.
  intros Hv. apply Bool.eqb_prop.
  apply (forallb_range
           (fun v => Bool.eqb ((0 <? JS.of_int v)%float && (JS.of_int v <? 200)%float)
                              ((0 <? v) && (v <? 200))) 0 256);
    [vm_compute; reflexivity | lia].
Qed.

(** The alpha [removeLightEdgeArtifacts] stores is at most the alpha it
    read, whatever the brightness above 180. *)
Lemma light_edge_steps :
  all_from 200 0%float (fun a =>
    all_from 766 0%float (fun s =>
      implb (180 <? s / 3)%float (JS.max 0 (a - (s / 3 - 128)) <=? a)%float))
  = true.
Proof. vm_compute. reflexivity. Qed.

Lemma light_edge_le (a s : Z) :
  0 <= a < 200 -> 0 <= s <= 765 ->
  (180 <? JS.of_int s / 3)%float = true ->
  JS.toUint8Clamp (JS.max 0 (JS.of_int a - (JS.of_int s / 3 - 128)))%float <= a.
Proof.
  intros Ha Hs Hb.
  pose proof (all_from_spec 200 _ 0%float 0 eq_refl ltac:(lia) ltac:(lia)
                light_edge_steps a ltac:(lia)) as H1.
  pose proof (all_from_spec 766 _ 0%float 0 eq_refl ltac:(lia) ltac:(lia)
                H1 s ltac:(lia)) as H2.
  cbv beta in H2. rewrite Hb in H2.
  apply clamp_le_byte; [lia|exact H2].
Qed.

(** The three colour bytes of a pixel whose alpha byte exists. *)
Lemma colours_of_alpha (s : list Z) (k a : Z) :
  bytes s = true -> rd s (k * 4 + 3) = Some a ->
  exists r g b, rd s (k * 4) = Some r /\ rd s (k * 4 + 1) = Some g
    /\ rd s (k * 4 + 2) = Some b
    /\ 0 <= r <= 255 /\ 0 <= g <= 255 /\ 0 <= b <= 255 /\ 0 <= a <= 255.
Proof.
  intros Hb Ha. pose proof (rd_Some_lt _ _ _ Ha) as Hlt.
  destruct (rd_lt_Some s (k * 4) ltac:(lia)) as [r Hr].
  destruct (rd_lt_Some s (k * 4 + 1) ltac:(lia)) as [g Hg].
  destruct (rd_lt_Some s (k * 4 + 2) ltac:(lia)) as [b Hbl].
  exists r, g, b.
  pose proof (bytes_rd _ _ _ Hb Ha). pose proof (bytes_rd _ _ _ Hb Hr).
  pose proof (bytes_rd _ _ _ Hb Hg). pose proof (bytes_rd _ _ _ Hb Hbl). done.
Qed.

Lemma removeLightEdgeArtifacts_lowers (img : ImageData) :
  bytes (data img) = true ->
  bytes (removeLightEdgeArtifacts img) = true
  /\ never_raises (data img) (removeLightEdgeArtifacts img).
Proof.
  intros Hb. unfold removeLightEdgeArtifacts.
  apply (loop2_ind (fun s => bytes s = true /\ never_raises (data img) s)).
  { split; [done|by apply never_raises_refl]. }
  intros y x s _ _ [Hbs Hs]. destruct (negb _); [done|].
  set (k := y * width img + x).
  lazymatch goal with
  | |- context [if ?c then _ else s] => destruct c eqn:Ea; [|done]
  end.
  lazymatch goal with
  | |- context [if ?c then _ else s] => destruct c eqn:Ec; [|done]
  end.
  split; [by apply bytes_set|].
  destruct (rd s (k * 4 + 3)) as [a|] eqn:Es;
    [|by rewrite (get_nan_not_pos _ _ Es) in Ea].
  destruct (colours_of_alpha s k a Hbs Es) as (r & g & b & Hr & Hg & Hbl & ? & ? & ? & ?).
  rewrite (get_of_rd _ _ _ Es) in Ea |- *.
  rewrite byte_between_0_200 in Ea by done.
  rewrite (get_of_rd _ _ _ Hr), (get_of_rd _ _ _ Hg), (get_of_rd _ _ _ Hbl) in Ec |- *.
  rewrite sum_bytes in Ec |- * by done.
  apply (never_raises_set _ _ _ _ a); [done|done|].
  apply light_edge_le; [lia|lia|done].
Qed.

Lemma aggressiveEdgeCleanup_lowers (img : ImageData) :
  bytes (data img) = true ->
  bytes (aggressiveEdgeCleanup img) = true
  /\ never_raises (data img) (aggressiveEdgeCleanup img).
Proof.
  intros Hb. split.
  - unfold aggressiveEdgeCleanup. apply (loop2_ind (fun s => bytes s = true)); [done|].
    intros y x s _ _ Hs. destruct (_ && _); [|done].
    destruct (for_each _ _ _) as [hasOpaque opaqueCount].
    destruct (_ && _); [|done]. by apply bytes_set.
  - intros n a Ha.
    destruct (aggressiveEdgeCleanup_cases img n Hb) as [->|[-> _]].
    + exists a. split; [done|]. unfold alpha_of in Ha.
      pose proof (bytes_rd _ _ _ Hb Ha). lia.
    + exists 0. split; [done|]. unfold alpha_of in Ha.
      pose proof (bytes_rd _ _ _ Hb Ha). lia.
Qed.

Lemma erodeEdges_lowers (img : ImageData) (pixels : Z) :
  well_formed img = true ->
  bytes (erodeEdges img pixels) = true
  /\ never_raises (data img) (erodeEdges img pixels).
Proof.
  intros Hwf. pose proof Hwf as (Hw & Hh & Hlen & Hb)%well_formed_inv. split.
  - unfold erodeEdges. apply (for_each_ind (fun s => bytes s = true)); [done|].
    intros i s _ Hs. by apply bytes_set.
  - intros n a Ha.
    destruct (erodeEdges_rd img pixels Hwf) as (Halpha & _ & _).
    pose proof (well_formed_pixels _ Hwf) as Hpix.
    assert (Hn : 0 <= n < width img * height img).
    { unfold alpha_of in Ha. apply rd_Some_lt in Ha. lia. }
    rewrite Halpha by done.
    destruct (erodePasses_inv (width img) (height img) pixels (alphas (data img)))
      as (_ & _ & Hcases).
    unfold alpha_of in Ha. pose proof (bytes_rd _ _ _ Hb Ha).
    destruct (Hcases n) as [-> | ->].
    + rewrite rd_alphas, decide_True by (by rewrite Hpix). unfold alpha_of.
      rewrite Ha. exists a. split; [done|lia].
    + exists 0. split; [done|lia].
Qed.

Lemma subtractBackground_bytes (img bg : ImageData) (threshold : JS.num) :
  bytes (data img) = true -> bytes (subtractBackground img bg threshold) = true.
Proof.
  intros Hb. unfold subtractBackground.
  apply (for_each_ind (fun s => bytes s = true)); [done|].
  intros i s _ Hs. unfold subtractBackground_body.
  repeat match goal with |- context [if ?c then _ else _] => destruct c end;
    try done; by apply bytes_set.
Qed.

Lemma removeByColor_bytes (img : ImageData) (target : RGB) (threshold : JS.num) :
  bytes (data img) = true -> bytes (removeByColor img target threshold) = true.
Proof.
  intros Hb. unfold removeByColor.
  apply (for_each_ind (fun s => bytes s = true)); [done|].
  intros i s _ Hs. unfold removeByColor_body. destruct target as [tr tg tb].
  destruct (_ <? _)%float; by apply bytes_set.
Qed.

Lemma well_formed_with_data (img : ImageData) (d : list Z) :
  well_formed img = true -> len d = len (data img) -> bytes d = true ->
  well_formed (with_data img d) = true.
Proof.
  intros (Hw & Hh & Hlen & _)%well_formed_inv Hl Hb.
  unfold well_formed, with_data. simpl. rewrite Hb, Hl, Hlen.
  rewrite Z.eqb_refl. destruct (Z.leb_spec 0 (width img)), (Z.leb_spec 0 (height img)); lia.
Qed.

(** One optional filter of the pipeline that never raises an alpha. *)
Lemma filter_step_lowers (d0 : list Z) (c : bool) (img : ImageData)
    (f : ImageData -> list Z) :
  (forall i, well_formed i = true ->
     bytes (f i) = true /\ never_raises (data i) (f i)) ->
  (forall i, keeps_colours (data i) (f i)) ->
  well_formed img = true /\ never_raises d0 (data img) ->
  let img' := if c then with_data img (f img) else img in
  well_formed img' = true /\ never_raises d0 (data img').
Proof.
  intros Hf Hk [Hwf Hn]. cbv zeta. destruct c; [|done].
  destruct (Hf img Hwf) as [Hb Hl]. split.
  - apply well_formed_with_data; [done|apply Hk|done].
  - simpl. by apply never_raises_trans with (data img).
Qed.

(** X9. The whole pipeline without edge smoothing and without the liquid
    glass filter never raises an alpha: on a well-formed image, in colour
    mode (given or detected colour) with any threshold, or in reference
    mode with an integer threshold from 1 to 100, whatever light-edge
    removal, erosion and cleanup are selected, every pixel of the result
    has an alpha between 0 and the alpha it had. *)
Theorem removeBackground_never_raises (img : ImageData) (ref : option ImageData)
    (options : ProcessingOptions) :
  well_formed img = true ->
  (forall bg, ref = Some bg ->
     bytes (data bg) = true
     /\ exists t, 1 <= t <= 100 /\ default 30%float (threshold options) = JS.of_int t) ->
  default true (edgeSmoothing options) = false ->
  default false (removeLiquidGlass options) = false ->
  never_raises (data img) (data (removeBackground img ref options)).
Proof.
  intros Hwf Href Hsmooth Hglass.
  pose proof Hwf as (_ & _ & _ & Hb)%well_formed_inv.
  unfold removeBackground. cbv zeta. rewrite Hsmooth, Hglass.
  apply (filter_step_lowers _ _ _ aggressiveEdgeCleanup);
    [intros i (_ & _ & _ & Hi)%well_formed_inv; by apply aggressiveEdgeCleanup_lowers
    |apply aggressiveEdgeCleanup_keeps_colours|].
  apply (filter_step_lowers _ _ _
           (fun i => erodeEdges i (default 0 (erodePixels options))));
    [intros i Hi; by apply erodeEdges_lowers
    |intros i; apply erodeEdges_keeps_colours|].
  apply (filter_step_lowers _ _ _ removeLightEdgeArtifacts);
    [intros i (_ & _ & _ & Hi)%well_formed_inv; by apply removeLightEdgeArtifacts_lowers
    |apply removeLightEdgeArtifacts_keeps_colours|].
  destruct ref as [bg|].
  - destruct (Href bg eq_refl) as (Hbg & t & Ht & ->). split.
    + apply well_formed_with_data;
        [done|apply subtractBackground_keeps_colours|by apply subtractBackground_bytes].
    + by apply subtractBackground_lowers.
  - destruct (truthy _); (split;
      [apply well_formed_with_data;
         [done|apply removeByColor_keeps_colours|by apply removeByColor_bytes]
      |by apply removeByColor_lowers]).
Qed.

Lemma removeBackground_never_raises_witness :
  never_raises [200; 10; 10; 255; 90; 90; 90; 120]
    (data (removeBackground (mkImageData 2 1 [200; 10; 10; 255; 90; 90; 90; 120])
             (Some (mkImageData 2 1 [190; 10; 10; 255; 10; 10; 10; 255]))
             (mkProcessingOptions (Some (JS.of_int 20)) (Some false) None (Some true)
                (Some 1) (Some true) (Some false) None None))).
Proof.
  apply (removeBackground_never_raises
           (mkImageData 2 1 [200; 10; 10; 255; 90; 90; 90; 120])
           (Some (mkImageData 2 1 [190; 10; 10; 255; 10; 10; 10; 255]))
           (mkProcessingOptions (Some (JS.of_int 20)) (Some false) None (Some true)
              (Some 1) (Some true) (Some false) None None));
    [reflexivity | | reflexivity | reflexivity].
  intros bg [= <-]. split; [reflexivity|]. exists 20. split; [lia|reflexivity].
Defined.

(** ** Edge lab: morphology *)

Lemma min_bytes (x y : Z) :
  0 <= x <= 255 -> 0 <= y <= 255 ->
  JS.min (JS.of_int x) (JS.of_int y) = JS.of_int (Z.min x y).
Proof.
  intros Hx Hy. apply FloatAxioms.Leibniz.eqb_spec.
  apply (forallb_range2
           (fun x y => PrimFloat.Leibniz.eqb (JS.min (JS.of_int x) (JS.of_int y))
                                              (JS.of_int (Z.min x y))) 0 256 0 256);
    [vm_compute; reflexivity | lia..].
Qed.

(** The scan of the window around (x, y), on a well-formed image. *)
Lemma morph_scan (img : ImageData) (r x y : Z) (op : MorphOp) :
  well_formed img = true -> 0 <= r ->
  0 <= x < width img -> 0 <= y < height img ->
  exists e, 0 <= e <= 255
    /\ fold_left (fun extremeAlpha (k : Z * Z) =>
         if (0 <=? x + k.2) && (x + k.2 <? width img)
            && (0 <=? y + k.1) && (y + k.1 <? height img)
         then match op with
              | Dilate => JS.max extremeAlpha
                            (get (data img) (((y + k.1) * width img + (x + k.2)) * 4 + 3))
              | Erode => JS.min extremeAlpha
                           (get (data img) (((y + k.1) * width img + (x + k.2)) * 4 + 3))
              end
         else extremeAlpha)
        (grid (range (- r) (r + 1)) (range (- r) (r + 1)))
        (match op with Dilate => 0%float | Erode => 255%float end)
      = JS.of_int e
    /\ window_extreme op (data img) (width img) (height img) r x y e.
Proof.
  intros Hwf Hr Hx Hy.
  set (f := fun (extremeAlpha : JS.num) (k : Z * Z) => _).
  set (init := match op with Dilate => 0 | Erode => 255 end).
  assert (Hinit : match op return JS.num with Dilate => 0%float | Erode => 255%float end
                  = JS.of_int init).
  { by destruct op. }
  rewrite Hinit.
  assert (Hl : forall l : list (Z * Z),
    exists e, 0 <= e <= 255 /\ fold_left f l (JS.of_int init) = JS.of_int e
      /\ (forall k, k ∈ l ->
            0 <= x + k.2 < width img -> 0 <= y + k.1 < height img ->
            match op with
            | Dilate => alpha_xy (data img) (width img) (x + k.2) (y + k.1) <= e
            | Erode => e <= alpha_xy (data img) (width img) (x + k.2) (y + k.1)
            end)
      /\ (e = init \/ exists k, k ∈ l /\ 0 <= x + k.2 < width img
                        /\ 0 <= y + k.1 < height img
                        /\ alpha_xy (data img) (width img) (x + k.2) (y + k.1) = e)).
  { induction l as [|k l IH] using rev_ind.
    - exists init. split; [destruct op; simpl; lia|]. split; [done|].
      split; [by intros k Hk%elem_of_nil|by left].
    - destruct IH as (e & He & Hfold & Hall & Hatt).
      rewrite fold_left_app. simpl. rewrite Hfold. unfold f at 1.
      destruct ((0 <=? x + k.2) && (x + k.2 <? width img)
                && (0 <=? y + k.1) && (y + k.1 <? height img)) eqn:Ein.
      + assert (Hin : 0 <= x + k.2 < width img /\ 0 <= y + k.1 < height img) by lia.
        destruct (get_alpha_xy img (x + k.2) (y + k.1) Hwf ltac:(lia) ltac:(lia))
          as [-> Hb].
        set (a := alpha_xy (data img) (width img) (x + k.2) (y + k.1)) in *.
        exists (match op with Dilate => Z.max e a | Erode => Z.min e a end).
        split; [destruct op; lia|].
        split; [destruct op; [by rewrite max_bytes|by rewrite min_bytes]|].
        split.
        * intros k' [Hk'|Hk']%elem_of_app Hx' Hy'.
          -- specialize (Hall k' Hk' Hx' Hy'). destruct op; lia.
          -- apply list_elem_of_singleton in Hk' as ->. fold a. destruct op; lia.
        * destruct op.
          -- destruct (Z.max_spec e a) as [[_ ->]|[_ ->]].
             ++ right. exists k. split; [apply elem_of_app; right; by left|by destruct Hin].
             ++ destruct Hatt as [->|(k' & Hk' & ?)]; [by left|].
                right. exists k'. split; [apply elem_of_app; by left|done].
          -- destruct (Z.min_spec e a) as [[_ ->]|[_ ->]].
             ++ destruct Hatt as [->|(k' & Hk' & ?)]; [by left|].
                right. exists k'. split; [apply elem_of_app; by left|done].
             ++ right. exists k. split; [apply elem_of_app; right; by left|by destruct Hin].
      + exists e. split; [done|]. split; [done|]. split.
        * intros k' [Hk'|Hk']%elem_of_app Hx' Hy'; [by apply Hall|].
          apply list_elem_of_singleton in Hk' as ->. lia.
        * destruct Hatt as [->|(k' & Hk' & ?)]; [by left|].
          right. exists k'. split; [apply elem_of_app; by left|done]. }
  destruct (Hl (grid (range (- r) (r + 1)) (range (- r) (r + 1))))
    as (e & He & Hfold & Hall & Hatt).
  exists e. split; [done|]. split; [done|].
  assert (Hcentre : (0, 0) ∈ grid (range (- r) (r + 1)) (range (- r) (r + 1))).
  { apply elem_of_grid. rewrite !elem_of_range. lia. }
  split.
  - intros x' y' (Hx' & Hy' & Hwx & Hwy).
    specialize (Hall (y' - y, x' - x)). simpl in Hall.
    replace (x + (x' - x)) with x' in Hall by lia.
    replace (y + (y' - y)) with y' in Hall by lia.
    apply Hall; [|done|done]. apply elem_of_grid. rewrite !elem_of_range. lia.
  - destruct Hatt as [->|((ky, kx) & Hk & Hkx & Hky & Halpha)].
    + exists x, y. split; [unfold in_window; lia|].
      specialize (Hall (0, 0) Hcentre). simpl in Hall. rewrite !Z.add_0_r in Hall.
      specialize (Hall Hx Hy).
      destruct (get_alpha_xy img x y Hwf Hx Hy) as [_ Hb].
      unfold init in *. destruct op; lia.
    + simpl in *. apply elem_of_grid in Hk. rewrite !elem_of_range in Hk.
      exists (x + kx), (y + ky). split; [unfold in_window; lia|done].
Qed.

(** [morphOp] pixel by pixel, and the shape of its result. *)
Lemma morphOp_spec (img : ImageData) (r : Z) (op : MorphOp) :
  well_formed img = true -> 0 <= r ->
  well_formed (morphOp img r op) = true
  /\ width (morphOp img r op) = width img /\ height (morphOp img r op) = height img
  /\ keeps_colours (data img) (data (morphOp img r op))
  /\ forall x y, 0 <= x < width img -> 0 <= y < height img ->
       window_extreme op (data img) (width img) (height img) r x y
         (alpha_xy (data (morphOp img r op)) (width img) x y).
Proof.
  intros Hwf Hr. pose proof Hwf as (Hw & Hh & Hlen & Hb)%well_formed_inv.
  unfold morphOp. cbn [width height data].
  set (res := for_each _ _ _).
  assert (Hfold : res = fold_left (fun s yx =>
      slot_body (fun yx : Z * Z => (yx.1 * width img + yx.2) * 4 + 3)
        (fun (yx : Z * Z) (_ : list Z) => Some (JS.toUint8Clamp
           (fold_left (fun extremeAlpha (k : Z * Z) =>
              if (0 <=? yx.2 + k.2) && (yx.2 + k.2 <? width img)
                 && (0 <=? yx.1 + k.1) && (yx.1 + k.1 <? height img)
              then match op with
                   | Dilate => JS.max extremeAlpha
                       (get (data img) (((yx.1 + k.1) * width img + (yx.2 + k.2)) * 4 + 3))
                   | Erode => JS.min extremeAlpha
                       (get (data img) (((yx.1 + k.1) * width img + (yx.2 + k.2)) * 4 + 3))
                   end
              else extremeAlpha)
             (grid (range (- r) (r + 1)) (range (- r) (r + 1)))
             (match op with Dilate => 0%float | Erode => 255%float end))))
        yx s)
      (grid (range 0 (height img)) (range 0 (width img))) (data img)).
  { unfold res. rewrite for_each_grid. apply fold_left_ext. intros s [y x] _.
    unfold slot_body, set. cbn [fst snd]. f_equal. f_equal.
    rewrite for_each_grid. by destruct op. }
  assert (Hk : keeps_colours (data img) res).
  { unfold res. apply (loop2_ind (keeps_colours (data img)));
      [apply keeps_colours_refl|].
    intros y x s _ _ Hs. apply keeps_colours_set; [apply alpha_slot_mod|done]. }
  assert (Hbr : bytes res = true).
  { unfold res. apply (loop2_ind (fun s => bytes s = true)); [done|].
    intros y x s _ _ Hs. by apply bytes_set. }
  split; [apply (well_formed_with_data img res Hwf); [apply Hk|done]|].
  split; [done|]. split; [done|]. split; [done|].
  intros x y Hx Hy.
  destruct (morph_scan img r x y op Hwf Hr Hx Hy) as (e & He & Hscan & Hext).
  enough (alpha_xy res (width img) x y = e) as -> by done.
  unfold alpha_xy, alpha_of, pixel_index.
  replace (4 * (y * width img + x) + 3) with ((y * width img + x) * 4 + 3) by lia.
  rewrite Hfold.
  erewrite (slot_loop_own (fun yx : Z * Z => (yx.1 * width img + yx.2) * 4 + 3))
    with (i := (y, x)).
  - cbn [fst snd]. rewrite Hscan, of_int_byte_store by done.
    pose proof (pixel_index_bound _ _ _ _ Hx Hy) as Hkk. unfold pixel_index in Hkk.
    destruct (rd_lt_Some (data img) ((y * width img + x) * 4 + 3) ltac:(lia)) as [v ->].
    done.
  - done.
  - apply NoDup_grid_slots; lia.
  - apply elem_of_grid. rewrite !elem_of_range. lia.
Qed.

(** X10. [morphOp] computes the window extreme: on a well-formed image and
    for a radius [r >= 0], the alpha of the pixel (x, y) of the result is the
    largest (dilation) or the smallest (erosion) alpha among the pixels of
    the image within [r] columns and [r] rows of (x, y): it bounds them all
    and is the alpha of one of them.  Colours and dimensions are kept. *)
Theorem morphOp_window_extreme (img : ImageData) (r : Z) (op : MorphOp) (x y : Z) :
  well_formed img = true -> 0 <= r ->
  0 <= x < width img -> 0 <= y < height img ->
  window_extreme op (data img) (width img) (height img) r x y
    (alpha_xy (data (morphOp img r op)) (width img) x y)
  /\ keeps_colours (data img) (data (morphOp img r op)).
Proof.
  intros Hwf Hr Hx Hy. destruct (morphOp_spec img r op Hwf Hr) as (_ & _ & _ & Hk & H).
  split; [by apply H|done].
Qed.

Lemma morphOp_window_extreme_witness :
  window_extreme Dilate
    (concat (map (fun a => [1; 2; 3; a]) [0; 10; 0; 200; 30; 0])) 3 2 1 1 0
    (alpha_xy (data (morphOp (mkImageData 3 2
                        (concat (map (fun a => [1; 2; 3; a]) [0; 10; 0; 200; 30; 0])))
                      1 Dilate)) 3 1 0)
  /\ keeps_colours (concat (map (fun a => [1; 2; 3; a]) [0; 10; 0; 200; 30; 0]))
       (data (morphOp (mkImageData 3 2
                (concat (map (fun a => [1; 2; 3; a]) [0; 10; 0; 200; 30; 0]))) 1 Dilate)).
Proof.
  apply (morphOp_window_extreme
           (mkImageData 3 2 (concat (map (fun a => [1; 2; 3; a]) [0; 10; 0; 200; 30; 0])))
           1 Dilate 1 0); [reflexivity | lia | simpl; lia | simpl; lia].
Defined.

(** X11. The morphological method with a dilation radius at least the
    erosion radius never lowers an alpha (a closing is extensive): on a
    well-formed image every pixel of the result has an alpha at least the
    one it had.  With both radii not positive the image is returned as it
    is. *)
Theorem closing_never_lowers (img : ImageData) (dilateR erodeR x y : Z) :
  well_formed img = true -> erodeR <= dilateR ->
  0 <= x < width img -> 0 <= y < height img ->
  alpha_xy (data img) (width img) x y
  <= alpha_xy (data (morphologicalMethod img dilateR erodeR)) (width img) x y.
Proof.
  intros Hwf Hle Hx Hy. unfold morphologicalMethod.
  destruct (Z.ltb_spec 0 dilateR) as [Hd|Hd].
  - destruct (morphOp_spec img dilateR Dilate Hwf ltac:(lia))
      as (Hwf1 & Hw1 & Hh1 & _ & H1).
    set (img1 := morphOp img dilateR Dilate) in *.
    destruct (Z.ltb_spec 0 erodeR) as [He|He].
    + destruct (morphOp_spec img1 erodeR Erode Hwf1 ltac:(lia)) as (_ & _ & _ & _ & H2).
      rewrite Hw1, Hh1 in H2.
      destruct (H2 x y Hx Hy) as [_ (x' & y' & (Hx' & Hy' & Hwx & Hwy) & <-)].
      destruct (H1 x' y' Hx' Hy') as [Hall _]. cbv zeta.
      apply Hall. unfold in_window. lia.
    + destruct (H1 x y Hx Hy) as [Hall _]. apply Hall. unfold in_window. lia.
  - destruct (Z.ltb_spec 0 erodeR); [lia|]. cbv zeta. lia.
Qed.

Lemma closing_never_lowers_witness :
  alpha_xy (concat (map (fun a => [1; 2; 3; a]) [0; 10; 0; 200; 30; 0])) 3 1 0
  <= alpha_xy (data (morphologicalMethod
                       (mkImageData 3 2
                          (concat (map (fun a => [1; 2; 3; a]) [0; 10; 0; 200; 30; 0])))
                       2 1)) 3 1 0.
Proof.
  apply (closing_never_lowers
           (mkImageData 3 2 (concat (map (fun a => [1; 2; 3; a]) [0; 10; 0; 200; 30; 0])))
           2 1 1 0); [reflexivity | lia | simpl; lia | simpl; lia].
Defined.

(** ** Edge lab: the contrast loop of supersampling *)

Lemma contrast_alpha_byte (a : Z) :
  0 <= a <= 255 ->
  match contrast_alpha 0 [0; 0; 0; a] with
  | Some v => v
  | None => a
  end = contrast_of a.
Proof.
  intros Ha. apply Z.eqb_eq.
  apply (forallb_range
           (fun a => match contrast_alpha 0 [0; 0; 0; a] with
                     | Some v => v
                     | None => a
                     end =? contrast_of a) 0 256);
    [vm_compute; reflexivity | lia].
Qed.

Lemma contrast_alpha_rd (i : Z) (d : list Z) (a : Z) :
  rd d (i + 3) = Some a -> contrast_alpha i d = contrast_alpha 0 [0; 0; 0; a].
Proof.
  intros H. unfold contrast_alpha. rewrite (get_of_rd _ _ _ H).
  change (get [0; 0; 0; a] (0 + 3)) with (JS.of_int a). done.
Qed.

(** X12. The contrast loop of supersampling, in integers: a pixel with an
    alpha strictly between 0 and 128 gets half of it (rounded down), one with
    an alpha from 128 to 254 gets the midpoint of its alpha and 255 (rounded
    down), and fully transparent and fully opaque pixels are kept; no colour
    byte is written. *)
Theorem supersamplingContrast_alpha (d : list Z) (n a : Z) :
  bytes d = true ->
  alpha_of d n = Some a ->
  alpha_of (supersamplingContrast d) n = Some (contrast_of a)
  /\ keeps_colours d (supersamplingContrast d).
Proof.
  intros Hb Ha.
  assert (Hbody : forall i s, supersamplingContrast_body i s = alpha_body contrast_alpha i s).
  { intros i s. unfold supersamplingContrast_body, alpha_body, contrast_alpha, set.
    cbv zeta.
    by destruct ((0 <? get s (i + 3))%float && (get s (i + 3) <? 255)%float). }
  assert (Hlocal : forall i s s', (forall j, i <= j <= i + 3 -> rd s j = rd s' j) ->
                     contrast_alpha i s = contrast_alpha i s').
  { intros i s s' H. unfold contrast_alpha.
    by rewrite (get_ext s s' (i + 3)) by (apply H; lia). }
  assert (Hrd : forall j, rd (supersamplingContrast d) j
                = match contrast_alpha (j - 3) d with
                  | Some v => if decide ((j - 3) mod 4 = 0)
                              then match rd d j with Some _ => Some v | None => None end
                              else rd d j
                  | None => rd d j
                  end).
  { intros j. unfold supersamplingContrast.
    rewrite (for_each_ext _ _ (alpha_body contrast_alpha)) by apply Hbody.
    by apply alpha_loop_spec. }
  split.
  - unfold alpha_of in *. rewrite Hrd.
    replace (4 * n + 3 - 3) with (4 * n) by lia.
    rewrite (contrast_alpha_rd _ _ _ Ha).
    pose proof (contrast_alpha_byte a (bytes_rd _ _ _ Hb Ha)) as H.
    destruct (contrast_alpha 0 [0; 0; 0; a]) as [v|].
    + rewrite decide_True by (rewrite Z.mul_comm; apply Z_mod_mult).
      rewrite Ha. by rewrite H.
    + rewrite Ha. f_equal. exact H.
  - split.
    + unfold supersamplingContrast.
      apply (for_each_ind (fun s => len s = len d)); [done|].
      intros i s _ Hs. rewrite Hbody. unfold alpha_body.
      destruct (contrast_alpha i s); [|done]. by rewrite len_wr.
    + intros j Hj%not_alpha_slot. rewrite Hrd.
      destruct (contrast_alpha _ _); [|done]. by rewrite decide_False.
Qed.

Lemma supersamplingContrast_alpha_witness :
  alpha_of (supersamplingContrast [9; 9; 9; 100; 9; 9; 9; 200]) 1 = Some (contrast_of 200)
  /\ keeps_colours [9; 9; 9; 100; 9; 9; 9; 200]
       (supersamplingContrast [9; 9; 9; 100; 9; 9; 9; 200]).
Proof.
  apply (supersamplingContrast_alpha [9; 9; 9; 100; 9; 9; 9; 200] 1 200); reflexivity.
Defined.

(** ** Edge lab: subpixel smoothing *)

(** A loop that fills an array, one element after the other. *)
Lemma fill_loop {A : Type} (f : Z -> A) (n : nat) (init : list A) (k : Z) :
  rd (for_each (range 0 (Z.of_nat n)) (fun i a => wr a i (f i)) init) k
  = if decide (0 <= k < Z.of_nat n)
    then match rd init k with Some _ => Some (f k) | None => None end
    else rd init k.
Proof.
  induction n as [|n IH].
  - simpl. by rewrite decide_False by lia.
  - rewrite range_0_S, for_each_app. unfold for_each at 1. cbn [fold_left].
    rewrite rd_wr. destruct (decide (Z.of_nat n = k)) as [<-|Hk].
    + rewrite IH, decide_False by lia. by rewrite decide_True by lia.
    + rewrite IH. repeat case_decide; try done; lia.
Qed.

Section Subpixel.

Variables (img : ImageData) (smooth sharpness : JS.num).
Hypothesis Hwf : well_formed img = true.

(** The copy of the alpha channel holds the alphas. *)
Lemma subpixel_snapshot (x y : Z) :
  0 <= x < width img -> 0 <= y < height img ->
  nget (for_each (range 0 (width img * height img))
          (fun i alpha => wr alpha i (get (data img) (i * 4 + 3)))
          (replicate (Z.to_nat (width img * height img)) 0%float))
       (y * width img + x)
  = JS.of_int (alpha_xy (data img) (width img) x y).
Proof.
  intros Hx Hy. pose proof (pixel_index_bound _ _ _ _ Hx Hy) as Hk.
  unfold pixel_index in Hk. unfold nget.
  replace (width img * height img)
    with (Z.of_nat (Z.to_nat (width img * height img))) at 1 by lia.
  rewrite fill_loop, decide_True by lia.
  rewrite rd_replicate by lia. simpl.
  by destruct (get_alpha_xy img x y Hwf Hx Hy) as [-> _].
Qed.

Lemma subpixel_kept_set (s : list Z) (x y : Z) (v : JS.num) :
  1 <= y < height img - 1 -> 1 <= x < width img - 1 ->
  10 < alpha_xy (data img) (width img) x y < 245 ->
  subpixel_kept img s -> subpixel_kept img (set s ((y * width img + x) * 4 + 3) v).
Proof.
  intros Hy Hx Ha [Hl Hs]. split; [by rewrite len_set|].
  intros j. rewrite rd_set. case_decide as Hj; [|apply Hs].
  right. exists x, y. unfold interior. split; [|done].
  repeat (apply andb_true_intro; split); lia.
Qed.

(** A pixel whose alpha the second loop finds partial had a partial alpha
    to begin with. *)
Lemma subpixel_kept_alpha (s : list Z) (x y : Z) :
  1 <= y < height img - 1 -> 1 <= x < width img - 1 -> subpixel_kept img s ->
  ((10 <? get s ((y * width img + x) * 4 + 3))%float
   && (get s ((y * width img + x) * 4 + 3) <? 245)%float) = true ->
  10 < alpha_xy (data img) (width img) x y < 245.
Proof.
  intros Hy Hx [Hl Hs] Hc.
  destruct (Hs ((y * width img + x) * 4 + 3)) as [E|(x' & y' & Hi & Hj & Ha)].
  - rewrite (get_ext _ _ _ E) in Hc.
    destruct (get_alpha_xy img x y Hwf ltac:(lia) ltac:(lia)) as [Hg Hb].
    rewrite Hg, byte_between_10_245 in Hc by done. lia.
  - unfold interior in Hi. apply andb_prop in Hi as [[[? ?]%andb_prop ?]%andb_prop ?].
    destruct (pixel_index_inj (width img) x y x' y') as [-> ->]; [lia|lia|lia|done].
Qed.

Lemma subpixelMethod_kept :
  subpixel_kept img (data (subpixelMethod img smooth sharpness)).
Proof.
  unfold subpixelMethod. cbv zeta. cbn [data with_data].
  set (alpha := for_each (range 0 (width img * height img)) _ _).
  set (data1 := for_each (range 1 (height img - 1)) _ (data img)).
  assert (H1 : subpixel_kept img data1).
  { apply (loop2_ind (subpixel_kept img)).
    - split; [done|]. intros j. by left.
    - intros y x s Hy%elem_of_range Hx%elem_of_range Hs.
      destruct (_ && _) eqn:Hc; [|done].
      apply subpixel_kept_set; try done.
      unfold alpha in Hc. rewrite subpixel_snapshot in Hc by lia.
      destruct (get_alpha_xy img x y Hwf ltac:(lia) ltac:(lia)) as [_ Hb].
      rewrite byte_between_10_245 in Hc by done. lia. }
  destruct (negb _); [|exact H1].
  apply (loop2_ind (subpixel_kept img)); [exact H1|].
  intros y x s Hy%elem_of_range Hx%elem_of_range Hs.
  destruct (_ && _) eqn:Hc; [|done].
  lazymatch goal with
  | |- context [let '(_, _) := ?e in _] => destruct e as [sum count]
  end.
  apply subpixel_kept_set; try done. by apply (subpixel_kept_alpha s).
Qed.

Lemma subpixelMethod_colours :
  keeps_colours (data img) (data (subpixelMethod img smooth sharpness)).
Proof.
  destruct subpixelMethod_kept as [Hl Hs]. split; [done|].
  intros j Hj. destruct (Hs j) as [E|(x & y & _ & -> & _)]; [done|].
  by rewrite alpha_slot_mod in Hj.
Qed.

End Subpixel.

(** X17. [subpixelMethod] works on partial alphas off the border only: on a
    well-formed image, whatever the smoothing and the sharpness, a pixel on
    the border, and a pixel whose alpha is at most 10 or at least 245, keeps
    its alpha; and no colour byte is written. *)
Theorem subpixelMethod_partial_alphas_only (img : ImageData) (smooth sharpness : JS.num)
    (x y : Z) :
  well_formed img = true ->
  0 <= x < width img -> 0 <= y < height img ->
  interior (width img) (height img) x y = false
  \/ alpha_xy (data img) (width img) x y <= 10
  \/ 245 <= alpha_xy (data img) (width img) x y ->
  alpha_xy (data (subpixelMethod img smooth sharpness)) (width img) x y
  = alpha_xy (data img) (width img) x y
  /\ keeps_colours (data img) (data (subpixelMethod img smooth sharpness)).
Proof.
  intros Hwf Hx Hy Hp. split; [|by apply subpixelMethod_colours].
  destruct (subpixelMethod_kept img smooth sharpness Hwf) as [_ Hs].
  unfold alpha_xy, alpha_of, pixel_index.
  destruct (Hs (4 * (y * width img + x) + 3)) as [->|(x' & y' & Hi & Hj & Ha)]; [done|].
  exfalso. pose proof Hi as Hi'. unfold interior in Hi'.
  apply andb_prop in Hi' as [[[? ?]%andb_prop ?]%andb_prop ?].
  destruct (pixel_index_inj (width img) x y x' y') as [-> ->]; [lia|lia|lia|].
  destruct Hp as [Hp|Hp]; [congruence|lia].
Qed.

Lemma subpixelMethod_partial_alphas_only_witness :
  alpha_xy (data (subpixelMethod
                    (mkImageData 3 3 (concat (map (fun a => [1; 2; 3; a])
                                        [0; 10; 0; 200; 100; 0; 245; 255; 9])))
                    0.5%float 150%float)) 3 0 1
  = 200
  /\ keeps_colours (concat (map (fun a => [1; 2; 3; a]) [0; 10; 0; 200; 100; 0; 245; 255; 9]))
       (data (subpixelMethod
                (mkImageData 3 3 (concat (map (fun a => [1; 2; 3; a])
                                    [0; 10; 0; 200; 100; 0; 245; 255; 9])))
                0.5%float 150%float)).
Proof.
  apply (subpixelMethod_partial_alphas_only
           (mkImageData 3 3 (concat (map (fun a => [1; 2; 3; a])
                               [0; 10; 0; 200; 100; 0; 245; 255; 9])))
           0.5%float 150%float 0 1);
    [reflexivity | simpl; lia | simpl; lia | left; reflexivity].
Defined.

(** ** Edge lab: blur and sharpen *)

(** The loop that copies an alpha channel back into the buffer. *)
Lemma copy_back_loop (f : Z -> JS.num) (n : nat) (init : list Z) (k c : Z) :
  0 <= c <= 3 ->
  rd (for_each (range 0 (Z.of_nat n)) (fun i s => set s (i * 4 + 3) (f i)) init)
     (4 * k + c)
  = if decide (c = 3 /\ 0 <= k < Z.of_nat n)
    then match rd init (4 * k + c) with
         | Some _ => Some (JS.toUint8Clamp (f k))
         | None => None
         end
    else rd init (4 * k + c).
Proof.
  intros Hc. induction n as [|n IH].
  - simpl. by rewrite decide_False by lia.
  - rewrite range_0_S, for_each_app. unfold for_each at 1. cbn [fold_left].
    rewrite rd_set. destruct (decide (Z.of_nat n * 4 + 3 = 4 * k + c)) as [E|E].
    + assert (c = 3 /\ k = Z.of_nat n) as [-> ->] by lia.
      replace (Z.of_nat n * 4 + 3) with (4 * Z.of_nat n + 3) by lia.
      rewrite IH, decide_False by lia. by rewrite decide_True by lia.
    + rewrite IH. repeat case_decide; try done; lia.
Qed.

(** The mask of the first step holds a pixel only if its alpha is not 0. *)
Lemma outerEdge_pos (d : list Z) (w h : Z) (j : Z) :
  rd (outerEdge d w h) j = Some 1 -> (0 <? get d (j * 4 + 3))%float = true.
Proof.
  unfold outerEdge. revert j.
  apply (loop2_ind (fun m => forall j, rd m j = Some 1 -> _)).
  - intros j. rewrite rd_zeros. by case_decide.
  - intros y x m _ _ Hm.
    destruct (0 <? _)%float eqn:Hp; [|done].
    destruct (hasTransparent _ _ _ _ _); [|done].
    intros j. rewrite rd_wr. case_decide as Hj; [|apply Hm]. by subst j.
Qed.

Lemma sharpenMask_inv (d : list Z) (w h : Z) :
  let m := sharpenMask d w h in
  bytes m = true
  /\ forall j, rd m j = Some 1 ->
       exists y x, 1 <= y < h - 1 /\ 1 <= x < w - 1 /\ j = y * w + x
         /\ ((0 <? get d (j * 4 + 3))%float && (get d (j * 4 + 3) <? 255)%float) = true.
Proof.
  unfold sharpenMask.
  apply (loop2_ind (fun m => bytes m = true /\ forall j, rd m j = Some 1 -> _)).
  - split; [apply bytes_zeros|]. intros j. rewrite rd_zeros. by case_decide.
  - intros y x m Hy%elem_of_range Hx%elem_of_range [Hb Hm].
    destruct (_ && _) eqn:Hc; [|done].
    lazymatch goal with
    | |- context [let '(_, _) := ?e in _] => destruct e as [t o]
    end.
    destruct (t && o); [|done].
    split; [apply bytes_wr; [done|lia]|].
    intros j. rewrite rd_wr. case_decide as Hj; [|apply Hm].
    subst j. intros _. by exists y, x.
Qed.

Section BlurSharpenFacts.

Variable Math_exp : JS.num -> JS.num.

Lemma blurEdgesPass_keeps (img : ImageData) (radius : Z) :
  well_formed img = true ->
  pass_keeps (fun x y => interior (width img) (height img) x y = true
                         /\ 0 < alpha_xy (data img) (width img) x y
                         /\ touches_transparency (data img) (width img) x y)
             img (blurEdgesPass Math_exp img radius).
Proof.
  intros Hwf. pose proof Hwf as (Hw & Hh & Hlen & Hb)%well_formed_inv.
  unfold blurEdgesPass. cbv zeta.
  rewrite (gaussian_snapshot (width img) (height img) (data img)) by (by destruct img).
  destruct (outerEdge_inv (data img) (width img) (height img)) as [Hbm Hm].
  set (isEdge := outerEdge _ _ _) in *.
  set (kernel := gaussianKernel _ _).
  set (newAlpha := for_each (range radius _) _ _).
  assert (Hnew : forall k, rd newAlpha k = rd (alphas (data img)) k \/ rd isEdge k = Some 1).
  { unfold newAlpha. apply (loop2_ind (fun s => forall k, rd s k = _ \/ _)); [by left|].
    intros y x s _ _ Hs k.
    destruct (get isEdge _ =? 1)%float eqn:E; [|done].
    lazymatch goal with
    | |- context [let '(_, _) := ?e in _] => destruct e as [sum weightSum]
    end.
    rewrite rd_set. case_decide as Hk; [|done]. subst k. right.
    by apply get_byte_eq_1. }
  set (out := for_each (range 0 _) _ _).
  assert (Hout : forall k c, 0 <= c <= 3 ->
            rd out (4 * k + c)
            = if decide (c = 3 /\ 0 <= k < width img * height img)
              then match rd (data img) (4 * k + c) with
                   | Some _ => Some (JS.toUint8Clamp (get newAlpha k))
                   | None => None
                   end
              else rd (data img) (4 * k + c)).
  { intros k c Hc. unfold out.
    replace (width img * height img) with (Z.of_nat (Z.to_nat (width img * height img)))
      by lia.
    by apply copy_back_loop. }
  assert (Hlen' : len out = len (data img)).
  { unfold out. apply (for_each_ind (fun s => len s = len (data img))); [done|].
    intros i s _ Hs. by rewrite len_set. }
  assert (Hcol : keeps_colours (data img) out).
  { split; [done|]. intros j Hj.
    pose proof (Z.div_mod j 4 ltac:(lia)) as Hdm.
    pose proof (Z.mod_pos_bound j 4 ltac:(lia)) as Hmb.
    rewrite Hdm at 1 2. rewrite Hout by lia. by rewrite decide_False by lia. }
  assert (Hbytes : bytes out = true).
  { unfold out. apply (for_each_ind (fun s => bytes s = true)); [done|].
    intros i s _ Hs. by apply bytes_set. }
  unfold pass_keeps. simpl.
  split; [by apply well_formed_with_data|]. split; [done|]. split; [done|].
  split; [done|].
  intros x y Hx Hy. pose proof (pixel_index_bound _ _ _ _ Hx Hy) as Hk.
  unfold pixel_index in Hk.
  destruct (Hnew (y * width img + x)) as [Hn|He].
  - left. unfold alpha_xy, alpha_of, pixel_index.
    rewrite Hout, decide_True by lia.
    destruct (rd_lt_Some (data img) (4 * (y * width img + x) + 3) ltac:(lia)) as [a Ha].
    rewrite Ha. simpl. unfold get. rewrite Hn, rd_alphas.
    rewrite well_formed_pixels, decide_True by done.
    unfold alpha_of. rewrite Ha. simpl.
    apply of_int_byte_store. exact (bytes_rd _ _ _ Hb Ha).
  - right. pose proof (outerEdge_pos _ _ _ _ He) as Hp.
    apply Hm in He as (y' & x' & Hy' & Hx' & Hj & Ht).
    destruct (pixel_index_inj (width img) x y x' y') as [-> ->]; [lia|lia|done|].
    split; [|split].
    + unfold interior. repeat (apply andb_true_intro; split); lia.
    + destruct (get_alpha_xy img x' y' Hwf Hx Hy) as [Hg Hbnd].
      rewrite Hg in Hp. destruct (decide (alpha_xy (data img) (width img) x' y' = 0)) as [E|E];
        [|lia].
      rewrite E in Hp. by vm_compute in Hp.
    + apply hasTransparent_true in Ht as (dx & dy & Hdx & Hdy & Hne & H0).
      exists dx, dy. split; [done|]. split; [done|]. split; [done|].
      apply get_byte_eq_0 in H0; [|done]. unfold alpha_of, pixel_index.
      by replace (4 * ((y' + dy) * width img + (x' + dx)) + 3)
        with (((y' + dy) * width img + (x' + dx)) * 4 + 3) by lia.
Qed.

Lemma sharpenEdgesPass_keeps (img : ImageData) (strength threshold : JS.num) :
  well_formed img = true ->
  pass_keeps (fun x y => interior (width img) (height img) x y = true
                         /\ 0 < alpha_xy (data img) (width img) x y < 255)
             img (sharpenEdgesPass img strength threshold).
Proof.
  intros Hwf. pose proof Hwf as (Hw & Hh & Hlen & Hb)%well_formed_inv.
  unfold sharpenEdgesPass. cbv zeta.
  destruct (sharpenMask_inv (data img) (width img) (height img)) as [Hbm Hm].
  set (isEdge := sharpenMask _ _ _) in *.
  set (out := for_each _ _ _).
  assert (Hinv : len out = len (data img) /\ bytes out = true
                 /\ forall j, rd out j = rd (data img) j
                              \/ exists k, j = k * 4 + 3 /\ rd isEdge k = Some 1).
  { unfold out.
    apply (loop2_ind (fun s => len s = len (data img) /\ bytes s = true
                               /\ forall j, rd s j = rd (data img) j \/ _)).
    - repeat split; try done. by left.
    - intros y x s _ _ (Hl & Hbs & Hs).
      destruct (get isEdge _ =? 1)%float eqn:E; cbn [negb]; [|done].
      lazymatch goal with
      | |- context [let '(_, _) := ?e in _] => destruct e as [sum count]
      end.
      destruct (threshold <? _)%float; [|done].
      split; [by rewrite len_set|]. split; [by apply bytes_set|].
      intros j. rewrite rd_set. case_decide as Hj; [|apply Hs].
      right. exists (y * width img + x). split; [done|]. by apply get_byte_eq_1. }
  destruct Hinv as (Hl & Hbo & Hs).
  unfold pass_keeps. simpl.
  split; [by apply well_formed_with_data|]. split; [done|]. split; [done|].
  split.
  { split; [done|]. intros j Hj. destruct (Hs j) as [E|(k & -> & _)]; [done|].
    by rewrite alpha_slot_mod in Hj. }
  intros x y Hx Hy.
  destruct (Hs (4 * (y * width img + x) + 3)) as [E|(k & Hk & He)].
  - left. unfold alpha_xy, alpha_of, pixel_index. by rewrite E.
  - right. assert (k = y * width img + x) as -> by lia.
    apply Hm in He as (y' & x' & Hy' & Hx' & Hj & Hc).
    destruct (pixel_index_inj (width img) x y x' y') as [-> ->]; [lia|lia|done|].
    split.
    + unfold interior. repeat (apply andb_true_intro; split); lia.
    + destruct (get_alpha_xy img x' y' Hwf Hx Hy) as [Hg Hbnd].
      rewrite Hg, byte_between_0_255 in Hc by done. lia.
Qed.

End BlurSharpenFacts.

(** X18. The passes of the blur and sharpen method touch edge pixels only:
    on a well-formed image, [blurEdgesPass] changes the alpha of a pixel only
    if the pixel is off the border, not fully transparent and next to a fully
    transparent pixel, and [sharpenEdgesPass] only if the pixel is off the
    border and its alpha is strictly between 0 and 255.  Both keep the size,
    the colours and well-formedness. *)
Theorem edge_passes_touch_edges_only (Math_exp : JS.num -> JS.num) (img : ImageData)
    (radius : Z) (strength threshold : JS.num) :
  well_formed img = true ->
  pass_keeps (fun x y => interior (width img) (height img) x y = true
                         /\ 0 < alpha_xy (data img) (width img) x y
                         /\ touches_transparency (data img) (width img) x y)
             img (blurEdgesPass Math_exp img radius)
  /\ pass_keeps (fun x y => interior (width img) (height img) x y = true
                            /\ 0 < alpha_xy (data img) (width img) x y < 255)
                img (sharpenEdgesPass img strength threshold).
Proof.
  intros Hwf. split; [by apply blurEdgesPass_keeps|by apply sharpenEdgesPass_keeps].
Qed.

Lemma edge_passes_touch_edges_only_witness :
  let img := mkImageData 3 3 (concat (map (fun a => [1; 2; 3; a])
                                [0; 10; 0; 200; 100; 0; 245; 255; 9])) in
  pass_keeps (fun x y => interior 3 3 x y = true
                         /\ 0 < alpha_xy (data img) 3 x y
                         /\ touches_transparency (data img) 3 x y)
             img (blurEdgesPass (fun x => x) img 1)
  /\ pass_keeps (fun x y => interior 3 3 x y = true
                            /\ 0 < alpha_xy (data img) 3 x y < 255)
                img (sharpenEdgesPass img 50%float 10%float).
Proof.
  apply (edge_passes_touch_edges_only (fun x => x)
           (mkImageData 3 3 (concat (map (fun a => [1; 2; 3; a])
                               [0; 10; 0; 200; 100; 0; 245; 255; 9])))
           1 50%float 10%float).
  reflexivity.
Defined.

(** X19. The blur and sharpen method leaves transparency and the solid
    interior alone: on a well-formed image, for any radius, strength and
    threshold, a fully transparent pixel stays fully transparent, a fully
    opaque pixel that is not next to a fully transparent one stays fully
    opaque, and no colour byte is written. *)
Theorem blurSharpenMethod_keeps_clear_and_solid (Math_exp : JS.num -> JS.num)
    (img : ImageData) (blurRadius : Z) (sharpenStrength threshold : JS.num) (x y : Z) :
  well_formed img = true ->
  0 <= x < width img -> 0 <= y < height img ->
  alpha_xy (data img) (width img) x y = 0
  \/ (alpha_xy (data img) (width img) x y = 255
      /\ ~ touches_transparency (data img) (width img) x y) ->
  alpha_xy (data (blurSharpenMethod Math_exp img blurRadius sharpenStrength threshold))
           (width img) x y
  = alpha_xy (data img) (width img) x y
  /\ keeps_colours (data img)
       (data (blurSharpenMethod Math_exp img blurRadius sharpenStrength threshold)).
Proof.
  intros Hwf Hx Hy Hp. unfold blurSharpenMethod. cbv zeta.
  destruct (blurEdgesPass_keeps Math_exp img blurRadius Hwf)
    as (Hwf1 & Hw1 & Hh1 & Hc1 & H1).
  set (img1 := blurEdgesPass Math_exp img blurRadius) in *.
  destruct (sharpenEdgesPass_keeps img1 sharpenStrength threshold Hwf1)
    as (_ & _ & _ & Hc2 & H2).
  split; [|by eapply keeps_colours_trans].
  assert (E1 : alpha_xy (data img1) (width img) x y = alpha_xy (data img) (width img) x y).
  { destruct (H1 x y Hx Hy) as [E|(_ & Hpos & Ht)]; [done|].
    destruct Hp as [Hp|[_ Hp]]; [lia|done]. }
  rewrite Hw1, Hh1 in H2.
  destruct (H2 x y Hx Hy) as [E|(_ & Hpart)]; [by rewrite E|].
  rewrite E1 in Hpart. destruct Hp as [Hp|[Hp _]]; lia.
Qed.

Lemma blurSharpenMethod_keeps_clear_and_solid_witness :
  let img := mkImageData 3 3 (concat (map (fun a => [1; 2; 3; a])
                                [0; 10; 0; 200; 100; 0; 245; 255; 9])) in
  alpha_xy (data (blurSharpenMethod (fun x => x) img 1 50%float 10%float)) 3 2 1 = 0
  /\ keeps_colours (data img)
       (data (blurSharpenMethod (fun x => x) img 1 50%float 10%float)).
Proof.
  apply (blurSharpenMethod_keeps_clear_and_solid (fun x => x)
           (mkImageData 3 3 (concat (map (fun a => [1; 2; 3; a])
                               [0; 10; 0; 200; 100; 0; 245; 255; 9])))
           1 50%float 10%float 2 1);
    [reflexivity | simpl; lia | simpl; lia | left; reflexivity].
Defined.

(** ** The batch driver: adding files *)

Section AddFilesFacts.

Context {File Blob : Type}.
Variables (name type : File -> string).

Let PF := ProcessedFile File Blob.

(** The index [existingByName] gives for a name: an entry of that name, and
    none only if no entry has the name. *)
Lemma existingByName_spec (prev : list PF) (n : string) :
  match foldl (fun (m : gmap string nat) '(idx, f) => <[name (original f) := idx]> m) ∅
              (imap (fun idx f => (idx, f)) prev) !! n with
  | Some i => exists f, prev !! i = Some f /\ name (original f) = n
  | None => n ∉ names name prev
  end.
Proof.
  induction prev as [|f prev IH] using rev_ind.
  - simpl. rewrite lookup_empty. by intros ?%elem_of_nil.
  - rewrite imap_app, foldl_app. simpl. rewrite Nat.add_0_r.
    destruct (decide (name (original f) = n)) as [<-|Hne].
    + rewrite lookup_insert_eq. exists f. split; [|done].
      rewrite lookup_app_r by done. by rewrite Nat.sub_diag.
    + rewrite lookup_insert_ne by done.
      destruct (foldl _ _ _ !! n) as [i|].
      * destruct IH as (g & Hg & Hn). exists g. split; [|done].
        by apply lookup_app_l_Some.
      * unfold names in *. rewrite map_app. intros [H|H]%elem_of_app; [done|].
        simpl in H. apply list_elem_of_singleton in H. done.
Qed.

(** The names [addFiles] leaves, and where its entries come from. *)
Lemma addFiles_spec (newFiles : list File) (prev : list PF) :
  names name (addFiles name type newFiles prev)
  = names name prev
    ++ List.filter (fun n => negb (bool_decide (n ∈ names name prev)))
                   (image_names name type newFiles)
  /\ (forall f, f ∈ addFiles name type newFiles prev ->
        f ∈ prev
        \/ exists file, file ∈ newFiles /\ startsWith (type file) "image/" = true
                        /\ f = pending_entry file).
Proof.
  unfold addFiles. cbv zeta.
  set (m := foldl _ ∅ _).
  set (step := fun '(updated, toAdd) file => _).
  assert (Hinv : forall new : list File,
    let r := foldl step (prev, []) new in
    names name r.1 = names name prev
    /\ names name r.2
       = List.filter (fun n => negb (bool_decide (n ∈ names name prev)))
                     (image_names name type new)
    /\ forall f, f ∈ r.1 ++ r.2 ->
         f ∈ prev
         \/ exists file, file ∈ new /\ startsWith (type file) "image/" = true
                         /\ f = pending_entry file).
  { induction new as [|file new IH] using rev_ind.
    - simpl. split; [done|]. split; [done|].
      intros f Hf. left. by rewrite app_nil_r in Hf.
    - cbv zeta in *. rewrite foldl_app. simpl.
      destruct (foldl step (prev, []) new) as [updated toAdd].
      destruct IH as (Hup & Hadd & Hent). simpl in *.
      assert (Hmono : forall f,
                (f ∈ prev \/ exists file0, file0 ∈ new
                   /\ startsWith (type file0) "image/" = true /\ f = pending_entry file0) ->
                f ∈ prev \/ exists file0, file0 ∈ new ++ [file]
                   /\ startsWith (type file0) "image/" = true /\ f = pending_entry file0).
      { intros f [H|(file0 & H1 & H2)]; [by left|right].
        exists file0. split; [apply elem_of_app; by left|done]. }
      unfold image_names in *. rewrite List.filter_app, map_app, List.filter_app.
      destruct (startsWith (type file) "image/") eqn:Eimg; simpl; rewrite Eimg; simpl.
      + pose proof (existingByName_spec prev (name file)) as Hm.
        change (match m !! name file with
                | Some i => exists f : PF, prev !! i = Some f
                                           /\ name (original f) = name file
                | None => name file ∉ names name prev
                end) in Hm.
        destruct (m !! name file) as [i|] eqn:Ei; simpl.
        * destruct Hm as (g & Hg & Hn).
          assert (Hin : name file ∈ names name prev).
          { unfold names. apply list_elem_of_fmap. exists g.
            split; [done|]. by eapply list_elem_of_lookup_2. }
          rewrite bool_decide_eq_true_2 by done. simpl. rewrite app_nil_r.
          split; [|split; [done|]].
          -- unfold names in *. change (map ?h ?l) with (h <$> l).
             rewrite list_fmap_insert. change (?h <$> ?l) with (map h l).
             rewrite Hup. apply list_insert_id.
             change (map ?h ?l) with (h <$> l). rewrite list_lookup_fmap.
             etransitivity; [exact (f_equal (fmap _) Hg)|].
             simpl. by rewrite Hn.
          -- intros f [Hf|Hf]%elem_of_app.
             ++ apply list_elem_of_lookup in Hf as [j Hj].
                destruct (decide (j = i)) as [->|Hji].
                ** apply list_lookup_insert_Some in Hj as [(_ & <- & _)|[? _]]; [|done].
                   right. exists file.
                   split; [apply elem_of_app; right; by left|done].
                ** rewrite list_lookup_insert_ne in Hj by done.
                   apply Hmono, Hent, elem_of_app. left.
                   by eapply list_elem_of_lookup_2.
             ++ apply Hmono, Hent, elem_of_app. by right.
        * rewrite bool_decide_eq_false_2 by done. simpl.
          split; [done|]. split.
          -- unfold names in *. rewrite map_app, Hadd. done.
          -- intros f [Hf|[Hf|Hf]%elem_of_app]%elem_of_app.
             ++ apply Hmono, Hent, elem_of_app. by left.
             ++ apply Hmono, Hent, elem_of_app. by right.
             ++ apply list_elem_of_singleton in Hf as ->. right. exists file.
                split; [apply elem_of_app; right; by left|done].
      + rewrite app_nil_r. split; [done|]. split; [done|].
        intros f Hf. by apply Hmono, Hent. }
  specialize (Hinv newFiles). cbv zeta in Hinv.
  lazymatch goal with
  | |- context [let '(_, _) := ?t in _] =>
      change (foldl step (prev, []) newFiles) with t in Hinv;
      destruct t as [updated toAdd]
  end.
  destruct Hinv as (Hup & Hadd & Hent). simpl in *.
  assert (Hnames : names name (updated ++ toAdd)
                   = names name prev
                     ++ List.filter (fun n => negb (bool_decide (n ∈ names name prev)))
                                    (image_names name type newFiles)).
  { unfold names in *. by rewrite map_app, Hup, Hadd. }
  split; [exact Hnames|exact Hent].
Qed.

(** X13. [addFiles] keeps every listed name in its place and adds only new
    names: the names of the new list are the names of the old list, in the
    same positions, followed by the names of the new image files that were
    not listed, in the order given.  Every entry is an old entry or a
    pending entry without result for one of the new image files, and a list
    without duplicate names stays so when the new image files have distinct
    names. *)
Theorem addFiles_names (newFiles : list File) (prev : list PF) :
  names name (addFiles name type newFiles prev)
  = names name prev
    ++ List.filter (fun n => negb (bool_decide (n ∈ names name prev)))
                   (image_names name type newFiles)
  /\ (forall f, f ∈ addFiles name type newFiles prev ->
        f ∈ prev
        \/ exists file, file ∈ newFiles /\ startsWith (type file) "image/" = true
                        /\ f = pending_entry file)
  /\ (NoDup (names name prev) -> NoDup (image_names name type newFiles) ->
      NoDup (names name (addFiles name type newFiles prev))).
Proof.
  destruct (addFiles_spec newFiles prev) as [Hnames Hent].
  split; [exact Hnames|]. split; [exact Hent|].
  intros Hnd Hnew. rewrite Hnames. apply NoDup_app. split; [done|]. split.
  - intros n Hn Hf. apply list_elem_of_In, filter_In in Hf as [_ Hf].
    by rewrite bool_decide_eq_true_2 in Hf.
  - clear -Hnew. induction Hnew as [|n l Hn Hl IH]; [constructor|]. simpl.
    destruct (negb _); [|done]. constructor; [|done].
    intros Hf. apply Hn. apply list_elem_of_In in Hf. apply filter_In in Hf as [Hf _].
    by apply list_elem_of_In.
Qed.

End AddFilesFacts.

(** ** The batch driver: counters *)

Section CounterFacts.

Context {File Blob : Type}.
Variable removeBackground_of : File -> Settled Blob.
Variable createPreview : Blob -> Settled string.

Let PF := ProcessedFile File Blob.
Let outcome := outcome_of removeBackground_of createPreview.
Let stalled := stalls removeBackground_of createPreview.
Let state := batch_state removeBackground_of createPreview.

Lemma outcome_status (f : PF) :
  match status f with
  | Pending | Error =>
      if stalled f
      then outcome f
           = mkProcessedFile (original f) (processed f) (preview f) Processing (error f)
      else status (outcome f) = Done \/ status (outcome f) = Error
  | _ => outcome f = f /\ stalled f = false
  end.
Proof.
  unfold outcome, outcome_of, stalled, stalls.
  destruct (status f); try done;
    (destruct (removeBackground_of (original f)) as [blob|e|]; simpl;
     [destruct (createPreview blob); simpl; auto | auto | auto]).
Qed.

Lemma outcome_original (f : PF) : original (outcome f) = original f.
Proof.
  unfold outcome, outcome_of.
  destruct (status f); try done;
    (destruct (removeBackground_of (original f)) as [blob|e|]; simpl;
     [by destruct (createPreview blob) | done | done]).
Qed.

Lemma outcome_done (f : PF) : status f = Done -> outcome f = f /\ stalled f = false.
Proof. intros Hs. pose proof (outcome_status f) as H. by rewrite Hs in H. Qed.

Lemma batch_state_original (files : list PF) :
  map original (state files) = map original files.
Proof.
  induction files as [|f files IH]; [done|]. unfold state in *. simpl.
  rewrite outcome_original. f_equal. by destruct (stalls _ _ f).
Qed.

Lemma batch_state_done (files : list PF) (i : nat) (f : PF) :
  files !! i = Some f -> status f = Done -> state files !! i = Some f.
Proof.
  revert i. induction files as [|g files IH]; intros i Hi Hs; [done|].
  unfold state in *. simpl. destruct i as [|i]; simpl in *.
  - injection Hi as ->. f_equal. by apply outcome_done.
  - destruct (stalls _ _ g); [done|]. by apply IH.
Qed.

(** The counters after a batch, whether it completes or not. *)
Lemma batch_counts_any (files : list PF) :
  (processedCount files <= processedCount (state files))%nat
  /\ (pendingCount (state files) <= pendingCount files)%nat.
Proof.
  unfold pendingCount, processedCount, state.
  induction files as [|f files (IH1 & IH2)]; [done|].
  simpl. pose proof (outcome_status f) as H. unfold status_is, stalled, outcome in *.
  destruct (status f) eqn:Hs.
  - destruct (stalls _ _ f).
    + rewrite H. simpl. rewrite ?Hs. simpl. lia.
    + destruct H as [-> | ->]; simpl; lia.
  - destruct H as [-> ->]. rewrite Hs. simpl. lia.
  - destruct H as [-> ->]. rewrite Hs. simpl. lia.
  - destruct (stalls _ _ f).
    + rewrite H. simpl. rewrite ?Hs. simpl. lia.
    + destruct H as [-> | ->]; simpl; lia.
Qed.

(** The counters after a batch in which no entry stalls. *)
Lemma batch_counts_settled (files : list PF) :
  existsb stalled files = false ->
  pendingCount (map outcome files) = 0%nat
  /\ (processedCount (map outcome files) + errorCount (map outcome files)
      = processedCount files + errorCount files + pendingCount files)%nat.
Proof.
  unfold pendingCount, processedCount, errorCount.
  induction files as [|f files IH]; [done|].
  simpl. intros [Hf Hrest]%orb_false_elim. destruct (IH Hrest) as [IH1 IH2].
  pose proof (outcome_status f) as H. rewrite Hf in H. unfold status_is in *.
  destruct (status f) eqn:Hs.
  - destruct H as [-> | ->]; simpl; split; lia.
  - destruct H as [-> _]. rewrite Hs. simpl. split; lia.
  - destruct H as [-> _]. rewrite Hs. simpl. split; lia.
  - destruct H as [-> | ->]; simpl; split; lia.
Qed.

(** A batch with a stalling entry stops at the first one. *)
Lemma batch_state_stalled (files : list PF) :
  existsb stalled files = true ->
  exists pre f post,
    files = pre ++ f :: post
    /\ match status f with Pending | Error => True | _ => False end
    /\ state files
       = map outcome pre
         ++ mkProcessedFile (original f) (processed f) (preview f) Processing (error f)
         :: post.
Proof.
  induction files as [|g files IH]; [done|]. simpl. unfold state in *. simpl.
  pose proof (outcome_status g) as H. unfold stalled, outcome in *.
  destruct (stalls _ _ g) eqn:Hg.
  - intros _. exists [], g, files. split; [done|]. split.
    + unfold stalls in Hg. by destruct (status g).
    + simpl. f_equal. by destruct (status g); try done; destruct H.
  - simpl. intros Hrest. destruct (IH Hrest) as (pre & f & post & -> & Hs & ->).
    by exists (g :: pre), f, post.
Qed.

(** X14. What a batch leaves.  Run on [files], whether it completes or
    not, it keeps every file in its place and every done entry as it is, the
    done count never drops and the pending count never grows.  When every
    promise it awaits is settled, it completes, leaves no entry pending, and
    the done and error counts after it add up to the done, error and pending
    counts before it.  When a promise it awaits is never settled, it never
    completes: the entry it was processing is left in the processing state
    and the entries after that one are left as they were. *)
Theorem batch_counts_after (files : list PF) :
  let run :=
    startBatchProcessing File Blob removeBackground_of createPreview files files in
  map original run.2 = map original files
  /\ (forall i f, files !! i = Some f -> status f = Done -> run.2 !! i = Some f)
  /\ (processedCount files <= processedCount run.2)%nat
  /\ (pendingCount run.2 <= pendingCount files)%nat
  /\ (existsb (stalls removeBackground_of createPreview) files = false ->
      run.1 = Resolved tt
      /\ pendingCount run.2 = 0%nat
      /\ (processedCount run.2 + errorCount run.2
          = processedCount files + errorCount files + pendingCount files)%nat)
  /\ (existsb (stalls removeBackground_of createPreview) files = true ->
      run.1 = Unsettled
      /\ exists pre f post,
           files = pre ++ f :: post
           /\ match status f with Pending | Error => True | _ => False end
           /\ run.2
              = map (outcome_of removeBackground_of createPreview) pre
                ++ mkProcessedFile (original f) (processed f) (preview f) Processing
                                   (error f)
                :: post).
Proof.
  cbv zeta. rewrite startBatchProcessing_spec. simpl.
  destruct (batch_counts_any files) as [H1 H2].
  split; [apply batch_state_original|].
  split; [apply batch_state_done|].
  split; [exact H1|]. split; [exact H2|]. split.
  - intros Hs. rewrite Hs, batch_state_settled by done.
    split; [done|]. by apply batch_counts_settled.
  - intros Hs. rewrite Hs. split; [done|]. by apply batch_state_stalled.
Qed.

(** X21. Error isolation when every awaited promise is settled: the batch
    then completes normally and leaves, for every entry, the outcome of that
    entry alone.  An entry whose processing is rejected ends with status
    [Error] and the message of what was thrown (or "Unknown error"), and
    nothing is ever thrown out of [processFile]. *)
Theorem batch_error_isolation (files : list PF) :
  existsb (stalls removeBackground_of createPreview) files = false ->
  startBatchProcessing File Blob removeBackground_of createPreview files files
  = (Resolved tt, map (outcome_of removeBackground_of createPreview) files)
  /\ (forall file index state' e,
        (processFile File Blob removeBackground_of createPreview file index state').1
        <> Rejected e)
  /\ (forall file e,
        status file = Pending \/ status file = Error ->
        removeBackground_of (original file) = Rejected e ->
        status (outcome_of removeBackground_of createPreview file) = Error
        /\ error (outcome_of removeBackground_of createPreview file)
           = Some (message_of e)).
Proof.
  intros Hs. split; [|split].
  - rewrite startBatchProcessing_spec, Hs. by rewrite batch_state_settled.
  - intros file index state' e.
    by destruct (processFile_never_rejects removeBackground_of createPreview
                   file index state') as [-> | ->].
  - intros file e Hst He. unfold outcome_of. rewrite He.
    by destruct Hst as [-> | ->].
Qed.

End CounterFacts.

Lemma batch_error_isolation_witness :
  let removeBackground_of := fun file : string =>
    if String.eqb file "bad.png" then Rejected (ErrorObject "Failed to load")
    else Resolved 7%nat in
  let createPreview := fun _ : nat => Resolved "data:"%string in
  let files := [pending_entry (Blob := nat) "a.png"%string;
                pending_entry "bad.png"%string;
                pending_entry "c.png"%string] in
  startBatchProcessing string nat removeBackground_of createPreview files files
  = (Resolved tt, map (outcome_of removeBackground_of createPreview) files)
  /\ (forall file index state' e,
        (processFile string nat removeBackground_of createPreview file index state').1
        <> Rejected e)
  /\ (forall file e,
        status file = Pending \/ status file = Error ->
        removeBackground_of (original file) = Rejected e ->
        status (outcome_of removeBackground_of createPreview file) = Error
        /\ error (outcome_of removeBackground_of createPreview file)
           = Some (message_of e)).
Proof.
  apply (batch_error_isolation
           (fun file : string =>
              if String.eqb file "bad.png" then Rejected (ErrorObject "Failed to load")
              else Resolved 7%nat)
           (fun _ : nat => Resolved "data:"%string)
           [pending_entry (Blob := nat) "a.png"%string;
            pending_entry "bad.png"%string;
            pending_entry "c.png"%string]).
  reflexivity.
Defined.

(** ** The batch driver: download names *)

Lemma no_slash_no_dot_app_dot (b ext : string) :
  no_slash_no_dot (b ++ String "." ext)%string = false.
Proof.
  induction b as [|c b IH]; simpl; [done|].
  rewrite IH. apply andb_false_r.
Qed.

Lemma split_no_dot (s : string) :
  no_slash_no_dot s = true -> split s "." = [s].
Proof.
  induction s as [|c s IH]; [done|]. simpl.
  intros [[_ Hc]%andb_prop Hs]%andb_prop.
  destruct (Ascii.eqb c "."); [done|]. by rewrite IH.
Qed.

Lemma split_app_dot (base ext : string) :
  no_slash_no_dot ext = true ->
  exists piece pieces,
    split (base ++ String "." ext)%string "." = piece :: pieces ++ [ext].
Proof.
  intros He. induction base as [|c b (piece & pieces & IH)]; simpl.
  - exists EmptyString, []. by rewrite split_no_dot.
  - rewrite IH. destruct (Ascii.eqb c ".").
    + by exists EmptyString, (piece :: pieces).
    + by exists (String c piece), pieces.
Qed.

Lemma strip_extension_app (base ext : string) :
  ext <> EmptyString -> no_slash_no_dot ext = true ->
  strip_extension (base ++ String "." ext)%string = base.
Proof.
  intros Hne He. induction base as [|c b IH]; simpl.
  - rewrite He. destruct ext; [done|]. done.
  - by rewrite no_slash_no_dot_app_dot, andb_false_r, IH.
Qed.

Lemma strip_extension_no_dot (s : string) :
  no_slash_no_dot s = true -> strip_extension s = s.
Proof.
  induction s as [|c s IH]; [done|]. simpl.
  intros [[_ Hc]%andb_prop Hs]%andb_prop.
  destruct (Ascii.eqb c "."); [done|]. simpl. by rewrite IH.
Qed.

Lemma strip_extension_final_dot (base : string) :
  strip_extension (base ++ ".")%string = (base ++ ".")%string.
Proof.
  induction base as [|c b IH]; [done|]. simpl.
  by rewrite no_slash_no_dot_app_dot, andb_false_r, IH.
Qed.

Lemma string_app_assoc (a b c : string) :
  ((a ++ b) ++ c)%string = (a ++ (b ++ c))%string.
Proof.
  induction a as [|x a IH]; [done|].
  change (String x ((a ++ b) ++ c) = String x (a ++ (b ++ c)))%string. by rewrite IH.
Qed.

(** X16. The name a result is saved under.  A name [base.ext], whose
    extension is not empty and has neither a slash nor a dot, gives
    [base_no_bg.ext], whatever dots the base has.  A name without a dot is
    taken for its own extension, and a name that ends in a dot is kept whole
    and gets the extension [png]. *)
Theorem download_name_cases (base ext : string) :
  ext <> EmptyString -> no_slash_no_dot ext = true ->
  download_name (base ++ "." ++ ext) = (base ++ "_no_bg." ++ ext)%string
  /\ download_name ext = (ext ++ "_no_bg." ++ ext)%string
  /\ download_name (base ++ ".") = (base ++ "._no_bg.png")%string.
Proof.
  intros Hne He. unfold download_name. cbv zeta. split; [|split].
  - change ("." ++ ext)%string with (String "." ext).
    rewrite strip_extension_app by done.
    destruct (split_app_dot base ext He) as (piece & pieces & ->).
    rewrite app_comm_cons, last_snoc. by destruct ext.
  - rewrite strip_extension_no_dot, split_no_dot by done. simpl. by destruct ext.
  - rewrite strip_extension_final_dot.
    destruct (split_app_dot base EmptyString eq_refl) as (piece & pieces & ->).
    rewrite app_comm_cons, last_snoc. by rewrite string_app_assoc.
Qed.

Lemma download_name_cases_witness :
  download_name "app.icon.PNG" = "app.icon_no_bg.PNG"%string
  /\ download_name "PNG" = "PNG_no_bg.PNG"%string
  /\ download_name "app.icon." = "app.icon._no_bg.png"%string.
Proof.
  apply (download_name_cases "app.icon" "PNG"); [discriminate|reflexivity].
Defined.

(** ** The batch driver: results and downloads *)

Section ResultFacts.

Context {File Blob : Type}.
Variables (name type : File -> string).
Variable removeBackground_of : File -> Settled Blob.
Variable createPreview : Blob -> Settled string.

Lemma result_iff_done_outcome (f : ProcessedFile File Blob) :
  result_iff_done f = true ->
  result_iff_done (outcome_of removeBackground_of createPreview f) = true.
Proof.
  unfold outcome_of. destruct (status f) eqn:Hs; try done;
    unfold result_iff_done, status_is; rewrite Hs;
    (destruct (processed f) as [blob0|] eqn:Hp; [done|]; intros _;
     destruct (removeBackground_of (original f)) as [blob|e|]; simpl;
     [by destruct (createPreview blob) | done | done]).
Qed.

(** The invariant holds in the list a batch leaves, completed or not. *)
Lemma result_iff_done_batch_state (files : list (ProcessedFile File Blob)) :
  forallb result_iff_done files = true ->
  forallb result_iff_done (batch_state removeBackground_of createPreview files) = true.
Proof.
  induction files as [|f files IH]; [done|]. simpl.
  intros [Hf Hrest]%andb_prop. rewrite result_iff_done_outcome by done. simpl.
  destruct (stalls _ _ f); [done|]. by apply IH.
Qed.

(** The loop of [downloadAllAsZip] from any point. *)
Lemma downloadAllAsZip_loop_from (files : list (ProcessedFile File Blob))
    (zip : list (string * Blob)) (count : nat) :
  forallb result_iff_done files = true ->
  let r := foldl (fun '(zip, count) file =>
                    match processed file with
                    | Some blob =>
                        (zip ++ [(download_name (name (original file)), blob)], S count)
                    | None => (zip, count)
                    end) (zip, count) files in
  map fst r.1 = map fst zip
                ++ map (fun f => download_name (name (original f)))
                       (List.filter (status_is Done) files)
  /\ map snd r.1 = map snd zip
                   ++ omap processed (List.filter (status_is Done) files)
  /\ r.2 = (count + processedCount files)%nat.
Proof.
  revert zip count. induction files as [|f files IH]; intros zip count Hinv.
  - simpl. unfold processedCount. simpl. by rewrite !app_nil_r, Nat.add_0_r.
  - simpl in Hinv. apply andb_prop in Hinv as [Hf Hinv].
    cbv zeta. simpl foldl. unfold processedCount. simpl List.filter.
    unfold result_iff_done in Hf.
    destruct (processed f) as [blob|] eqn:Hp.
    + destruct (status_is Done f) eqn:Hd; [|done].
      destruct (IH (zip ++ [(download_name (name (original f)), blob)]) (S count) Hinv)
        as (H1 & H2 & H3).
      cbv zeta in H1, H2, H3. rewrite H1, H2, H3. unfold processedCount.
      rewrite !map_app, <- !app_assoc. simpl. rewrite Hp. simpl.
      repeat split; try done; lia.
    + destruct (status_is Done f) eqn:Hd; [done|]. by apply IH.
Qed.

(** X15. Results sit on the done entries, and the archive holds them: if
    every entry of the list carries a result exactly when it is done, the
    same holds after [addFiles] and after a batch; and then the loop of
    [downloadAllAsZip] puts in the archive the results of the done entries,
    in order and under their download names, and counts as many files as
    [processedCount]. *)
Theorem archive_holds_done_files (files : list (ProcessedFile File Blob))
    (newFiles : list File) :
  forallb result_iff_done files = true ->
  forallb result_iff_done (addFiles name type newFiles files) = true
  /\ forallb result_iff_done
       (startBatchProcessing File Blob removeBackground_of createPreview files files).2
     = true
  /\ map fst (downloadAllAsZip_loop name files).1
     = map (fun f => download_name (name (original f)))
           (List.filter (status_is Done) files)
  /\ map snd (downloadAllAsZip_loop name files).1
     = omap processed (List.filter (status_is Done) files)
  /\ (downloadAllAsZip_loop name files).2 = processedCount files.
Proof.
  intros Hinv. split; [|split].
  - apply forallb_forall. intros f Hf%list_elem_of_In.
    destruct (addFiles_spec name type newFiles files) as [_ Hent].
    destruct (Hent f Hf) as [Hold|(file & _ & _ & ->)]; [|done].
    rewrite forallb_forall in Hinv. by apply Hinv, list_elem_of_In.
  - rewrite startBatchProcessing_spec. by apply result_iff_done_batch_state.
  - apply (downloadAllAsZip_loop_from files [] 0%nat Hinv).
Qed.

End ResultFacts.

Lemma archive_holds_done_files_witness :
  let name := fun file : string => file in
  let type := fun _ : string => "image/png"%string in
  let files := [mkProcessedFile "a.png"%string (Some 7%nat) (Some "url"%string) Done None;
                mkProcessedFile "b.png"%string None None Error (Some "failed"%string)] in
  forallb result_iff_done (addFiles name type ["b.png"%string] files) = true
  /\ forallb result_iff_done
       (startBatchProcessing string nat (fun _ => Resolved 8%nat)
          (fun _ => Resolved "url"%string) files files).2
     = true
  /\ map fst (downloadAllAsZip_loop name files).1
     = map (fun f => download_name (name (original f)))
           (List.filter (status_is Done) files)
  /\ map snd (downloadAllAsZip_loop name files).1
     = omap processed (List.filter (status_is Done) files)
  /\ (downloadAllAsZip_loop name files).2 = processedCount files.
Proof.
  apply (archive_holds_done_files (fun file : string => file)
           (fun _ : string => "image/png"%string)
           (fun _ => Resolved 8%nat) (fun _ => Resolved "url"%string)
           [mkProcessedFile "a.png"%string (Some 7%nat) (Some "url"%string) Done None;
            mkProcessedFile "b.png"%string None None Error (Some "failed"%string)]
           ["b.png"%string]).
  reflexivity.
Defined.
